(** * SecretVault: the vault contract and its client-side secret codec

    A shallow embedding of
    - [contracts/SecretVault.sol] (the ledger-resident entry store),
    - [tasks/SecretVault.ts] ([encodeSecretToUint256],
      [decodeSecretFromUint256], the action of [task:store-secret] and
      the address of the decrypt task) and
    - [ui/src/components/SecretApp.tsx] ([getUtf8ByteLength],
      [normalizeBigInt], [decodeSecretValue], [decodeAddressValue], the
      [isSecretValid] check, the list of entries, [handleStoreSecret]),
    together with the library functions these call (ethers v6 string,
    hex and address utilities, Node's [Buffer.byteLength], the web
    [TextEncoder]).

    JavaScript strings are sequences of UTF-16 code units, bytes are
    integers below 256, a [bigint] is an integer; all are carried by [Z].
    The bit operations of the sources act on values below [2^31], where
    JavaScript's 32-bit operators agree with [Z.land], [Z.lor],
    [Z.shiftl] and [Z.shiftr]. *)

From Stdlib Require Import ZArith Lia.
From stdpp Require Import base numbers option list gmap.

Local Open Scope Z_scope.

(** ** JavaScript values *)

Module JS.

(** A string: its UTF-16 code units. *)
Definition string := list Z.

Definition isCodeUnit (u : Z) : Prop := 0 ≤ u < 65536.
Definition isString (s : string) : Prop := Forall isCodeUnit s.

Definition isByte (b : Z) : Prop := 0 ≤ b < 256.
Definition isBytes (bs : list Z) : Prop := Forall isByte bs.

(** What a [throw] carries: the validation errors of the client, and
    the error classes of the libraries. *)
Inductive error :=
| SecretEmpty          (* "Secret must not be empty" *)
| SecretTooLong        (* "Secret must be 31 bytes or less" *)
| InvalidArgument      (* ethers: assertArgument failed *)
| NumericFault         (* ethers: negative value, value exceeds width *)
| Bytes32Error         (* ethers: bytes32 string too long, or not one *)
| SyntaxError.         (* BigInt of a string that is no literal *)

(** A computation that returns or throws. *)
Inductive completion (A : Type) :=
| Return (a : A)
| Throw (e : error).
Arguments Return {A} a.
Arguments Throw {A} e.

Definition bind {A B} (m : completion A) (k : A → completion B) : completion B :=
  match m with
  | Return a => k a
  | Throw e => Throw e
  end.

(** [try { m } catch (error) { h }] *)
Definition try_catch {A} (m : completion A) (h : A) : A :=
  match m with
  | Return a => a
  | Throw _ => h
  end.

Definition isLeadSurrogate (c : Z) : bool := Z.land c 0xfc00 =? 0xd800.
Definition isTrailSurrogate (c : Z) : bool := Z.land c 0xfc00 =? 0xdc00.

(** [String.prototype.isWellFormed]: no unpaired surrogate. *)
Fixpoint isWellFormed (s : string) : bool :=
  match s with
  | [] => true
  | c :: rest =>
      if isLeadSurrogate c then
        match rest with
        | c2 :: rest' => isTrailSurrogate c2 && isWellFormed rest'
        | [] => false
        end
      else if isTrailSurrogate c then false
      else isWellFormed rest
  end.

(** Every lead surrogate is followed by a trail surrogate (a trail
    surrogate may still stand alone). *)
Fixpoint leadSurrogatesPaired (s : string) : bool :=
  match s with
  | [] => true
  | c :: rest =>
      if isLeadSurrogate c then
        match rest with
        | c2 :: rest' => isTrailSurrogate c2 && leadSurrogatesPaired rest'
        | [] => false
        end
      else leadSurrogatesPaired rest
  end.

(** The [n] bytes of a value, most significant first, and the value of
    a sequence of bytes read that way. *)
Definition bigEndian (n : nat) (value : Z) : list Z :=
  map (λ i : nat, Z.land (Z.shiftr value (8 * Z.of_nat (n - 1 - i))) 0xff) (seq 0 n).

Definition fromBigEndian (data : list Z) : Z :=
  fold_left (λ acc b, acc * 256 + b) data 0.

(** A Unicode scalar value: a code point that is no surrogate. *)
Definition isScalar (cp : Z) : Prop :=
  0 ≤ cp < 0x110000 ∧ ¬ (0xd800 ≤ cp ≤ 0xdfff).

(** The bytes of one scalar value in UTF-8 (WHATWG Encoding, UTF-8 encoder). *)
Definition utf8_of_scalar (cp : Z) : list Z :=
  if cp <? 0x80 then [cp]
  else if cp <? 0x800 then [0xc0 + cp / 64; 0x80 + cp mod 64]
  else if cp <? 0x10000 then
    [0xe0 + cp / 4096; 0x80 + (cp / 64) mod 64; 0x80 + cp mod 64]
  else
    [0xf0 + cp / 262144; 0x80 + (cp / 4096) mod 64;
     0x80 + (cp / 64) mod 64; 0x80 + cp mod 64].

(** The scalar value of a surrogate pair. *)
Definition pairScalar (c c2 : Z) : Z := 0x10000 + (c - 0xd800) * 1024 + (c2 - 0xdc00).

(** [new TextEncoder().encode(value)]: the string is first converted to
    scalar values, an unpaired surrogate becoming U+FFFD, and each
    scalar value is then written in UTF-8. *)
Fixpoint TextEncoder_encode (s : string) : list Z :=
  match s with
  | [] => []
  | c :: rest =>
      if isLeadSurrogate c then
        match rest with
        | c2 :: rest' =>
            if isTrailSurrogate c2 then
              utf8_of_scalar (pairScalar c c2) ++ TextEncoder_encode rest'
            else utf8_of_scalar 0xfffd ++ TextEncoder_encode rest
        | [] => utf8_of_scalar 0xfffd
        end
      else if isTrailSurrogate c then utf8_of_scalar 0xfffd ++ TextEncoder_encode rest
      else utf8_of_scalar c ++ TextEncoder_encode rest
  end.

(** [Buffer.byteLength(s, "utf8")]: the number of bytes the string takes
    in UTF-8; a surrogate pair counts 4, an unpaired surrogate 3 (it is
    written as U+FFFD). *)
Fixpoint Buffer_byteLength (s : string) : Z :=
  match s with
  | [] => 0
  | c :: rest =>
      if c <? 0x80 then 1 + Buffer_byteLength rest
      else if c <? 0x800 then 2 + Buffer_byteLength rest
      else if isLeadSurrogate c then
        match rest with
        | c2 :: rest' =>
            if isTrailSurrogate c2 then 4 + Buffer_byteLength rest'
            else 3 + Buffer_byteLength rest
        | [] => 3
        end
      else 3 + Buffer_byteLength rest
  end.

(** [value.toString(16)] of a non-negative [bigint]: its hexadecimal
    digits, most significant first, no leading zero ("0" for zero).
    Digits are given by their values here; [hexChar] below prints them. *)
Definition hexLength (value : Z) : nat :=
  if value =? 0 then 1%nat else Z.to_nat (Z.log2 value / 4 + 1).

Definition hexDigit (value : Z) (len i : nat) : Z :=
  Z.land (Z.shiftr value (4 * Z.of_nat (len - 1 - i))) 0xf.

Definition hexDigits (value : Z) : list Z :=
  map (hexDigit value (hexLength value)) (seq 0 (hexLength value)).

(** The character of a hexadecimal digit, lower case: "0123456789abcdef". *)
Definition hexChar (d : Z) : Z := if d <? 10 then 48 + d else 87 + d.

(** The value of a hexadecimal character, either case. *)
Definition hexValue (ch : Z) : option Z :=
  if (48 <=? ch) && (ch <=? 57) then Some (ch - 48)
  else if (97 <=? ch) && (ch <=? 102) then Some (ch - 87)
  else if (65 <=? ch) && (ch <=? 70) then Some (ch - 55)
  else None.

(** The characters "0x". *)
Definition prefix0x : string := [48; 120].

Definition stripPrefix0x (s : string) : option string :=
  match s with
  | a :: b :: digits => if (a =? 48) && (b =? 120) then Some digits else None
  | _ => None
  end.

(** [BigInt(s)] for a hexadecimal literal ["0x" digits]: the only form
    of string that reaches [BigInt] in these sources is what
    [encodeBytes32String] returns. *)
Definition BigInt (s : string) : completion Z :=
  match stripPrefix0x s with
  | Some (d :: digits) =>
      match mapM hexValue (d :: digits) with
      | Some ds => Return (fold_left (λ acc x, acc * 16 + x) ds 0)
      | None => Throw SyntaxError
      end
  | _ => Throw SyntaxError
  end.

End JS.

(** ** ethers v6: UTF-8, hex strings and bytes32 strings

    Library code the client calls ([encodeBytes32String],
    [decodeBytes32String], [toBeHex] and what they call), modelled after
    [ethers/src.ts/utils] and [ethers/src.ts/abi/bytes32.ts]. The default
    UTF-8 error handler throws, so every decoding error is a [Throw]. *)

Module Ethers.
Import JS.

Definition assertArgument (check : bool) : completion unit :=
  if check then Return tt else Throw InvalidArgument.

(** [toUtf8Bytes(str)]: a lead surrogate must be followed by a trail
    surrogate ("invalid surrogate pair"); a trail surrogate that follows
    no lead surrogate falls in the last branch and is written as three
    bytes. *)
Fixpoint toUtf8Bytes (str : string) : completion (list Z) :=
  match str with
  | [] => Return []
  | c :: rest =>
      if c <? 0x80 then
        bind (toUtf8Bytes rest) (λ result, Return (c :: result))
      else if c <? 0x800 then
        bind (toUtf8Bytes rest) (λ result, Return (
          Z.lor (Z.shiftr c 6) 0xc0 ::
          Z.lor (Z.land c 0x3f) 0x80 :: result))
      else if Z.land c 0xfc00 =? 0xd800 then
        match rest with
        | c2 :: rest' =>
            bind (assertArgument (Z.land c2 0xfc00 =? 0xdc00)) (λ _,
            let pair := 0x10000 + Z.shiftl (Z.land c 0x03ff) 10 + Z.land c2 0x03ff in
            bind (toUtf8Bytes rest') (λ result, Return (
              Z.lor (Z.shiftr pair 18) 0xf0 ::
              Z.lor (Z.land (Z.shiftr pair 12) 0x3f) 0x80 ::
              Z.lor (Z.land (Z.shiftr pair 6) 0x3f) 0x80 ::
              Z.lor (Z.land pair 0x3f) 0x80 :: result)))
        | [] => Throw InvalidArgument
        end
      else
        bind (toUtf8Bytes rest) (λ result, Return (
          Z.lor (Z.shiftr c 12) 0xe0 ::
          Z.lor (Z.land (Z.shiftr c 6) 0x3f) 0x80 ::
          Z.lor (Z.land c 0x3f) 0x80 :: result))
  end.

(** The prefix byte of a multi-byte sequence: how many bytes follow, and
    the largest code point that a shorter sequence could have written. *)
Definition utf8Prefix (c : Z) : option (nat * Z) :=
  if Z.land c 0xe0 =? 0xc0 then Some (1%nat, 0x7f)
  else if Z.land c 0xf0 =? 0xe0 then Some (2%nat, 0x7ff)
  else if Z.land c 0xf8 =? 0xf0 then Some (3%nat, 0xffff)
  else None.

(** The inner loop [for (let j = 0; j < extraLength; j++)]: each next
    byte must be a continuation byte (MISSING_CONTINUE otherwise). *)
Fixpoint readContinuation (extraLength : nat) (res : Z) (bytes : list Z)
  : completion (Z * list Z) :=
  match extraLength with
  | O => Return (res, bytes)
  | S j =>
      match bytes with
      | nextChar :: bytes' =>
          if negb (Z.land nextChar 0xc0 =? 0x80) then Throw InvalidArgument
          else readContinuation j (Z.lor (Z.shiftl res 6) (Z.land nextChar 0x3f)) bytes'
      | [] => Throw InvalidArgument
      end
  end.

(** One multi-byte sequence with prefix byte [c]: the code point and the
    bytes that remain. The errors, in the order of the source:
    UNEXPECTED_CONTINUE or BAD_PREFIX, OVERRUN, MISSING_CONTINUE,
    OUT_OF_RANGE, UTF16_SURROGATE, OVERLONG. *)
Definition readMultibyte (c : Z) (rest : list Z) : completion (Z * list Z) :=
  match utf8Prefix c with
  | None => Throw InvalidArgument
  | Some (extraLength, overlongMask) =>
      if (length rest <? extraLength)%nat then Throw InvalidArgument
      else
        bind (readContinuation extraLength
                (Z.land c (Z.shiftl 1 (8 - Z.of_nat extraLength - 1) - 1)) rest)
          (λ '(res, rest'),
            if res >? 0x10ffff then Throw InvalidArgument
            else if (res >=? 0xd800) && (res <=? 0xdfff) then Throw InvalidArgument
            else if res <=? overlongMask then Throw InvalidArgument
            else Return (res, rest'))
  end.

(** [getUtf8CodePoints(bytes)]: the loop [while (i < bytes.length)]. Each
    round consumes at least one byte, so [length bytes] rounds are enough:
    by [getUtf8CodePoints_loop_fuel] more rounds never change the result,
    so a [Throw] of [getUtf8CodePoints] is always a decoding error. *)
Fixpoint getUtf8CodePoints_loop (fuel : nat) (bytes : list Z) : completion (list Z) :=
  match bytes with
  | [] => Return []
  | c :: rest =>
      match fuel with
      | O => Throw InvalidArgument
      | S fuel' =>
          if Z.shiftr c 7 =? 0 then
            bind (getUtf8CodePoints_loop fuel' rest) (λ result, Return (c :: result))
          else
            bind (readMultibyte c rest) (λ '(res, rest'),
            bind (getUtf8CodePoints_loop fuel' rest') (λ result,
            Return (res :: result)))
      end
  end.

Definition getUtf8CodePoints (bytes : list Z) : completion (list Z) :=
  getUtf8CodePoints_loop (length bytes) bytes.

(** [_toUtf8String(codePoints)]: a code point above 0xffff becomes a
    surrogate pair. *)
Definition fromCodePoint (codePoint : Z) : string :=
  if codePoint <=? 0xffff then [codePoint]
  else
    let codePoint := codePoint - 0x10000 in
    [Z.land (Z.shiftr codePoint 10) 0x3ff + 0xd800;
     Z.land codePoint 0x3ff + 0xdc00].

Definition toUtf8String (bytes : list Z) : completion string :=
  bind (getUtf8CodePoints bytes) (λ codePoints,
  Return (concat (map fromCodePoint codePoints))).

(** [hexlify(data)]: "0x" and two lower-case digits per byte. *)
Definition hexPairs (data : list Z) : string :=
  concat (map (λ v, [hexChar (Z.shiftr (Z.land v 0xf0) 4); hexChar (Z.land v 0x0f)]) data).

Definition hexlify (data : list Z) : string := prefix0x ++ hexPairs data.

(** [getBytes(value)] of a string: it must match
    [/^0x(?:[0-9a-f][0-9a-f])*$/i]; each pair of digits is one byte. *)
Fixpoint parseHexPairs (digits : string) : option (list Z) :=
  match digits with
  | [] => Some []
  | hi :: lo :: rest =>
      match hexValue hi, hexValue lo, parseHexPairs rest with
      | Some h, Some l, Some bytes => Some (h * 16 + l :: bytes)
      | _, _, _ => None
      end
  | [_] => None
  end.

Definition getBytes (value : string) : completion (list Z) :=
  match stripPrefix0x value with
  | Some digits =>
      match parseHexPairs digits with
      | Some bytes => Return bytes
      | None => Throw InvalidArgument
      end
  | None => Throw InvalidArgument
  end.

(** [zeroPadBytes(data, length)]: zeros are added on the right. *)
Definition zeroPadBytes (data : list Z) (len : nat) : completion string :=
  if (len <? length data)%nat then Throw InvalidArgument
  else Return (hexlify (data ++ replicate (len - length data) 0)).

(** [encodeBytes32String(text)] *)
Definition encodeBytes32String (text : string) : completion string :=
  bind (toUtf8Bytes text) (λ bytes,
  if (31 <? length bytes)%nat then Throw Bytes32Error
  else zeroPadBytes bytes 32).

(** The loop [let length = 31; while (data[length - 1] === 0) { length--; }]:
    it stops at [length = 0], where [data[-1]] is [undefined]. *)
Fixpoint nullTermination (data : list Z) (len : nat) : nat :=
  match len with
  | O => O
  | S l =>
      match data !! l with
      | Some b => if b =? 0 then nullTermination data l else len
      | None => len
      end
  end.

(** What a bytes32 string is, stated apart from the decoder that
    [decodeBytes32String] is compared with: 32 bytes, the UTF-8 bytes of a
    well-formed text that does not end in U+0000, then null bytes, at
    least one. *)
Definition isBytes32String (data : list Z) (text : string) : Prop :=
  isString text ∧ isWellFormed text = true ∧ last text ≠ Some 0 ∧
  (length (TextEncoder_encode text) ≤ 31)%nat ∧
  data = TextEncoder_encode text ++ replicate (32 - length (TextEncoder_encode text)) 0.

(** [decodeBytes32String(_bytes)] *)
Definition decodeBytes32String (_bytes : string) : completion string :=
  bind (getBytes _bytes) (λ data,
  if negb (length data =? 32)%nat then Throw Bytes32Error
  else if negb (bool_decide (data !! 31%nat = Some 0)) then Throw Bytes32Error
  else toUtf8String (take (nullTermination data 31) data)).

(** [toBeHex(_value, _width)] with a width (32 and 20 in the client):
    [getUint] refuses a negative value, a value of more than [2 * width]
    digits is refused, a shorter one is padded with "0" on the left. *)
Definition toBeHex (_value : Z) (_width : nat) : completion string :=
  if _value <? 0 then Throw NumericFault
  else
    let result := hexDigits _value in
    if negb (length result <=? _width * 2)%nat then Throw NumericFault
    else
      Return (prefix0x ++
              map hexChar (replicate (_width * 2 - length result) 0 ++ result)).

End Ethers.

(** ** The client: [tasks/SecretVault.ts] and [SecretApp.tsx] *)

Module Client.
Import JS Ethers.

Definition MAX_SECRET_BYTES : Z := 31.

(** [tasks/SecretVault.ts], [encodeSecretToUint256(secret)] *)
Definition encodeSecretToUint256 (secret : string) : completion Z :=
  let length := Buffer_byteLength secret in
  if length =? 0 then Throw SecretEmpty
  else if length >? MAX_SECRET_BYTES then Throw SecretTooLong
  else
    bind (encodeBytes32String secret) (λ encoded,
    BigInt encoded).

(** [tasks/SecretVault.ts], [decodeSecretFromUint256(value)] *)
Definition decodeSecretFromUint256 (value : Z) : completion string :=
  bind (toBeHex value 32) (λ hexValue,
  decodeBytes32String hexValue).

(** [SecretApp.tsx], [getUtf8ByteLength(value)] *)
Definition getUtf8ByteLength (value : string) : Z :=
  Z.of_nat (length (TextEncoder_encode value)).

(** [SecretApp.tsx]: [secretBytes] and [isSecretValid] of the component,
    as functions of the text in the input field. *)
Definition isSecretValid (secretInput : string) : bool :=
  let secretBytes := getUtf8ByteLength secretInput in
  (secretBytes >? 0) && (secretBytes <=? MAX_SECRET_BYTES).

(** [SecretApp.tsx], [normalizeBigInt(value)], for a [bigint] argument
    (what the decryption of a 256-bit or address ciphertext yields): the
    first branch returns the value as it is. *)
Definition normalizeBigInt (value : Z) : Z := value.

(** [SecretApp.tsx], [decodeSecretValue(value)]: [toBeHex] is called
    outside the [try], [decodeBytes32String] inside it. *)
Definition decodeSecretValue (value : Z) : completion string :=
  bind (toBeHex (normalizeBigInt value) 32) (λ secretHex,
  Return (try_catch (decodeBytes32String secretHex) secretHex)).

(** The 20 bytes that [toBeHex(value, 20)] denotes, as [decodeAddressValue]
    and the decrypt task hand them to [getAddress] (which only sets the
    case of the digits, by the checksum of EIP-55). *)
Definition addressBytes (value : Z) : completion (list Z) :=
  bind (toBeHex (normalizeBigInt value) 20) (λ addressHex,
  getBytes addressHex).

(** The part of [handleStoreSecret] that precedes the network: the guard
    on [isSecretValid], then [BigInt(encodeBytes32String(secretInput))]
    inside the [try]. [None] is a form error, with no request sent. *)
Definition secretValueToSend (secretInput : string) : option Z :=
  if negb (isSecretValid secretInput) then None
  else
    match bind (encodeBytes32String secretInput) BigInt with
    | Return secretValue => Some secretValue
    | Throw _ => None
    end.

End Client.

(** Strings of the examples. *)
Module Samples.
(** "vault secret", the secret of the test suite *)
Definition vault_secret : JS.string :=
  [118; 97; 117; 108; 116; 32; 115; 101; 99; 114; 101; 116].
(** "a" followed by U+0000 *)
Definition a_nul : JS.string := [97; 0].
(** a trail surrogate alone, U+DE00 *)
Definition lone_trail : JS.string := [0xde00].
(** U+1F600 (a surrogate pair), U+00E9, U+20AC, "z" *)
Definition mixed : JS.string := [0xd83d; 0xde00; 0xe9; 0x20ac; 122].
Definition a32 : JS.string := replicate 32 97.
(** an address value *)
Definition keyAddress : Z := 0xd8da6bf26964af9d7eed9e03e53415d37aa96045.
(** the 256-bit value of "vault secret": its 12 bytes, then 20 null bytes *)
Definition vault_secret_value : Z := JS.fromBigEndian (vault_secret ++ replicate 20 0).
End Samples.

(** ** The contract: [contracts/SecretVault.sol]

    Addresses, ciphertext handles ([eaddress], [euint256] and their
    external forms are all [bytes32]) and [uint256] values are naturals.
    An array has fewer than [2^256] elements, so its length is its
    [uint256] length. A call runs in the state-and-revert monad [M]; a
    revert discards what the call wrote ([transact]). *)

Module Vault.

Definition address := N.
Definition handle := N.
Definition bytes := list N.

(** [struct SecretEntry] *)
Record SecretEntry := {
  encryptedKey : handle;
  encryptedSecret : handle;
  createdAt : N
}.

(** [event SecretStored(address indexed owner, uint256 indexed index, uint256 timestamp)] *)
Inductive event :=
| SecretStored (owner : address) (index : N) (timestamp : N).

(** The storage of the contract ([entries]), the persistent grants of
    the access-control list the FHE library writes to, and the events
    emitted so far. *)
Record state := {
  entries : gmap address (list SecretEntry);
  acl : gset (handle * address);
  events : list event
}.

Definition initial : state := {| entries := ∅; acl := ∅; events := [] |}.

(** [msg.sender] and [block.timestamp] of a call. *)
Record env := {
  msg_sender : address;
  block_timestamp : N
}.

Inductive error :=
| InvalidProof          (* the input verifier refused the proof *)
| Panic (code : N).     (* 0x11: arithmetic, 0x32: array index *)

Definition M (A : Type) : Type := state → error + A * state.

#[export] Instance M_ret : MRet M := λ A a st, inr (a, st).
#[export] Instance M_bind : MBind M := λ A B k m st,
  match m st with
  | inl e => inl e
  | inr (a, st') => k a st'
  end.

Definition revert {A} (e : error) : M A := λ _, inl e.
Definition read {A} (f : state → A) : M A := λ st, inr (f st, st).
Definition write (f : state → state) : M unit := λ st, inr (tt, f st).

(** The two ciphertext types the contract takes. *)
Inductive fheType := Uint160 | Uint256.

(** [entries[owner]]: a mapping reads as the empty array where nothing
    was written. *)
Definition entriesOf (st : state) (owner : address) : list SecretEntry :=
  entries st !!! owner.

(** [entries[owner].push(entry)] *)
Definition push (owner : address) (entry : SecretEntry) : M unit :=
  write (λ st, {| entries := <[owner := entriesOf st owner ++ [entry]]> (entries st);
                  acl := acl st; events := events st |}).

(** Checked subtraction of [uint256] (Solidity 0.8): underflow is [Panic(0x11)]. *)
Definition checked_sub (a b : N) : M N :=
  if (a <? b)%N then revert (Panic 0x11) else mret (a - b)%N.

(** [FHE.allow(handle, account)]: the pair is added to the grants. *)
Definition allow (h : handle) (account : address) : M unit :=
  write (λ st, {| entries := entries st; acl := {[ (h, account) ]} ∪ acl st;
                  events := events st |}).

Definition emit (ev : event) : M unit :=
  write (λ st, {| entries := entries st; acl := acl st; events := events st ++ [ev] |}).

Section Contract.
(** The address of the deployed contract, [address(this)]. *)
Variable this : address.

(** [FHE.fromExternal(inputHandle, inputProof)] at a ciphertext type:
    the input verifier of the confidential-computing service, which
    checks the proof for this contract and the sender (it may consult
    the grants) and returns the internal handle, or reverts ([None]).
    It is outside the repository; the contract is verified for every
    such verifier. *)
Variable fromExternal :
  address → env → gset (handle * address) → fheType → handle → bytes →
  option handle.

Definition FHE_fromExternal (e : env) (ty : fheType) (inputHandle : handle)
    (inputProof : bytes) : M handle :=
  grants ← read acl;
  match fromExternal this e grants ty inputHandle inputProof with
  | Some h => mret h
  | None => revert InvalidProof
  end.

(** [FHE.allowThis(handle)] *)
Definition allowThis (h : handle) : M unit := allow h this.

(** [function storeSecret(externalEaddress, externalEuint256, bytes calldata) external] *)
Definition storeSecret (e : env) (encryptedKey encryptedSecret : handle)
    (inputProof : bytes) : M unit :=
  key ← FHE_fromExternal e Uint160 encryptedKey inputProof;
  secret ← FHE_fromExternal e Uint256 encryptedSecret inputProof;
  push (msg_sender e)
    {| encryptedKey := key; encryptedSecret := secret;
       createdAt := block_timestamp e |};;
  len ← read (λ st, N.of_nat (length (entriesOf st (msg_sender e))));
  index ← checked_sub len 1;
  allowThis key;;
  allowThis secret;;
  allow key (msg_sender e);;
  allow secret (msg_sender e);;
  emit (SecretStored (msg_sender e) index (block_timestamp e)).

(** [function getSecretCount(address owner) external view returns (uint256)] *)
Definition getSecretCount (e : env) (owner : address) : M N :=
  read (λ st, N.of_nat (length (entriesOf st owner))).

(** [function getSecretEntry(address owner, uint256 index) external view]:
    an index past the end of the array is [Panic(0x32)]. *)
Definition getSecretEntry (e : env) (owner : address) (index : N)
  : M (handle * handle * N) :=
  st ← read id;
  match entriesOf st owner !! N.to_nat index with
  | Some entry => mret (encryptedKey entry, encryptedSecret entry, createdAt entry)
  | None => revert (Panic 0x32)
  end.

(** An external call: what it returns or the error it reverts with,
    and the state it leaves. A revert leaves the state of before. *)
Definition transact {A} (m : M A) (st : state) : (error + A) * state :=
  match m st with
  | inr (a, st') => (inr a, st')
  | inl err => (inl err, st)
  end.

(** The external functions of the contract. *)
Inductive call :=
| StoreSecret (encryptedKey encryptedSecret : handle) (inputProof : bytes)
| GetSecretCount (owner : address)
| GetSecretEntry (owner : address) (index : N).

Inductive response :=
| Stored
| Count (n : N)
| Entry (key secret : handle) (timestamp : N)
| Reverted (err : error).

Definition execute (e : env) (c : call) (st : state) : response * state :=
  match c with
  | StoreSecret k s proof =>
      match transact (storeSecret e k s proof) st with
      | (inr _, st') => (Stored, st')
      | (inl err, st') => (Reverted err, st')
      end
  | GetSecretCount owner =>
      match transact (getSecretCount e owner) st with
      | (inr n, st') => (Count n, st')
      | (inl err, st') => (Reverted err, st')
      end
  | GetSecretEntry owner index =>
      match transact (getSecretEntry e owner index) st with
      | (inr (k, s, t), st') => (Entry k s t, st')
      | (inl err, st') => (Reverted err, st')
      end
  end.

(** A history of calls, from the oldest. *)
Fixpoint run (txs : list (env * call)) (st : state) : state :=
  match txs with
  | [] => st
  | (e, c) :: txs' => run txs' (execute e c st).2
  end.

(** How many [storeSecret] calls of [owner] succeeded in a history. *)
Fixpoint successfulStores (owner : address) (txs : list (env * call)) (st : state)
  : nat :=
  match txs with
  | [] => 0%nat
  | (e, c) :: txs' =>
      let '(r, st') := execute e c st in
      match c, r with
      | StoreSecret _ _ _, Stored =>
          if decide (msg_sender e = owner) then S (successfulStores owner txs' st')
          else successfulStores owner txs' st'
      | _, _ => successfulStores owner txs' st'
      end
  end.

(** The state a successful [storeSecret] leaves, for the handles
    [key] and [secret] the verifier returned ([storeSecret_run]). *)
Definition stored (e : env) (key secret : handle) (st : state) : state :=
  {| entries := <[msg_sender e :=
        entriesOf st (msg_sender e) ++
          [{| encryptedKey := key; encryptedSecret := secret;
              createdAt := block_timestamp e |}]]> (entries st);
     acl := {[ (secret, msg_sender e) ]} ∪ ({[ (key, msg_sender e) ]} ∪
            ({[ (secret, this) ]} ∪ ({[ (key, this) ]} ∪ acl st)));
     events := events st ++
        [SecretStored (msg_sender e) (N.of_nat (length (entriesOf st (msg_sender e))))
           (block_timestamp e)] |}.

(** The grants of a state are justified when the holder of each is
    the vault, or an owner with an entry that holds the handle. *)
Definition grantsJustified (st : state) : Prop :=
  ∀ h p, (h, p) ∈ acl st →
    p = this ∨
    ∃ (i : nat) entry, entriesOf st p !! i = Some entry ∧
      (h = encryptedKey entry ∨ h = encryptedSecret entry).

End Contract.

End Vault.

(** A deployment for the examples: the address of the vault, two callers,
    and a verifier that accepts every input that comes with a proof. *)
Module VaultSamples.
Import Vault.
Definition vault : address := 0x7a017%N.
Definition alice : env := {| msg_sender := 0xa11ce%N; block_timestamp := 1700000000%N |}.
Definition bob : env := {| msg_sender := 0xb0b%N; block_timestamp := 1700000600%N |}.
Definition verifier (this : address) (e : env) (grants : gset (handle * address))
    (ty : fheType) (h : handle) (inputProof : bytes) : option handle :=
  match inputProof with
  | [] => None
  | _ :: _ => Some (match ty with Uint160 => h + 1000 | Uint256 => h + 2000 end)%N
  end.
(** The state after one store of [alice]. *)
Definition afterAlice : state :=
  (execute vault verifier alice (StoreSecret 1%N 2%N [7%N]) initial).2.
End VaultSamples.

(** ** Histories of the contract: what every reachable state satisfies *)

Module VaultHistory.
Import Vault.

(** No grant is missing: the two handles of every stored entry are
    granted to the vault and to the owner of the entry. *)
Definition grantsComplete (this : address) (st : state) : Prop :=
  ∀ owner (i : nat) entry,
    entriesOf st owner !! i = Some entry →
    (encryptedKey entry, this) ∈ acl st ∧ (encryptedSecret entry, this) ∈ acl st ∧
    (encryptedKey entry, owner) ∈ acl st ∧ (encryptedSecret entry, owner) ∈ acl st.

(** The events are the entries: [SecretStored(owner, index, timestamp)]
    was emitted exactly when [entries[owner][index]] exists and was
    created at [timestamp]. *)
Definition eventsMatch (st : state) : Prop :=
  ∀ owner index timestamp,
    SecretStored owner index timestamp ∈ events st ↔
    ∃ entry, entriesOf st owner !! N.to_nat index = Some entry ∧
             createdAt entry = timestamp.

(** The block timestamps of a history never go back, from [T] on. *)
Fixpoint timestampsFrom (T : N) (txs : list (env * call)) : bool :=
  match txs with
  | [] => true
  | (e, _) :: txs' => (T <=? block_timestamp e)%N && timestampsFrom (block_timestamp e) txs'
  end.

(** The events of an owner in the order of the log: the index and the
    timestamp of each. *)
Definition eventsOf (st : state) (owner : address) : list (N * N) :=
  omap (λ ev, match ev with
              | SecretStored o index timestamp =>
                  if decide (o = owner) then Some (index, timestamp) else None
              end) (events st).

(** The entries of every owner are in the order of their timestamps, none
    of them later than [T]. *)
Definition timestampsOrdered (T : N) (st : state) : Prop :=
  ∀ owner (i j : nat) first second,
    entriesOf st owner !! i = Some first →
    entriesOf st owner !! j = Some second →
    (createdAt second ≤ T)%N ∧ ((i ≤ j)%nat → (createdAt first ≤ createdAt second)%N).
End VaultHistory.

(** ** The UI's listing of the entries: [SecretApp.tsx], [entryCalls] and
    [entries]

    A JavaScript [number] is kept abstract: [Number] is the conversion of a
    [bigint]. The count the component holds, [secretCount], is a
    non-negative integer (it is used as an array length). *)

Module Listing.
Section Listing.
Variable this : Vault.address.
Variable fromExternal :
  Vault.address → Vault.env → gset (Vault.handle * Vault.address) → Vault.fheType →
  Vault.handle → Vault.bytes → option Vault.handle.
Variable number : Type.
Variable Number : N → number.

(** [entryCalls]: one [getSecretEntry(address, BigInt(index))] per index
    below [secretCount]; none without an account, without a configured
    contract, or for a count of 0. *)
Definition entryCalls (address : option Vault.address) (isContractConfigured : bool)
    (secretCount : nat) : list Vault.call :=
  match address with
  | None => []
  | Some address =>
      if negb isContractConfigured || (secretCount =? 0)%nat then []
      else map (λ index, Vault.GetSecretEntry address (N.of_nat index)) (seq 0 secretCount)
  end.

(** [useReadContracts({ contracts, query: { enabled: contracts.length > 0 } })]:
    no data while the query is disabled; otherwise one element per call,
    with the result of the call, or without one when the call failed.
    The calls are read from one state of the contract. *)
Definition readContracts (e : Vault.env) (st : Vault.state) (contracts : list Vault.call)
  : option (list (option (Vault.handle * Vault.handle * N))) :=
  if (0 <? length contracts)%nat then
    Some (map (λ c,
      match Vault.execute this fromExternal e c st with
      | (Vault.Entry key secret timestamp, _) => Some (key, secret, timestamp)
      | _ => None
      end) contracts)
  else None.

(** An element of [entries]. *)
Record entryView := {
  index : nat;
  encryptedKey : Vault.handle;
  encryptedSecret : Vault.handle;
  createdAt : number
}.

(** [entries]: [entriesData.map((entry, index) => ...).filter(Boolean)];
    an element without a result is dropped, the others keep the index of
    their call. *)
Definition entries (entriesData : option (list (option (Vault.handle * Vault.handle * N))))
  : list entryView :=
  match entriesData with
  | None => []
  | Some data =>
      omap id (imap (λ index entry,
        match entry with
        | None => None
        | Some (key, secret, timestamp) =>
            Some {| index := index; encryptedKey := key; encryptedSecret := secret;
                    createdAt := Number timestamp |}
        end) data)
  end.

(** The listing of an account: the calls for the count the component
    holds, read from a state of the contract. *)
Definition listing (e : Vault.env) (st : Vault.state) (address : option Vault.address)
    (isContractConfigured : bool) (secretCount : nat) : list entryView :=
  entries (readContracts e st (entryCalls address isContractConfigured secretCount)).

End Listing.
End Listing.

(** A history for the examples: a store of [alice], a store of [bob], a
    call of [bob] without a proof (it reverts), and a later store of
    [bob]. *)
Module HistorySamples.
Import Vault VaultSamples.
Definition bobLater : env :=
  {| msg_sender := 0xb0b%N; block_timestamp := 1700001200%N |}.
Definition history : list (env * call) :=
  [(alice, StoreSecret 1%N 2%N [7%N]);
   (bob, StoreSecret 3%N 4%N [9%N]);
   (bob, StoreSecret 5%N 6%N []);
   (bobLater, StoreSecret 5%N 6%N [9%N])].
(** the first entry of [bob], and the second *)
Definition bobFirst : SecretEntry :=
  {| encryptedKey := 1003%N; encryptedSecret := 2004%N; createdAt := 1700000600%N |}.
Definition bobSecond : SecretEntry :=
  {| encryptedKey := 1005%N; encryptedSecret := 2006%N; createdAt := 1700001200%N |}.
End HistorySamples.

(** ** Addresses: ethers' [getAddress], and the key on the two paths *)

Module Address.
Import JS Ethers.

(** The classes [[0-9a-fA-F]], [[A-F]] and [[a-f]] of the regular
    expressions of [getAddress]. *)
Definition isHexDigit (c : Z) : bool :=
  ((48 <=? c) && (c <=? 57)) || ((97 <=? c) && (c <=? 102)) || ((65 <=? c) && (c <=? 70)).
Definition isUpperHex (c : Z) : bool := (65 <=? c) && (c <=? 70).
Definition isLowerHex (c : Z) : bool := (97 <=? c) && (c <=? 102).

(** [toLowerCase] and [toUpperCase] of one character, on ASCII: what
    reaches them in [getAddress] is "0x" and hexadecimal digits. *)
Definition toLowerCase (c : Z) : Z := if (65 <=? c) && (c <=? 90) then c + 32 else c.
Definition toUpperCase (c : Z) : Z := if (97 <=? c) && (c <=? 122) then c - 32 else c.

(** [address.startsWith("0x")] *)
Definition startsWith0x (address : string) : bool :=
  match stripPrefix0x address with
  | Some _ => true
  | None => false
  end.

(** [address.match(/^(0x)?[0-9a-fA-F]{40}$/)]: the 40 digits when the
    string matches. *)
Definition matchAddress (address : string) : option string :=
  let digits :=
    match stripPrefix0x address with
    | Some digits => digits
    | None => address
    end in
  if (length digits =? 40)%nat && forallb isHexDigit digits then Some digits else None.

(** [address.match(/([A-F].*[a-f])|([a-f].*[A-F])/)]: a letter of each
    case. *)
Definition hasMixedCase (address : string) : bool :=
  existsb isUpperHex address && existsb isLowerHex address.

Section Keccak.
(** [keccak256] of bytes, as bytes: the hash function of the library. *)
Variable keccak256 : list Z → list Z.
(** What [getAddress] does with a string that is not 40 hexadecimal
    digits: an ICAP address is converted, anything else is refused. *)
Variable getIcapAddress : string → completion string.

(** [hashed[i >> 1] >> 4] for an even [i], [hashed[i >> 1] & 0x0f] for an
    odd one. *)
Definition checksumNibble (hashed : list Z) (i : nat) : Z :=
  let byte := default 0 (hashed !! (i / 2)%nat) in
  if Nat.even i then Z.shiftr byte 4 else Z.land byte 0x0f.

(** [getChecksumAddress(address)], called with "0x" and 40 hexadecimal
    digits: the digits in lower case are hashed as ASCII, and a letter is
    written in upper case where the hash has a digit of 8 or more. *)
Definition getChecksumAddress (address : string) : string :=
  let chars := drop 2 (map toLowerCase address) in
  let expanded := map (λ c, c mod 256) (take 40 chars) in
  let hashed := keccak256 expanded in
  prefix0x ++
    imap (λ i c, if (i <? 40)%nat && (checksumNibble hashed i >=? 8)
                 then toUpperCase c else c) chars.

(** [getAddress(address)] *)
Definition getAddress (address : string) : completion string :=
  match matchAddress address with
  | Some _ =>
      let address := if startsWith0x address then address else prefix0x ++ address in
      let result := getChecksumAddress address in
      bind (assertArgument
              (negb (hasMixedCase address) || bool_decide (result = address))) (λ _,
      Return result)
  | None => getIcapAddress address
  end.

(** [addAddress(value)] of the encrypted input: the plaintext of an
    address is its number, [BigInt(value)], for what [isAddress]
    accepts. *)
Definition addAddress (value : string) : completion Z :=
  match getAddress value with
  | Return _ => BigInt value
  | Throw _ => Throw InvalidArgument
  end.

(** What a decryption hands back for a key: a [bigint], or a string (a
    hexadecimal literal, as [BigInt] above reads it). *)
Inductive clearValue :=
| ClearBigInt (value : Z)
| ClearString (value : string).

(** [SecretApp.tsx], [normalizeBigInt(value)]: a [bigint] is returned as
    it is, a string goes to [BigInt] in either branch. *)
Definition normalizeBigInt (value : clearValue) : completion Z :=
  match value with
  | ClearBigInt value => Return value
  | ClearString value => if startsWith0x value then BigInt value else BigInt value
  end.

(** [SecretApp.tsx], [decodeAddressValue(value)] *)
Definition decodeAddressValue (value : clearValue) : completion string :=
  bind (normalizeBigInt value) (λ n,
  bind (toBeHex n 20) (λ addressHex,
  getAddress addressHex)).

(** [tasks/SecretVault.ts], decrypt task:
    [getAddress(toBeHex(BigInt(clearKey), 20))] *)
Definition decryptedAddress (clearKey : clearValue) : completion string :=
  bind (match clearKey with
        | ClearBigInt value => Return value
        | ClearString value => BigInt value
        end) (λ n,
  bind (toBeHex n 20) (λ addressHex,
  getAddress addressHex)).

End Keccak.
End Address.

(** ** The store action of the task and of the front end, step by step *)

Module Script.
Import JS Ethers Client.

















Definition ZERO_ADDRESS : string := prefix0x ++ replicate 40 48.

Section Actions.
Variable keccak256 : list Z → list Z.
Variable getIcapAddress : string → completion string.
(** [CONTRACT_ADDRESS] of the configuration of the front end. *)
Variable CONTRACT_ADDRESS : string.


(** [SecretApp.tsx], [isContractConfigured] *)
Definition isContractConfigured : bool :=
  negb (bool_decide (CONTRACT_ADDRESS = ZERO_ADDRESS)).


End Actions.
End Script.

(** The surroundings of the examples: a stand-in for the hash function,
    no ICAP addresses, the key of the examples as a string, and a plugin,
    a wallet and a service that answer every call. *)
Module ClientSamples.
Import JS Ethers Script.
Definition sampleHash (bytes : list Z) : list Z := map (λ b, (b * 37 + 11) mod 256) bytes.
Definition noIcap (address : string) : completion string := Throw InvalidArgument.
Definition keyString : string := hexlify (bigEndian 20 Samples.keyAddress).
End ClientSamples.

Import JS Ethers Client Samples.

Section VaultFacts.
Import Vault.
Variable this : address.
Variable fromExternal :
  address → env → gset (handle * address) → fheType → handle → bytes →
  option handle.

Lemma entriesOf_insert owner owner' l m a ev :
  entriesOf {| entries := <[owner := l]> m; acl := a; events := ev |} owner' =
    if decide (owner = owner') then l else m !!! owner'.
Proof.
  unfold entriesOf; cbn. destruct (decide (owner = owner')) as [->|Hne].
  - apply lookup_total_insert_eq.
  - by apply lookup_total_insert_ne.
Qed.

Lemma storeSecret_run e k s proof st :
  storeSecret this fromExternal e k s proof st =
    match fromExternal this e (acl st) Uint160 k proof,
          fromExternal this e (acl st) Uint256 s proof with
    | Some key, Some secret => inr (tt, stored this e key secret st)
    | _, _ => inl InvalidProof
    end.
Proof.
  unfold storeSecret, FHE_fromExternal.
  unfold mbind, M_bind, read at 1 2; cbn [acl].
  destruct (fromExternal this e (acl st) Uint160 k proof) as [key|]; [|reflexivity].
  cbn [mret M_ret acl].
  destruct (fromExternal this e (acl st) Uint256 s proof) as [secret|]; [|reflexivity].
  unfold mret, M_ret, push, write, read, checked_sub; cbn.
  rewrite !entriesOf_insert, decide_True by done.
  rewrite length_app; cbn.
  destruct (N.ltb_spec (N.of_nat (length (entriesOf st (msg_sender e)) + 1)) 1) as [Hlt|_];
    [lia|].
  replace (N.of_nat (length (entriesOf st (msg_sender e)) + 1) - 1)%N
    with (N.of_nat (length (entriesOf st (msg_sender e)))) by lia.
  reflexivity.
Qed.

Lemma execute_store e k s proof st :
  execute this fromExternal e (StoreSecret k s proof) st =
    match fromExternal this e (acl st) Uint160 k proof,
          fromExternal this e (acl st) Uint256 s proof with
    | Some key, Some secret => (Stored, stored this e key secret st)
    | _, _ => (Reverted InvalidProof, st)
    end.
Proof.
  unfold execute, transact. rewrite storeSecret_run.
  by destruct (fromExternal this e (acl st) Uint160 k proof),
              (fromExternal this e (acl st) Uint256 s proof).
Qed.

Lemma execute_count e owner st :
  execute this fromExternal e (GetSecretCount owner) st =
    (Count (N.of_nat (length (entriesOf st owner))), st).
Proof. reflexivity. Qed.

Lemma execute_entry e owner index st :
  execute this fromExternal e (GetSecretEntry owner index) st =
    (match entriesOf st owner !! N.to_nat index with
     | Some entry => Entry (encryptedKey entry) (encryptedSecret entry) (createdAt entry)
     | None => Reverted (Panic 0x32)
     end, st).
Proof.
  unfold execute, transact, getSecretEntry, mbind, M_bind, read; cbn.
  by destruct (entriesOf st owner !! N.to_nat index).
Qed.

(** A successful [storeSecret] is one whose two inputs were verified. *)
Lemma execute_store_Stored e k s proof st :
  (execute this fromExternal e (StoreSecret k s proof) st).1 = Stored →
  ∃ key secret,
    fromExternal this e (acl st) Uint160 k proof = Some key ∧
    fromExternal this e (acl st) Uint256 s proof = Some secret ∧
    execute this fromExternal e (StoreSecret k s proof) st =
      (Stored, stored this e key secret st).
Proof.
  rewrite execute_store.
  destruct (fromExternal this e (acl st) Uint160 k proof) as [key|]; [|done].
  destruct (fromExternal this e (acl st) Uint256 s proof) as [secret|]; [|done].
  intros _. by exists key, secret.
Qed.

Lemma entriesOf_stored e key secret st owner :
  entriesOf (stored this e key secret st) owner =
    if decide (msg_sender e = owner)
    then entriesOf st owner ++
           [{| encryptedKey := key; encryptedSecret := secret;
               createdAt := block_timestamp e |}]
    else entriesOf st owner.
Proof.
  unfold stored. rewrite entriesOf_insert.
  by destruct (decide (msg_sender e = owner)) as [->|].
Qed.

(** Only [storeSecret] writes, and it writes only when it succeeds. *)
Lemma execute_state e c st :
  (execute this fromExternal e c st).2 = st ∨
  ∃ k s proof key secret,
    c = StoreSecret k s proof ∧
    fromExternal this e (acl st) Uint160 k proof = Some key ∧
    fromExternal this e (acl st) Uint256 s proof = Some secret ∧
    execute this fromExternal e c st = (Stored, stored this e key secret st).
Proof.
  destruct c as [k s proof|owner|owner index].
  - rewrite execute_store.
    destruct (fromExternal this e (acl st) Uint160 k proof) as [key|] eqn:Hk; [|by left].
    destruct (fromExternal this e (acl st) Uint256 s proof) as [secret|] eqn:Hs;
      [|by left].
    right. by exists k, s, proof, key, secret.
  - left. by rewrite execute_count.
  - left. by rewrite execute_entry.
Qed.

Lemma grantsJustified_execute e c st :
  grantsJustified this st → grantsJustified this (execute this fromExternal e c st).2.
Proof.
  intros Hinv. destruct (execute_state e c st) as [->|Hst]; [done|].
  destruct Hst as (k & s & proof & key & secret & -> & _ & _ & ->); cbn.
  intros h p Hin. unfold stored in Hin; cbn in Hin.
  rewrite entriesOf_stored.
  assert ((h, p) ∈ acl st ∨ (p = this ∨ p = msg_sender e ∧ (h = key ∨ h = secret)))
    as [Hold|[->|[-> Hh]]].
  { rewrite !elem_of_union, !elem_of_singleton in Hin.
    destruct Hin as [Hin|[Hin|[Hin|[Hin|Hin]]]];
      [injection Hin as -> ->; tauto..|by left]. }
  - destruct (Hinv h p Hold) as [->|(i & entry & Hi & Hh)]; [by left|right].
    exists i, entry. split; [|done].
    destruct (decide (msg_sender e = p)); [|done].
    by apply lookup_app_l_Some.
  - by left.
  - right. rewrite decide_True by done.
    eexists (length (entriesOf st (msg_sender e))), _.
    split; [apply list_lookup_middle; done|]. done.
Qed.

Lemma grantsJustified_run txs st :
  grantsJustified this st → grantsJustified this (run this fromExternal txs st).
Proof.
  revert st. induction txs as [|[e c] txs IH]; intros st Hinv; cbn; [done|].
  by apply IH, grantsJustified_execute.
Qed.

Lemma count_run txs owner st :
  length (entriesOf (run this fromExternal txs st) owner) =
    (length (entriesOf st owner) + successfulStores this fromExternal owner txs st)%nat.
Proof.
  revert st. induction txs as [|[e c] txs IH]; intros st; cbn; [lia|].
  destruct (execute_state e c st) as [Hsame|Hst].
  - destruct (execute this fromExternal e c st) as [r st'] eqn:Hexec.
    cbn in Hsame; subst st'; cbn. rewrite IH.
    destruct c as [k s proof| |]; [|done..].
    destruct r; try done.
    (* a store that succeeded wrote *)
    rewrite execute_store in Hexec.
    destruct (fromExternal this e (acl st) Uint160 k proof) as [key|]; [|done].
    destruct (fromExternal this e (acl st) Uint256 s proof) as [secret|]; [|done].
    injection Hexec as Hst. exfalso.
    assert (length (events (stored this e key secret st)) = length (events st)) as Hlen
      by (by rewrite Hst).
    unfold stored in Hlen; cbn in Hlen. rewrite length_app in Hlen; cbn in Hlen. lia.
  - destruct Hst as (k & s & proof & key & secret & -> & _ & _ & ->); cbn.
    rewrite IH, entriesOf_stored.
    destruct (decide (msg_sender e = owner)); [rewrite length_app; cbn|]; lia.
Qed.

(** C2. Atomic ingestion: if the verification of either input fails,
    [storeSecret] reverts with [InvalidProof] and leaves the state as it
    was (so every count, every entry, the grants and the events are
    those of before); and whatever the inputs, a call either leaves the
    state as it was, or appends one entry holding both handles and
    leaves all four grants in place. *)
Theorem storeSecret_all_or_nothing e k s proof st :
  (fromExternal this e (acl st) Uint160 k proof = None ∨
   fromExternal this e (acl st) Uint256 s proof = None →
   execute this fromExternal e (StoreSecret k s proof) st =
     (Reverted InvalidProof, st)) ∧
  (execute this fromExternal e (StoreSecret k s proof) st =
     (Reverted InvalidProof, st) ∨
   ∃ key secret st',
     execute this fromExternal e (StoreSecret k s proof) st = (Stored, st') ∧
     fromExternal this e (acl st) Uint160 k proof = Some key ∧
     fromExternal this e (acl st) Uint256 s proof = Some secret ∧
     entriesOf st' (msg_sender e) =
       entriesOf st (msg_sender e) ++
         [{| encryptedKey := key; encryptedSecret := secret;
             createdAt := block_timestamp e |}] ∧
     (key, this) ∈ acl st' ∧ (secret, this) ∈ acl st' ∧
     (key, msg_sender e) ∈ acl st' ∧ (secret, msg_sender e) ∈ acl st').
Proof.
  rewrite execute_store. split.
  - intros [-> | ->]; [done|].
    by destruct (fromExternal this e (acl st) Uint160 k proof).
  - destruct (fromExternal this e (acl st) Uint160 k proof) as [key|]; [|by left].
    destruct (fromExternal this e (acl st) Uint256 s proof) as [secret|]; [|by left].
    right. exists key, secret, (stored this e key secret st).
    rewrite entriesOf_stored, decide_True by done.
    unfold stored; cbn.
    rewrite !elem_of_union, !elem_of_singleton. tauto.
Qed.

(** C3. A successful [storeSecret] adds to the grants exactly the four
    pairs of its two materialized handles with the vault and with
    [msg.sender]; a grant that a call of any function adds is one of
    these four; and in every state reached from the initial one, the
    holder of a grant is the vault or an owner whose entry holds the
    handle. *)
Theorem grants_only_vault_and_owner :
  (∀ e k s proof st,
     (execute this fromExternal e (StoreSecret k s proof) st).1 = Stored →
     ∃ key secret,
       fromExternal this e (acl st) Uint160 k proof = Some key ∧
       fromExternal this e (acl st) Uint256 s proof = Some secret ∧
       acl (execute this fromExternal e (StoreSecret k s proof) st).2 =
         {[ (key, this); (secret, this); (key, msg_sender e); (secret, msg_sender e) ]}
           ∪ acl st) ∧
  (∀ e c st h p,
     (h, p) ∈ acl (execute this fromExternal e c st).2 → (h, p) ∉ acl st →
     (p = this ∨ p = msg_sender e) ∧
     ∃ k s proof, c = StoreSecret k s proof ∧
       (fromExternal this e (acl st) Uint160 k proof = Some h ∨
        fromExternal this e (acl st) Uint256 s proof = Some h)) ∧
  (∀ txs, grantsJustified this (run this fromExternal txs initial)).
Proof.
  split; [|split].
  - intros e k s proof st Hok.
    destruct (execute_store_Stored e k s proof st Hok) as (key & secret & Hk & Hs & ->).
    exists key, secret. repeat split; [done..|].
    unfold stored; cbn. apply set_eq. intros [h p].
    rewrite !elem_of_union, !elem_of_singleton. tauto.
  - intros e c st h p Hin Hnew.
    destruct (execute_state e c st) as [Hsame|Hst]; [by rewrite Hsame in Hin|].
    destruct Hst as (k & s & proof & key & secret & -> & Hk & Hs & Hexec).
    rewrite Hexec in Hin. unfold stored in Hin; cbn in Hin.
    rewrite !elem_of_union, !elem_of_singleton in Hin.
    destruct Hin as [Hin|[Hin|[Hin|[Hin|Hin]]]]; [injection Hin as -> ->..|done].
    all: split; [tauto|]; exists k, s, proof; tauto.
  - intros txs. apply grantsJustified_run. intros h p Hin.
    unfold initial in Hin; cbn in Hin. by apply not_elem_of_empty in Hin.
Qed.

(** C4. A successful [storeSecret] raises the count of its sender by
    exactly 1; [getSecretCount] always returns, and changes nothing; and
    after any history from the initial state the count of an owner is
    the number of that owner's successful [storeSecret] calls, hence 0
    when there was none. *)
Theorem getSecretCount_counts_stores :
  (∀ e k s proof st e1,
     (execute this fromExternal e (StoreSecret k s proof) st).1 = Stored →
     ∃ n,
       execute this fromExternal e1 (GetSecretCount (msg_sender e)) st = (Count n, st) ∧
       (execute this fromExternal e1 (GetSecretCount (msg_sender e))
          (execute this fromExternal e (StoreSecret k s proof) st).2).1 =
         Count (n + 1)%N) ∧
  (∀ e owner st,
     ∃ n, execute this fromExternal e (GetSecretCount owner) st = (Count n, st)) ∧
  (∀ txs e owner,
     (execute this fromExternal e (GetSecretCount owner)
        (run this fromExternal txs initial)).1 =
       Count (N.of_nat (successfulStores this fromExternal owner txs initial))) ∧
  (∀ txs e owner,
     successfulStores this fromExternal owner txs initial = 0%nat →
     (execute this fromExternal e (GetSecretCount owner)
        (run this fromExternal txs initial)).1 = Count 0).
Proof.
  assert (∀ txs e owner,
     (execute this fromExternal e (GetSecretCount owner)
        (run this fromExternal txs initial)).1 =
       Count (N.of_nat (successfulStores this fromExternal owner txs initial))) as Hhist.
  { intros txs e owner. rewrite execute_count; cbn. by rewrite count_run. }
  repeat split.
  - intros e k s proof st e1 Hok.
    destruct (execute_store_Stored e k s proof st Hok) as (key & secret & _ & _ & ->).
    eexists. split; [apply execute_count|].
    rewrite execute_count; cbn. rewrite entriesOf_stored, decide_True by done.
    rewrite length_app; cbn. f_equal. lia.
  - intros e owner st. eexists. apply execute_count.
  - done.
  - intros txs e owner H0. by rewrite Hhist, H0.
Qed.

(** C5. [getSecretEntry(owner, index)] reverts, with the array-index
    panic, exactly when [index >= getSecretCount(owner)]; otherwise it
    returns the three fields of the entry stored at that index. In both
    cases it changes nothing. *)
Theorem getSecretEntry_in_range e owner index st :
  ∃ count,
    execute this fromExternal e (GetSecretCount owner) st = (Count count, st) ∧
    ((count ≤ index)%N ↔
       execute this fromExternal e (GetSecretEntry owner index) st =
         (Reverted (Panic 0x32), st)) ∧
    ((index < count)%N ↔
       ∃ entry, entriesOf st owner !! N.to_nat index = Some entry ∧
         execute this fromExternal e (GetSecretEntry owner index) st =
           (Entry (encryptedKey entry) (encryptedSecret entry) (createdAt entry), st)).
Proof.
  eexists. split; [apply execute_count|].
  rewrite execute_entry.
  destruct (entriesOf st owner !! N.to_nat index) as [entry|] eqn:Hi.
  - apply lookup_lt_Some in Hi. split; split.
    + lia.
    + done.
    + intros _. by exists entry.
    + lia.
  - apply lookup_ge_None in Hi. split; split.
    + done.
    + lia.
    + lia.
    + by intros (entry & ? & _).
Qed.

(** C7. A successful [storeSecret] of owner O appends its entry at the
    index that [getSecretCount(O)] returned just before the call, the
    entries below staying in place, and emits exactly one event,
    [SecretStored(O, index, timestamp)], whose timestamp is the
    [createdAt] of that entry. *)
Theorem storeSecret_appends_and_emits e k s proof st :
  (execute this fromExternal e (StoreSecret k s proof) st).1 = Stored →
  ∃ index entry st',
    execute this fromExternal e (StoreSecret k s proof) st = (Stored, st') ∧
    execute this fromExternal e (GetSecretCount (msg_sender e)) st = (Count index, st) ∧
    entriesOf st' (msg_sender e) = entriesOf st (msg_sender e) ++ [entry] ∧
    fromExternal this e (acl st) Uint160 k proof = Some (encryptedKey entry) ∧
    fromExternal this e (acl st) Uint256 s proof = Some (encryptedSecret entry) ∧
    execute this fromExternal e (GetSecretEntry (msg_sender e) index) st' =
      (Entry (encryptedKey entry) (encryptedSecret entry) (createdAt entry), st') ∧
    execute this fromExternal e (GetSecretCount (msg_sender e)) st' =
      (Count (index + 1)%N, st') ∧
    events st' = events st ++ [SecretStored (msg_sender e) index (createdAt entry)].
Proof.
  intros Hok.
  destruct (execute_store_Stored e k s proof st Hok) as (key & secret & Hk & Hs & ->).
  eexists _, {| encryptedKey := key; encryptedSecret := secret;
                createdAt := block_timestamp e |}, _.
  split; [done|]. split; [apply execute_count|].
  rewrite execute_entry, execute_count, entriesOf_stored, decide_True by done.
  rewrite Nat2N.id, list_lookup_middle by done.
  rewrite length_app; cbn. repeat split; try done.
  do 2 f_equal. lia.
Qed.

(** C8. A successful [storeSecret], by whichever sender, leaves what
    [getSecretEntry(O, i)] returns unchanged for every owner O and every
    [i] below [getSecretCount(O)]; and it leaves [getSecretCount(O)]
    unchanged for every owner O other than its sender. *)
Theorem storeSecret_index_stable e k s proof st :
  (execute this fromExternal e (StoreSecret k s proof) st).1 = Stored →
  (∀ e1 owner count index,
     execute this fromExternal e1 (GetSecretCount owner) st = (Count count, st) →
     (index < count)%N →
     (execute this fromExternal e1 (GetSecretEntry owner index)
        (execute this fromExternal e (StoreSecret k s proof) st).2).1 =
       (execute this fromExternal e1 (GetSecretEntry owner index) st).1) ∧
  (∀ e1 owner,
     owner ≠ msg_sender e →
     (execute this fromExternal e1 (GetSecretCount owner)
        (execute this fromExternal e (StoreSecret k s proof) st).2).1 =
       (execute this fromExternal e1 (GetSecretCount owner) st).1).
Proof.
  intros Hok.
  destruct (execute_store_Stored e k s proof st Hok) as (key & secret & _ & _ & ->).
  split.
  - intros e1 owner count index Hcount Hlt.
    rewrite execute_count in Hcount. injection Hcount as <-.
    rewrite !execute_entry; cbn [fst snd]. rewrite entriesOf_stored.
    destruct (decide (msg_sender e = owner)); [|done].
    rewrite lookup_app_l by lia. done.
  - intros e1 owner Hne.
    rewrite !execute_count; cbn [fst snd].
    by rewrite entriesOf_stored, decide_False.
Qed.

(** C9. [getSecretCount] and [getSecretEntry] are pure reads: called by
    another principal (nothing else of the call changed) they return the
    same result, and neither changes the state. *)
Theorem reads_ignore_caller e caller owner index st :
  let e' := {| msg_sender := caller; block_timestamp := block_timestamp e |} in
  execute this fromExternal e' (GetSecretCount owner) st =
    execute this fromExternal e (GetSecretCount owner) st ∧
  execute this fromExternal e' (GetSecretEntry owner index) st =
    execute this fromExternal e (GetSecretEntry owner index) st ∧
  (execute this fromExternal e (GetSecretCount owner) st).2 = st ∧
  (execute this fromExternal e (GetSecretEntry owner index) st).2 = st ∧
  (∀ n st', getSecretCount e owner st = inr (n, st') → st' = st) ∧
  (∀ r st', getSecretEntry e owner index st = inr (r, st') → st' = st).
Proof.
  intros e'. rewrite !execute_count, !execute_entry. repeat split; try done.
  - intros n st' H. by injection H.
  - intros r st'.
    unfold getSecretEntry, mbind, M_bind, read; cbn.
    destruct (entriesOf st owner !! N.to_nat index); [|done].
    intros H. by injection H.
Qed.
End VaultFacts.

(** ** Bit operations as arithmetic *)

Section Bits.

Lemma land_shiftl_ones c j k :
  0 ≤ j → 0 ≤ k →
  Z.land c (Z.shiftl (Z.ones j) k) = ((c / 2 ^ k) mod 2 ^ j) * 2 ^ k.
Proof.
  intros Hj Hk.
  rewrite <- Z.shiftl_mul_pow2, <- Z.land_ones, <- Z.shiftr_div_pow2 by done.
  apply Z.bits_inj'. intros n Hn. rewrite Z.land_spec.
  destruct (Z.lt_ge_cases n k).
  - rewrite !Z.shiftl_spec_low by done. apply andb_false_r.
  - rewrite !Z.shiftl_spec, Z.land_spec, Z.shiftr_spec by lia.
    do 2 f_equal. lia.
Qed.

Lemma lor_shiftl_low r y k :
  0 ≤ k → 0 ≤ y < 2 ^ k →
  Z.lor (Z.shiftl r k) y = r * 2 ^ k + y.
Proof.
  intros Hk Hy.
  rewrite <- Z.add_lor_land, <- (Z.add_0_r (Z.lor _ _)) at 1.
  rewrite Z.shiftl_mul_pow2 by done. do 2 f_equal.
  symmetry. apply Z.bits_inj'. intros n Hn.
  rewrite Z.land_spec, Z.bits_0.
  destruct (Z.lt_ge_cases n k).
  - by rewrite Z.mul_pow2_bits_low.
  - destruct (decide (y = 0)) as [->|]; [by rewrite Z.bits_0, andb_false_r|].
    assert (Z.log2 y < k) by (apply Z.log2_lt_pow2; lia).
    rewrite (Z.bits_above_log2 y n), andb_false_r; [done|lia|lia].
Qed.

(** A property of every integer of an interval, by evaluation. *)
Lemma Zbelow (P : Z → Prop) `{!∀ x, Decision (P x)} (n : Z) :
  bool_decide (Forall P (seqZ 0 n)) = true → ∀ x, 0 ≤ x < n → P x.
Proof.
  intros Hall%bool_decide_eq_true x Hx.
  rewrite Forall_seqZ in Hall. apply Hall. lia.
Qed.

Lemma shiftr_6 c : Z.shiftr c 6 = c / 64.
Proof. by rewrite Z.shiftr_div_pow2. Qed.
Lemma shiftr_12 c : Z.shiftr c 12 = c / 4096.
Proof. by rewrite Z.shiftr_div_pow2. Qed.
Lemma shiftr_18 c : Z.shiftr c 18 = c / 262144.
Proof. by rewrite Z.shiftr_div_pow2. Qed.
Lemma shiftr_10 c : Z.shiftr c 10 = c / 1024.
Proof. by rewrite Z.shiftr_div_pow2. Qed.
Lemma shiftr_7 c : Z.shiftr c 7 = c / 128.
Proof. by rewrite Z.shiftr_div_pow2. Qed.
Lemma shiftl_10 c : Z.shiftl c 10 = c * 1024.
Proof. by rewrite Z.shiftl_mul_pow2. Qed.
Lemma land_3f c : Z.land c 0x3f = c mod 64.
Proof. exact (Z.land_ones c 6 ltac:(lia)). Qed.
Lemma land_3ff c : Z.land c 0x3ff = c mod 1024.
Proof. exact (Z.land_ones c 10 ltac:(lia)). Qed.
Lemma land_1f c : Z.land c 0x1f = c mod 32.
Proof. exact (Z.land_ones c 5 ltac:(lia)). Qed.
Lemma land_0f c : Z.land c 0x0f = c mod 16.
Proof. exact (Z.land_ones c 4 ltac:(lia)). Qed.
Lemma land_ff c : Z.land c 0xff = c mod 256.
Proof. exact (Z.land_ones c 8 ltac:(lia)). Qed.
Lemma land_fc00 c : Z.land c 0xfc00 = ((c / 1024) mod 64) * 1024.
Proof. exact (land_shiftl_ones c 6 10 ltac:(lia) ltac:(lia)). Qed.
Lemma land_c0 c : Z.land c 0xc0 = ((c / 64) mod 4) * 64.
Proof. exact (land_shiftl_ones c 2 6 ltac:(lia) ltac:(lia)). Qed.
Lemma land_e0 c : Z.land c 0xe0 = ((c / 32) mod 8) * 32.
Proof. exact (land_shiftl_ones c 3 5 ltac:(lia) ltac:(lia)). Qed.
Lemma land_f0 c : Z.land c 0xf0 = ((c / 16) mod 16) * 16.
Proof. exact (land_shiftl_ones c 4 4 ltac:(lia) ltac:(lia)). Qed.
Lemma land_f8 c : Z.land c 0xf8 = ((c / 8) mod 32) * 8.
Proof. exact (land_shiftl_ones c 5 3 ltac:(lia) ltac:(lia)). Qed.
Lemma lor_shiftl_6 r y : 0 ≤ y < 64 → Z.lor (Z.shiftl r 6) y = r * 64 + y.
Proof. intros. by apply (lor_shiftl_low r y 6). Qed.

End Bits.

Ltac by_Zbelow :=
  lazymatch goal with
  | |- ∀ x, 0 ≤ x < ?n → @?P x => refine (Zbelow P n _); vm_compute; reflexivity
  end.

Section BitsOfBytes.
Lemma lor_c0 x : 0 ≤ x < 32 → Z.lor x 0xc0 = 0xc0 + x.
Proof. revert x. by_Zbelow. Qed.
Lemma lor_80 x : 0 ≤ x < 64 → Z.lor x 0x80 = 0x80 + x.
Proof. revert x. by_Zbelow. Qed.
Lemma lor_e0 x : 0 ≤ x < 16 → Z.lor x 0xe0 = 0xe0 + x.
Proof. revert x. by_Zbelow. Qed.
Lemma lor_f0 x : 0 ≤ x < 8 → Z.lor x 0xf0 = 0xf0 + x.
Proof. revert x. by_Zbelow. Qed.
End BitsOfBytes.

Ltac bits_to_arith :=
  rewrite ?shiftr_6, ?shiftr_12, ?shiftr_18, ?shiftr_10, ?shiftr_7, ?shiftl_10,
    ?land_3f, ?land_3ff, ?land_1f, ?land_0f, ?land_ff,
    ?land_fc00, ?land_c0, ?land_e0, ?land_f0, ?land_f8.

Ltac divmod := Z.div_mod_to_equations; lia.

(** ** UTF-8: the encoders *)

Section Utf8Encode.
Import JS Ethers.

Lemma isLeadSurrogate_range c :
  isCodeUnit c → isLeadSurrogate c = bool_decide (0xd800 ≤ c < 0xdc00).
Proof.
  unfold isCodeUnit, isLeadSurrogate. intros Hc. bits_to_arith.
  case_bool_decide; [apply Z.eqb_eq|apply Z.eqb_neq]; divmod.
Qed.

Lemma isTrailSurrogate_range c :
  isCodeUnit c → isTrailSurrogate c = bool_decide (0xdc00 ≤ c < 0xe000).
Proof.
  unfold isCodeUnit, isTrailSurrogate. intros Hc. bits_to_arith.
  case_bool_decide; [apply Z.eqb_eq|apply Z.eqb_neq]; divmod.
Qed.

Lemma pairScalar_range c c2 :
  0xd800 ≤ c < 0xdc00 → 0xdc00 ≤ c2 < 0xe000 →
  0x10000 ≤ pairScalar c c2 < 0x110000.
Proof. unfold pairScalar. lia. Qed.

Lemma toUtf8Bytes_single c rest :
  isCodeUnit c → isLeadSurrogate c = false →
  toUtf8Bytes (c :: rest) =
    bind (toUtf8Bytes rest) (λ result, Return (utf8_of_scalar c ++ result)).
Proof.
  intros Hc Hlead. pose proof Hc as Hc'. unfold isCodeUnit in Hc'.
  cbn [toUtf8Bytes]. unfold isLeadSurrogate in Hlead. rewrite Hlead.
  unfold utf8_of_scalar.
  destruct (Z.ltb_spec c 0x80); [done|].
  destruct (Z.ltb_spec c 0x800).
  - bits_to_arith. rewrite lor_c0, lor_80 by divmod. done.
  - destruct (Z.ltb_spec c 0x10000); [|lia].
    bits_to_arith. rewrite lor_e0, !lor_80 by divmod. done.
Qed.

Lemma toUtf8Bytes_pair c c2 rest :
  isCodeUnit c → isCodeUnit c2 →
  isLeadSurrogate c = true → isTrailSurrogate c2 = true →
  toUtf8Bytes (c :: c2 :: rest) =
    bind (toUtf8Bytes rest) (λ result,
      Return (utf8_of_scalar (pairScalar c c2) ++ result)).
Proof.
  intros Hc Hc2 Hlead Htrail.
  pose proof Hlead as Hl. pose proof Htrail as Ht.
  rewrite isLeadSurrogate_range in Hl by done. apply bool_decide_eq_true in Hl.
  rewrite isTrailSurrogate_range in Ht by done. apply bool_decide_eq_true in Ht.
  pose proof (pairScalar_range c c2 Hl Ht) as Hp.
  cbn [toUtf8Bytes]. unfold isLeadSurrogate in Hlead. unfold isTrailSurrogate in Htrail.
  rewrite Hlead, Htrail.
  destruct (Z.ltb_spec c 0x80); [lia|]. destruct (Z.ltb_spec c 0x800); [lia|].
  cbn [assertArgument bind].
  replace (65536 + Z.shiftl (Z.land c 1023) 10 + Z.land c2 1023)
    with (pairScalar c c2) by (unfold pairScalar; bits_to_arith; divmod).
  unfold utf8_of_scalar.
  destruct (Z.ltb_spec (pairScalar c c2) 0x80); [lia|].
  destruct (Z.ltb_spec (pairScalar c c2) 0x800); [lia|].
  destruct (Z.ltb_spec (pairScalar c c2) 0x10000); [lia|].
  bits_to_arith. rewrite lor_f0, !lor_80 by divmod. done.
Qed.

Lemma toUtf8Bytes_lone c rest :
  isCodeUnit c → isLeadSurrogate c = true →
  match rest with c2 :: _ => isTrailSurrogate c2 = false | [] => True end →
  toUtf8Bytes (c :: rest) = Throw InvalidArgument.
Proof.
  intros Hc Hlead Hrest.
  pose proof Hlead as Hl.
  rewrite isLeadSurrogate_range in Hl by done. apply bool_decide_eq_true in Hl.
  cbn [toUtf8Bytes]. unfold isLeadSurrogate in Hlead. rewrite Hlead.
  destruct (Z.ltb_spec c 0x80); [lia|]. destruct (Z.ltb_spec c 0x800); [lia|].
  destruct rest as [|c2 rest']; [done|].
  unfold isTrailSurrogate in Hrest. by rewrite Hrest.
Qed.

Lemma TextEncoder_encode_cons c rest :
  TextEncoder_encode (c :: rest) =
    if isLeadSurrogate c then
      match rest with
      | c2 :: rest' =>
          if isTrailSurrogate c2
          then utf8_of_scalar (pairScalar c c2) ++ TextEncoder_encode rest'
          else utf8_of_scalar 0xfffd ++ TextEncoder_encode rest
      | [] => utf8_of_scalar 0xfffd
      end
    else if isTrailSurrogate c then utf8_of_scalar 0xfffd ++ TextEncoder_encode rest
    else utf8_of_scalar c ++ TextEncoder_encode rest.
Proof. reflexivity. Qed.

(** Induction on a string, one or two code units at a time. *)
Lemma string_pair_ind (P : string → Prop) :
  P [] →
  (∀ c, P [c]) →
  (∀ c c2 rest, P rest → P (c2 :: rest) → P (c :: c2 :: rest)) →
  ∀ s, P s.
Proof.
  intros Hnil Hone Hstep s.
  enough (P s ∧ ∀ c, P (c :: s)) by tauto.
  induction s as [|c2 rest [IH1 IH2]]; [by split|].
  split; [apply IH2|]. intros c. by apply Hstep.
Qed.

Lemma utf8_of_scalar_length c :
  isCodeUnit c →
  Z.of_nat (length (utf8_of_scalar c)) =
    if c <? 0x80 then 1 else if c <? 0x800 then 2 else 3.
Proof.
  unfold isCodeUnit, utf8_of_scalar. intros Hc.
  destruct (Z.ltb_spec c 0x80); [done|]. destruct (Z.ltb_spec c 0x800); [done|].
  destruct (Z.ltb_spec c 0x10000); [done|lia].
Qed.

Lemma utf8_of_scalar_pair_length c c2 :
  0xd800 ≤ c < 0xdc00 → 0xdc00 ≤ c2 < 0xe000 →
  Z.of_nat (length (utf8_of_scalar (pairScalar c c2))) = 4.
Proof.
  intros Hc Hc2. pose proof (pairScalar_range c c2 Hc Hc2).
  unfold utf8_of_scalar.
  destruct (Z.ltb_spec (pairScalar c c2) 0x80); [lia|].
  destruct (Z.ltb_spec (pairScalar c c2) 0x800); [lia|].
  destruct (Z.ltb_spec (pairScalar c c2) 0x10000); [lia|done].
Qed.

Lemma utf8_of_scalar_bytes cp :
  0 ≤ cp < 0x110000 → isBytes (utf8_of_scalar cp).
Proof.
  intros Hcp. unfold utf8_of_scalar, isBytes.
  destruct (Z.ltb_spec cp 0x80); [|destruct (Z.ltb_spec cp 0x800);
    [|destruct (Z.ltb_spec cp 0x10000)]];
    repeat constructor; unfold isByte; divmod.
Qed.

Lemma utf8_of_scalar_nonempty cp : utf8_of_scalar cp ≠ [].
Proof.
  unfold utf8_of_scalar.
  by destruct (cp <? 0x80), (cp <? 0x800), (cp <? 0x10000).
Qed.

(** A code unit that is no lead surrogate is written the same way by
    [Buffer.byteLength]'s count and by [toUtf8Bytes]. *)
Lemma Buffer_byteLength_single c rest :
  isCodeUnit c → isLeadSurrogate c = false →
  Buffer_byteLength (c :: rest) =
    Z.of_nat (length (utf8_of_scalar c)) + Buffer_byteLength rest.
Proof.
  intros Hc Hlead. rewrite utf8_of_scalar_length by done.
  cbn [Buffer_byteLength]. rewrite Hlead.
  by destruct (c <? 0x80), (c <? 0x800).
Qed.

Lemma Buffer_byteLength_pair c c2 rest :
  isCodeUnit c → isCodeUnit c2 →
  isLeadSurrogate c = true → isTrailSurrogate c2 = true →
  Buffer_byteLength (c :: c2 :: rest) = 4 + Buffer_byteLength rest.
Proof.
  intros Hc Hc2 Hlead Htrail. pose proof Hlead as Hl.
  rewrite isLeadSurrogate_range in Hl by done. apply bool_decide_eq_true in Hl.
  cbn [Buffer_byteLength]. rewrite Hlead, Htrail.
  destruct (Z.ltb_spec c 0x80); [lia|]. destruct (Z.ltb_spec c 0x800); [lia|done].
Qed.

Lemma Buffer_byteLength_nonneg s : 0 ≤ Buffer_byteLength s.
Proof.
  induction s as [|c|c c2 rest IH1 IH2] using string_pair_ind; cbn; [lia|..].
  - destruct (c <? 0x80), (c <? 0x800), (isLeadSurrogate c); lia.
  - cbn in IH2.
    destruct (c <? 0x80), (c <? 0x800), (isLeadSurrogate c), (isTrailSurrogate c2);
      try lia.
Qed.

(** Where every lead surrogate is paired, [toUtf8Bytes] returns bytes,
    as many as [Buffer.byteLength] counts; the bytes of [TextEncoder]
    when the string is well formed. *)
Lemma toUtf8Bytes_paired s :
  isString s → leadSurrogatesPaired s = true →
  ∃ bytes, toUtf8Bytes s = Return bytes ∧
    Z.of_nat (length bytes) = Buffer_byteLength s ∧
    isBytes bytes ∧
    (isWellFormed s = true → bytes = TextEncoder_encode s).
Proof.
  induction s as [|c|c c2 rest IH1 IH2] using string_pair_ind; intros Hs Hpaired.
  - exists []. repeat split; [constructor].
  - apply Forall_cons in Hs as [Hc _]. cbn in Hpaired.
    destruct (isLeadSurrogate c) eqn:Hlead; [done|].
    exists (utf8_of_scalar c ++ []).
    rewrite toUtf8Bytes_single, Buffer_byteLength_single by done. cbn [toUtf8Bytes bind].
    rewrite length_app; cbn. repeat split; [lia| |].
    + rewrite app_nil_r. apply utf8_of_scalar_bytes. unfold isCodeUnit in Hc. lia.
    + cbn. rewrite Hlead. by destruct (isTrailSurrogate c).
  - apply Forall_cons in Hs as [Hc Hs]. pose proof Hs as Hs'.
    apply Forall_cons in Hs' as [Hc2 Hrest].
    cbn [leadSurrogatesPaired] in Hpaired.
    destruct (isLeadSurrogate c) eqn:Hlead.
    + apply andb_prop in Hpaired as [Htrail Hpaired].
      destruct (IH1 Hrest Hpaired) as (bytes & Hbytes & Hlen & Hbs & Hwf).
      exists (utf8_of_scalar (pairScalar c c2) ++ bytes).
      pose proof Hlead as Hl. pose proof Htrail as Ht.
      rewrite isLeadSurrogate_range in Hl by done. apply bool_decide_eq_true in Hl.
      rewrite isTrailSurrogate_range in Ht by done. apply bool_decide_eq_true in Ht.
      rewrite toUtf8Bytes_pair, Buffer_byteLength_pair, Hbytes by done.
      rewrite length_app, Nat2Z.inj_add, utf8_of_scalar_pair_length by done.
      repeat split; [lia| |].
      * apply Forall_app. split; [|done].
        apply utf8_of_scalar_bytes. pose proof (pairScalar_range c c2 Hl Ht). lia.
      * cbn [isWellFormed TextEncoder_encode]. rewrite Hlead, Htrail. cbn.
        intros Hw. by rewrite Hwf.
    + destruct (IH2 Hs Hpaired) as (bytes & Hbytes & Hlen & Hbs & Hwf).
      exists (utf8_of_scalar c ++ bytes).
      rewrite toUtf8Bytes_single, Buffer_byteLength_single, Hbytes by done.
      rewrite length_app, Nat2Z.inj_add.
      repeat split; [lia| |].
      * apply Forall_app. split; [|done].
        apply utf8_of_scalar_bytes. unfold isCodeUnit in Hc. lia.
      * cbn [isWellFormed TextEncoder_encode]. rewrite Hlead.
        destruct (isTrailSurrogate c); [done|]. intros Hw. by rewrite Hwf.
Qed.

(** A lead surrogate without its trail surrogate makes [toUtf8Bytes] throw. *)
Lemma toUtf8Bytes_unpaired s :
  isString s → leadSurrogatesPaired s = false →
  toUtf8Bytes s = Throw InvalidArgument.
Proof.
  induction s as [|c|c c2 rest IH1 IH2] using string_pair_ind; intros Hs Hpaired.
  - done.
  - apply Forall_cons in Hs as [Hc _]. cbn in Hpaired.
    destruct (isLeadSurrogate c) eqn:Hlead; [|done].
    by apply toUtf8Bytes_lone.
  - apply Forall_cons in Hs as [Hc Hs]. pose proof Hs as Hs'.
    apply Forall_cons in Hs' as [Hc2 Hrest].
    cbn [leadSurrogatesPaired] in Hpaired.
    destruct (isLeadSurrogate c) eqn:Hlead.
    + destruct (isTrailSurrogate c2) eqn:Htrail.
      * rewrite toUtf8Bytes_pair, IH1 by done. done.
      * by apply toUtf8Bytes_lone.
    + rewrite toUtf8Bytes_single, IH2 by done. done.
Qed.

Lemma wellFormed_paired s : isWellFormed s = true → leadSurrogatesPaired s = true.
Proof.
  induction s as [|c|c c2 rest IH1 IH2] using string_pair_ind; [done|..].
  - cbn. by destruct (isLeadSurrogate c).
  - cbn [isWellFormed leadSurrogatesPaired].
    destruct (isLeadSurrogate c).
    + intros [? ?]%andb_prop. apply andb_true_intro. auto.
    + destruct (isTrailSurrogate c); [done|]. apply IH2.
Qed.

(** [TextEncoder] writes as many bytes as [Buffer.byteLength] counts. *)
Lemma TextEncoder_length s :
  isString s → Z.of_nat (length (TextEncoder_encode s)) = Buffer_byteLength s.
Proof.
  assert (Hfffd : ∀ c, isCodeUnit c → 0x800 ≤ c →
            Z.of_nat (length (utf8_of_scalar 0xfffd)) =
            Z.of_nat (length (utf8_of_scalar c))).
  { intros c Hc Hge. rewrite (utf8_of_scalar_length c) by done.
    destruct (Z.ltb_spec c 0x80); [lia|]. destruct (Z.ltb_spec c 0x800); [lia|done]. }
  assert (Hsur : ∀ c, isCodeUnit c →
            isLeadSurrogate c = true ∨ isTrailSurrogate c = true → 0x800 ≤ c).
  { intros c Hc. rewrite isLeadSurrogate_range, isTrailSurrogate_range by done.
    intros [H%bool_decide_eq_true|H%bool_decide_eq_true]; lia. }
  induction s as [|c|c c2 rest IH1 IH2] using string_pair_ind; intros Hs.
  - done.
  - apply Forall_cons in Hs as [Hc _].
    cbn [TextEncoder_encode Buffer_byteLength].
    destruct (isLeadSurrogate c) eqn:Hlead.
    + pose proof (Hsur c Hc (or_introl Hlead)).
      destruct (Z.ltb_spec c 0x80); [lia|]. destruct (Z.ltb_spec c 0x800); [lia|done].
    + destruct (isTrailSurrogate c) eqn:Htrail.
      * pose proof (Hsur c Hc (or_intror Htrail)).
        destruct (Z.ltb_spec c 0x80); [lia|]. destruct (Z.ltb_spec c 0x800); [lia|done].
      * rewrite app_nil_r, utf8_of_scalar_length by done.
        by destruct (c <? 0x80), (c <? 0x800).
  - apply Forall_cons in Hs as [Hc Hs]. pose proof Hs as Hs'.
    apply Forall_cons in Hs' as [Hc2 Hrest].
    specialize (IH1 Hrest). specialize (IH2 Hs).
    destruct (isLeadSurrogate c) eqn:Hlead.
    + pose proof Hlead as Hl.
      rewrite isLeadSurrogate_range in Hl by done. apply bool_decide_eq_true in Hl.
      destruct (isTrailSurrogate c2) eqn:Htrail.
      * pose proof Htrail as Ht.
        rewrite isTrailSurrogate_range in Ht by done. apply bool_decide_eq_true in Ht.
        rewrite Buffer_byteLength_pair by done.
        cbn [TextEncoder_encode]. rewrite Hlead, Htrail.
        rewrite length_app, Nat2Z.inj_add, utf8_of_scalar_pair_length by done. lia.
      * rewrite TextEncoder_encode_cons.
        change (Buffer_byteLength (c :: c2 :: rest))
          with (if c <? 0x80 then 1 + Buffer_byteLength (c2 :: rest)
                else if c <? 0x800 then 2 + Buffer_byteLength (c2 :: rest)
                else if isLeadSurrogate c then
                  if isTrailSurrogate c2 then 4 + Buffer_byteLength rest
                  else 3 + Buffer_byteLength (c2 :: rest)
                else 3 + Buffer_byteLength (c2 :: rest)).
        rewrite Hlead, Htrail.
        destruct (Z.ltb_spec c 0x80); [lia|]. destruct (Z.ltb_spec c 0x800); [lia|].
        rewrite length_app, Nat2Z.inj_add.
        change (length (utf8_of_scalar 0xfffd)) with 3%nat. lia.
    + rewrite Buffer_byteLength_single by done.
      rewrite TextEncoder_encode_cons.
      rewrite Hlead.
      destruct (isTrailSurrogate c) eqn:Htrail.
      * pose proof (Hsur c Hc (or_intror Htrail)).
        rewrite length_app, Nat2Z.inj_add, (Hfffd c) by done. lia.
      * rewrite length_app, Nat2Z.inj_add. lia.
Qed.

Lemma utf8_of_scalar_last cp :
  0 < cp → last (utf8_of_scalar cp) ≠ Some 0.
Proof.
  intros Hcp. unfold utf8_of_scalar.
  destruct (Z.ltb_spec cp 0x80); [|destruct (Z.ltb_spec cp 0x800);
    [|destruct (Z.ltb_spec cp 0x10000)]];
    cbn [last]; intros [= Hz]; divmod.
Qed.

Lemma TextEncoder_nil s : TextEncoder_encode s = [] → s = [].
Proof.
  destruct s as [|c rest]; [done|]. rewrite TextEncoder_encode_cons.
  intros Hnil. exfalso.
  destruct (isLeadSurrogate c); [destruct rest as [|c2 rest];
    [|destruct (isTrailSurrogate c2)]|destruct (isTrailSurrogate c)];
    try apply app_eq_nil in Hnil as [Hnil _]; by apply utf8_of_scalar_nonempty in Hnil.
Qed.

(** Only a text that ends in U+0000 is written with a null byte last. *)
Lemma TextEncoder_last s :
  isString s → isWellFormed s = true → last s ≠ Some 0 →
  last (TextEncoder_encode s) ≠ Some 0.
Proof.
  assert (Happ : ∀ cp s', 0 ≤ cp → (s' = [] → cp ≠ 0) →
            last (TextEncoder_encode s') ≠ Some 0 →
            last (utf8_of_scalar cp ++ TextEncoder_encode s') ≠ Some 0).
  { intros cp s' Hcp Hnil Hlast. rewrite last_app.
    destruct (last (TextEncoder_encode s')) as [y|] eqn:Hy; [done|].
    apply last_None, TextEncoder_nil in Hy.
    apply utf8_of_scalar_last. specialize (Hnil Hy). lia. }
  assert (Htail : ∀ c s', last (c :: s') ≠ Some 0 → last s' ≠ Some 0).
  { intros c s' Hlast Hs'. apply Hlast. by rewrite last_cons, Hs'. }
  induction s as [|c|c c2 rest IH1 IH2] using string_pair_ind; intros Hs Hwf Hlast.
  - done.
  - apply Forall_cons in Hs as [Hc _]. cbn in Hwf.
    destruct (isLeadSurrogate c) eqn:Hlead; [done|].
    destruct (isTrailSurrogate c) eqn:Htrail; [done|].
    rewrite TextEncoder_encode_cons, Hlead, Htrail.
    apply Happ; [unfold isCodeUnit in Hc; lia| |done].
    intros _ ->. by apply Hlast.
  - apply Forall_cons in Hs as [Hc Hs]. pose proof Hs as Hs'.
    apply Forall_cons in Hs' as [Hc2 Hrest].
    cbn [isWellFormed] in Hwf. rewrite TextEncoder_encode_cons.
    destruct (isLeadSurrogate c) eqn:Hlead.
    + apply andb_prop in Hwf as [Htrail Hwf]. rewrite Htrail.
      rewrite isLeadSurrogate_range in Hlead by done.
      apply bool_decide_eq_true in Hlead.
      rewrite isTrailSurrogate_range in Htrail by done.
      apply bool_decide_eq_true in Htrail.
      pose proof (pairScalar_range c c2 Hlead Htrail).
      apply Happ; [lia|lia|]. apply IH1; [done..|]. eauto.
    + destruct (isTrailSurrogate c) eqn:Htrail; [done|].
      apply Happ; [unfold isCodeUnit in Hc; lia|done|]. apply IH2; eauto.
Qed.

End Utf8Encode.

(** ** UTF-8: the decoder of ethers *)

Ltac decide_eqb :=
  repeat match goal with
  | |- context [Z.eqb ?a ?b] =>
      first [ replace (Z.eqb a b) with true by (symmetry; apply Z.eqb_eq; divmod)
            | replace (Z.eqb a b) with false by (symmetry; apply Z.eqb_neq; divmod) ]
  end.

Section Utf8Decode.
Import JS Ethers.

Lemma readContinuation_length n res bytes r bytes' :
  readContinuation n res bytes = Return (r, bytes') →
  (length bytes' ≤ length bytes)%nat.
Proof.
  revert res bytes. induction n as [|n IH]; intros res bytes; cbn.
  - intros [= _ ->]. done.
  - destruct bytes as [|b bytes]; [done|].
    destruct (negb _); [done|]. intros H%IH. cbn. lia.
Qed.

Lemma readMultibyte_length c rest res rest' :
  readMultibyte c rest = Return (res, rest') →
  (length rest' ≤ length rest)%nat.
Proof.
  unfold readMultibyte.
  destruct (utf8Prefix c) as [[extraLength overlongMask]|]; [|done].
  destruct (length rest <? extraLength)%nat; [done|].
  destruct (readContinuation _ _ _) as [[r bytes']|] eqn:Hread; [|done].
  apply readContinuation_length in Hread. cbn.
  destruct (r >? 0x10ffff); [done|].
  destruct ((r >=? 0xd800) && (r <=? 0xdfff)); [done|].
  destruct (r <=? overlongMask); [done|].
  by intros [= _ <-].
Qed.

(** The loop never runs out of rounds when it is given as many as there
    are bytes: more rounds change nothing. *)
Lemma getUtf8CodePoints_loop_fuel fuel1 fuel2 bytes :
  (length bytes ≤ fuel1)%nat → (length bytes ≤ fuel2)%nat →
  getUtf8CodePoints_loop fuel1 bytes = getUtf8CodePoints_loop fuel2 bytes.
Proof.
  revert fuel2 bytes. induction fuel1 as [|fuel1 IH]; intros fuel2 bytes H1 H2.
  - destruct bytes; [by destruct fuel2|cbn in H1; lia].
  - destruct bytes as [|c rest]; [by destruct fuel2|].
    destruct fuel2 as [|fuel2]; [cbn in H2; lia|].
    cbn in H1, H2. cbn [getUtf8CodePoints_loop].
    destruct (Z.shiftr c 7 =? 0).
    + rewrite (IH fuel2) by lia. done.
    + destruct (readMultibyte c rest) as [[res rest']|] eqn:Hread; [|done].
      apply readMultibyte_length in Hread. cbn [bind].
      rewrite (IH fuel2) by lia. done.
Qed.

Lemma getUtf8CodePoints_fuel fuel bytes :
  (length bytes ≤ fuel)%nat →
  getUtf8CodePoints_loop fuel bytes = getUtf8CodePoints bytes.
Proof. intros. by apply getUtf8CodePoints_loop_fuel. Qed.

Lemma utf8_checks res overlongMask (rest : list Z) :
  isScalar res → overlongMask < res →
  (if res >? 0x10ffff then Throw InvalidArgument
   else if (res >=? 0xd800) && (res <=? 0xdfff) then Throw InvalidArgument
   else if res <=? overlongMask then Throw InvalidArgument
   else Return (res, rest)) = Return (res, rest).
Proof.
  intros [Hrange Hsur] Hlong.
  destruct (Z.gtb_spec res 0x10ffff); [lia|].
  destruct (Z.geb_spec res 0xd800), (Z.leb_spec res 0xdfff); cbn [andb]; try lia;
    by destruct (Z.leb_spec res overlongMask); [lia|].
Qed.

Lemma readMultibyte_2 cp rest :
  isScalar cp → 0x80 ≤ cp < 0x800 →
  readMultibyte (0xc0 + cp / 64) (0x80 + cp mod 64 :: rest) = Return (cp, rest).
Proof.
  intros Hcp Hrange. unfold readMultibyte, utf8Prefix.
  bits_to_arith. decide_eqb.
  cbn -[Z.add Z.div Z.modulo Z.land Z.lor Z.shiftl Z.gtb Z.geb Z.leb].
  bits_to_arith. decide_eqb. cbn [negb].
  rewrite lor_shiftl_6 by divmod.
  replace (_ + _) with cp by divmod.
  cbn [bind]. apply utf8_checks; [done|lia].
Qed.

Lemma readMultibyte_3 cp rest :
  isScalar cp → 0x800 ≤ cp < 0x10000 →
  readMultibyte (0xe0 + cp / 4096)
    (0x80 + (cp / 64) mod 64 :: 0x80 + cp mod 64 :: rest) = Return (cp, rest).
Proof.
  intros Hcp Hrange. unfold readMultibyte, utf8Prefix.
  bits_to_arith. decide_eqb.
  cbn -[Z.add Z.div Z.modulo Z.land Z.lor Z.shiftl Z.gtb Z.geb Z.leb].
  bits_to_arith. decide_eqb. cbn [negb].
  rewrite !lor_shiftl_6 by divmod.
  replace (_ + _) with cp by divmod.
  cbn [bind]. apply utf8_checks; [done|lia].
Qed.

Lemma readMultibyte_4 cp rest :
  isScalar cp → 0x10000 ≤ cp →
  readMultibyte (0xf0 + cp / 262144)
    (0x80 + (cp / 4096) mod 64 :: 0x80 + (cp / 64) mod 64 :: 0x80 + cp mod 64 :: rest)
    = Return (cp, rest).
Proof.
  intros Hcp Hrange. pose proof Hcp as [Hcp' _]. unfold readMultibyte, utf8Prefix.
  bits_to_arith. decide_eqb.
  cbn -[Z.add Z.div Z.modulo Z.land Z.lor Z.shiftl Z.gtb Z.geb Z.leb].
  bits_to_arith. decide_eqb. cbn [negb].
  rewrite !lor_shiftl_6 by divmod.
  replace (_ + _) with cp by divmod.
  cbn [bind]. apply utf8_checks; [done|lia].
Qed.

Lemma getUtf8CodePoints_loop_cons fuel c rest :
  getUtf8CodePoints_loop (S fuel) (c :: rest) =
    if Z.shiftr c 7 =? 0 then
      bind (getUtf8CodePoints_loop fuel rest) (λ result, Return (c :: result))
    else
      bind (readMultibyte c rest) (λ '(res, rest'),
      bind (getUtf8CodePoints_loop fuel rest') (λ result,
      Return (res :: result))).
Proof. reflexivity. Qed.

(** The decoder reads back what a scalar value was written as. *)
Lemma getUtf8CodePoints_scalar cp rest :
  isScalar cp →
  getUtf8CodePoints (utf8_of_scalar cp ++ rest) =
    bind (getUtf8CodePoints rest) (λ result, Return (cp :: result)).
Proof.
  intros Hcp. pose proof Hcp as [Hrange _].
  unfold getUtf8CodePoints at 1, utf8_of_scalar.
  destruct (Z.ltb_spec cp 0x80); [|destruct (Z.ltb_spec cp 0x800);
    [|destruct (Z.ltb_spec cp 0x10000)]];
    cbn [app length]; rewrite getUtf8CodePoints_loop_cons; bits_to_arith; decide_eqb.
  - by rewrite getUtf8CodePoints_fuel.
  - rewrite readMultibyte_2 by (done || lia). cbn [bind].
    by rewrite getUtf8CodePoints_fuel by lia.
  - rewrite readMultibyte_3 by (done || lia). cbn [bind].
    by rewrite getUtf8CodePoints_fuel by lia.
  - rewrite readMultibyte_4 by (done || lia). cbn [bind].
    by rewrite getUtf8CodePoints_fuel by lia.
Qed.

Lemma fromCodePoint_unit c : isCodeUnit c → fromCodePoint c = [c].
Proof.
  unfold isCodeUnit, fromCodePoint. intros Hc.
  by destruct (Z.leb_spec c 0xffff); [|lia].
Qed.

Lemma fromCodePoint_pair c c2 :
  0xd800 ≤ c < 0xdc00 → 0xdc00 ≤ c2 < 0xe000 →
  fromCodePoint (pairScalar c c2) = [c; c2].
Proof.
  intros Hc Hc2. pose proof (pairScalar_range c c2 Hc Hc2) as Hp.
  unfold fromCodePoint.
  destruct (Z.leb_spec (pairScalar c c2) 0xffff); [lia|].
  unfold pairScalar. bits_to_arith. f_equal; [|f_equal]; divmod.
Qed.

Lemma scalar_of_unit c :
  isCodeUnit c → isLeadSurrogate c = false → isTrailSurrogate c = false →
  isScalar c.
Proof.
  intros Hc. rewrite isLeadSurrogate_range, isTrailSurrogate_range by done.
  intros Hl%bool_decide_eq_false Ht%bool_decide_eq_false.
  unfold isCodeUnit in Hc. unfold isScalar. lia.
Qed.

Lemma scalar_of_pair c c2 :
  0xd800 ≤ c < 0xdc00 → 0xdc00 ≤ c2 < 0xe000 → isScalar (pairScalar c c2).
Proof.
  intros Hc Hc2. pose proof (pairScalar_range c c2 Hc Hc2). unfold isScalar. lia.
Qed.

(** Round trip of UTF-8 on well-formed strings: [toUtf8String] reads
    back what [TextEncoder] (hence [toUtf8Bytes]) wrote. *)
Lemma toUtf8String_encode s :
  isString s → isWellFormed s = true →
  toUtf8String (TextEncoder_encode s) = Return s.
Proof.
  unfold toUtf8String.
  induction s as [|c|c c2 rest IH1 IH2] using string_pair_ind; intros Hs Hwf.
  - done.
  - apply Forall_cons in Hs as [Hc _]. cbn in Hwf.
    destruct (isLeadSurrogate c) eqn:Hlead; [done|].
    destruct (isTrailSurrogate c) eqn:Htrail; [done|].
    rewrite TextEncoder_encode_cons, Hlead, Htrail.
    rewrite getUtf8CodePoints_scalar by by apply scalar_of_unit.
    cbn. by rewrite fromCodePoint_unit.
  - apply Forall_cons in Hs as [Hc Hs]. pose proof Hs as Hs'.
    apply Forall_cons in Hs' as [Hc2 Hrest].
    cbn [isWellFormed] in Hwf.
    destruct (isLeadSurrogate c) eqn:Hlead.
    + apply andb_prop in Hwf as [Htrail Hwf].
      rewrite TextEncoder_encode_cons, Hlead, Htrail.
      rewrite isLeadSurrogate_range in Hlead by done.
      apply bool_decide_eq_true in Hlead.
      rewrite isTrailSurrogate_range in Htrail by done.
      apply bool_decide_eq_true in Htrail.
      rewrite getUtf8CodePoints_scalar by by apply scalar_of_pair.
      specialize (IH1 Hrest Hwf).
      destruct (getUtf8CodePoints (TextEncoder_encode rest)) as [cps|]; [|done].
      cbn in IH1 |- *. injection IH1 as IH1.
      by rewrite fromCodePoint_pair, IH1.
    + destruct (isTrailSurrogate c) eqn:Htrail; [done|].
      specialize (IH2 Hs Hwf).
      rewrite TextEncoder_encode_cons.
      rewrite Hlead, Htrail.
      rewrite getUtf8CodePoints_scalar by by apply scalar_of_unit.
      destruct (getUtf8CodePoints (TextEncoder_encode (c2 :: rest))) as [cps|]; [|done].
      cbn in IH2 |- *. injection IH2 as IH2.
      by rewrite fromCodePoint_unit, IH2.
Qed.

(** *** The decoder accepts nothing but UTF-8 *)

Lemma readMultibyte_sound c rest res rest' :
  isByte c → isBytes rest →
  readMultibyte c rest = Return (res, rest') →
  isScalar res ∧ c :: rest = utf8_of_scalar res ++ rest'.
Proof.
  unfold isByte. intros Hc Hrest. unfold readMultibyte, utf8Prefix.
  destruct (Z.eqb_spec (Z.land c 0xe0) 0xc0) as [H2|_];
    [|destruct (Z.eqb_spec (Z.land c 0xf0) 0xe0) as [H3|_];
      [|destruct (Z.eqb_spec (Z.land c 0xf8) 0xf0) as [H4|_]; [|done]]].
  - destruct rest as [|b1 rest1]; [done|].
    apply Forall_cons in Hrest as [Hb1 _]. unfold isByte in Hb1.
    cbn -[Z.add Z.div Z.modulo Z.land Z.lor Z.shiftl Z.gtb Z.geb Z.leb Z.eqb].
    destruct (Z.eqb_spec (Z.land b1 0xc0) 0x80) as [Hc1|_]; [|done]. cbn [negb bind].
    revert H2 Hc1. bits_to_arith. intros H2 Hc1. rewrite lor_shiftl_6 by divmod.
    remember (c mod 64 * 64 + b1 mod 64) as r eqn:Hr.
    destruct (Z.gtb_spec r 0x10ffff); [done|].
    destruct (Z.geb_spec r 0xd800), (Z.leb_spec r 0xdfff); cbn [andb]; try done;
      (destruct (Z.leb_spec r 0x7f); [done|]); intros [= <- <-];
      (split; [unfold isScalar; lia|]); unfold utf8_of_scalar;
      (destruct (Z.ltb_spec r 0x80); [lia|]); (destruct (Z.ltb_spec r 0x800); [|divmod]);
      cbn [app]; repeat (f_equal; try divmod).
  - destruct rest as [|b1 [|b2 rest2]]; [done..|].
    apply Forall_cons in Hrest as [Hb1 Hrest]. apply Forall_cons in Hrest as [Hb2 _].
    unfold isByte in Hb1, Hb2.
    cbn -[Z.add Z.div Z.modulo Z.land Z.lor Z.shiftl Z.gtb Z.geb Z.leb Z.eqb].
    destruct (Z.eqb_spec (Z.land b1 0xc0) 0x80) as [Hc1|_]; [|done]. cbn [negb].
    destruct (Z.eqb_spec (Z.land b2 0xc0) 0x80) as [Hc2|_]; [|done]. cbn [negb bind].
    revert H3 Hc1 Hc2. bits_to_arith. intros H3 Hc1 Hc2. rewrite !lor_shiftl_6 by divmod.
    remember ((c mod 32 * 64 + b1 mod 64) * 64 + b2 mod 64) as r eqn:Hr.
    destruct (Z.gtb_spec r 0x10ffff); [done|].
    destruct (Z.geb_spec r 0xd800), (Z.leb_spec r 0xdfff); cbn [andb]; try done;
      (destruct (Z.leb_spec r 0x7ff); [done|]); intros [= <- <-];
      (split; [unfold isScalar; lia|]); unfold utf8_of_scalar;
      (destruct (Z.ltb_spec r 0x80); [lia|]); (destruct (Z.ltb_spec r 0x800); [lia|]);
      (destruct (Z.ltb_spec r 0x10000); [|divmod]);
      cbn [app]; repeat (f_equal; try divmod).
  - destruct rest as [|b1 [|b2 [|b3 rest3]]]; [done..|].
    apply Forall_cons in Hrest as [Hb1 Hrest]. apply Forall_cons in Hrest as [Hb2 Hrest].
    apply Forall_cons in Hrest as [Hb3 _].
    unfold isByte in Hb1, Hb2, Hb3.
    cbn -[Z.add Z.div Z.modulo Z.land Z.lor Z.shiftl Z.gtb Z.geb Z.leb Z.eqb].
    destruct (Z.eqb_spec (Z.land b1 0xc0) 0x80) as [Hc1|_]; [|done]. cbn [negb].
    destruct (Z.eqb_spec (Z.land b2 0xc0) 0x80) as [Hc2|_]; [|done]. cbn [negb].
    destruct (Z.eqb_spec (Z.land b3 0xc0) 0x80) as [Hc3|_]; [|done]. cbn [negb bind].
    revert H4 Hc1 Hc2 Hc3. bits_to_arith. intros H4 Hc1 Hc2 Hc3.
    rewrite !lor_shiftl_6 by divmod.
    remember (((c mod 16 * 64 + b1 mod 64) * 64 + b2 mod 64) * 64 + b3 mod 64) as r eqn:Hr.
    destruct (Z.gtb_spec r 0x10ffff); [done|].
    destruct (Z.geb_spec r 0xd800), (Z.leb_spec r 0xdfff); cbn [andb]; try done;
      (destruct (Z.leb_spec r 0xffff); [done|]); intros [= <- <-];
      (split; [unfold isScalar; lia|]); unfold utf8_of_scalar;
      (destruct (Z.ltb_spec r 0x80); [lia|]); (destruct (Z.ltb_spec r 0x800); [lia|]);
      (destruct (Z.ltb_spec r 0x10000); [lia|]);
      cbn [app]; repeat (f_equal; try divmod).
Qed.

Lemma getUtf8CodePoints_loop_sound fuel bytes codePoints :
  isBytes bytes →
  getUtf8CodePoints_loop fuel bytes = Return codePoints →
  Forall isScalar codePoints ∧ bytes = concat (map utf8_of_scalar codePoints).
Proof.
  revert bytes codePoints.
  induction fuel as [|fuel IH]; intros bytes cps Hbytes;
    (destruct bytes as [|c rest]; [intros [= <-]; by split|]); [done|].
  apply Forall_cons in Hbytes as [Hc Hrest].
  rewrite getUtf8CodePoints_loop_cons.
  destruct (Z.eqb_spec (Z.shiftr c 7) 0) as [Hascii|_].
  - destruct (getUtf8CodePoints_loop fuel rest) as [cps'|] eqn:Hloop; [|done].
    intros [= <-]. destruct (IH rest cps' Hrest Hloop) as [Hcps ->].
    revert Hascii. bits_to_arith. intros Hascii. unfold isByte in Hc.
    assert (c < 0x80) by divmod.
    split; [constructor; [unfold isScalar; lia|done]|].
    cbn [map concat]. unfold utf8_of_scalar. by destruct (Z.ltb_spec c 0x80); [|lia].
  - destruct (readMultibyte c rest) as [[res rest']|] eqn:Hread; [|done]. cbn [bind].
    destruct (readMultibyte_sound c rest res rest' Hc Hrest Hread) as [Hres Hsplit].
    assert (isBytes rest') as Hrest'.
    { assert (isBytes (c :: rest)) as Hall by by constructor.
      rewrite Hsplit in Hall. by apply Forall_app in Hall as [_ ?]. }
    destruct (getUtf8CodePoints_loop fuel rest') as [cps'|] eqn:Hloop; [|done].
    intros [= <-]. destruct (IH rest' cps' Hrest' Hloop) as [Hcps ->].
    split; [by constructor|]. by rewrite Hsplit.
Qed.

Lemma isWellFormed_cons c rest :
  isWellFormed (c :: rest) =
    if isLeadSurrogate c then
      match rest with
      | c2 :: rest' => isTrailSurrogate c2 && isWellFormed rest'
      | [] => false
      end
    else if isTrailSurrogate c then false
    else isWellFormed rest.
Proof. reflexivity. Qed.

(** The string of scalar values is well formed, and [TextEncoder] writes
    it as those scalar values in UTF-8. *)
Lemma fromCodePoints_encode codePoints :
  Forall isScalar codePoints →
  isString (concat (map fromCodePoint codePoints)) ∧
  isWellFormed (concat (map fromCodePoint codePoints)) = true ∧
  TextEncoder_encode (concat (map fromCodePoint codePoints)) =
    concat (map utf8_of_scalar codePoints).
Proof.
  induction 1 as [|cp cps [Hrange Hsur] _ (IHs & IHw & IHe)];
    [split; [constructor|by split]|].
  cbn [map concat]. unfold fromCodePoint at 1 3 5.
  destruct (Z.leb_spec cp 0xffff).
  - assert (isCodeUnit cp) as Hcp by (unfold isCodeUnit; lia).
    assert (isLeadSurrogate cp = false) as Hlead
      by (rewrite isLeadSurrogate_range by done; apply bool_decide_eq_false; lia).
    assert (isTrailSurrogate cp = false) as Htrail
      by (rewrite isTrailSurrogate_range by done; apply bool_decide_eq_false; lia).
    cbn [app]. rewrite isWellFormed_cons, TextEncoder_encode_cons, Hlead, Htrail.
    split; [by constructor|]. split; [done|]. by rewrite IHe.
  - bits_to_arith.
    remember ((cp - 65536) / 1024 mod 1024 + 55296) as h eqn:Hh.
    remember ((cp - 65536) mod 1024 + 56320) as l eqn:Hl.
    assert (0xd800 ≤ h < 0xdc00) as Hhr by divmod.
    assert (0xdc00 ≤ l < 0xe000) as Hlr by divmod.
    assert (pairScalar h l = cp) as Hpair by (unfold pairScalar; divmod).
    assert (isCodeUnit h) as Hhu by (unfold isCodeUnit; lia).
    assert (isCodeUnit l) as Hlu by (unfold isCodeUnit; lia).
    assert (isLeadSurrogate h = true) as Hlead
      by (rewrite isLeadSurrogate_range by done; by apply bool_decide_eq_true).
    assert (isTrailSurrogate l = true) as Htrail
      by (rewrite isTrailSurrogate_range by done; by apply bool_decide_eq_true).
    cbn [app]. rewrite isWellFormed_cons, TextEncoder_encode_cons, Hlead, Htrail, Hpair.
    split; [constructor; [done|by constructor]|]. split; [done|]. by rewrite IHe.
Qed.

(** What [toUtf8String] returns is well formed, and the bytes it read are
    that string in UTF-8. *)
Lemma toUtf8String_sound bytes text :
  isBytes bytes → toUtf8String bytes = Return text →
  isString text ∧ isWellFormed text = true ∧ TextEncoder_encode text = bytes.
Proof.
  intros Hbytes. unfold toUtf8String, getUtf8CodePoints.
  destruct (getUtf8CodePoints_loop _ bytes) as [cps|] eqn:Hloop; [|done].
  intros [= <-].
  destruct (getUtf8CodePoints_loop_sound _ bytes cps Hbytes Hloop) as [Hcps ->].
  by apply fromCodePoints_encode.
Qed.

(** A well-formed text that ends in U+0000 is written with a null byte last. *)
Lemma TextEncoder_last_nul s :
  isString s → isWellFormed s = true → last s = Some 0 →
  last (TextEncoder_encode s) = Some 0.
Proof.
  induction s as [|c|c c2 rest IH1 IH2] using string_pair_ind; intros Hs Hwf Hlast.
  - done.
  - by injection Hlast as ->.
  - apply Forall_cons in Hs as [Hc Hs]. pose proof Hs as Hs'.
    apply Forall_cons in Hs' as [Hc2 Hrest].
    rewrite last_cons_cons in Hlast.
    rewrite isWellFormed_cons in Hwf. rewrite TextEncoder_encode_cons.
    destruct (isLeadSurrogate c) eqn:Hlead.
    + apply andb_prop in Hwf as [Htrail Hwf]. rewrite Htrail.
      destruct rest as [|c3 rest].
      * injection Hlast as ->. done.
      * rewrite last_cons_cons in Hlast. rewrite last_app, IH1; done.
    + destruct (isTrailSurrogate c) eqn:Htrail; [done|].
      rewrite last_app, IH2; done.
Qed.
End Utf8Decode.

(** ** Hex strings and big-endian bytes *)

Section Hex.
Import JS Ethers.

Lemma hexValue_hexChar d : 0 ≤ d < 16 → hexValue (hexChar d) = Some d.
Proof. revert d. by_Zbelow. Qed.

Lemma hexValue_nibbles v :
  0 ≤ v < 256 →
  hexValue (hexChar (Z.shiftr (Z.land v 0xf0) 4)) = Some (v / 16) ∧
  hexValue (hexChar (Z.land v 0x0f)) = Some (v mod 16).
Proof. revert v. by_Zbelow. Qed.

Lemma parseHexPairs_hexPairs data :
  isBytes data → parseHexPairs (hexPairs data) = Some data.
Proof.
  induction 1 as [|v data Hv _ IH]; [done|].
  unfold hexPairs in *. cbn [map concat app parseHexPairs].
  destruct (hexValue_nibbles v Hv) as [-> ->]. rewrite IH.
  do 2 f_equal. unfold isByte in Hv. divmod.
Qed.

Lemma getBytes_hexlify data : isBytes data → getBytes (hexlify data) = Return data.
Proof.
  intros Hdata. unfold getBytes, hexlify. cbn [prefix0x app stripPrefix0x].
  cbn [Z.eqb Pos.eqb andb].
  by rewrite parseHexPairs_hexPairs.
Qed.

Lemma mapM_hexPairs data :
  isBytes data →
  mapM hexValue (hexPairs data) = Some (concat (map (λ v, [v / 16; v mod 16]) data)).
Proof.
  induction 1 as [|v data Hv _ IH]; [done|].
  unfold hexPairs in *. cbn [map concat app].
  cbn [mapM]. destruct (hexValue_nibbles v Hv) as [-> ->]. cbn.
  unfold hexPairs in IH. by rewrite IH.
Qed.

Lemma fold_nibbles data acc :
  isBytes data →
  fold_left (λ acc x, acc * 16 + x) (concat (map (λ v, [v / 16; v mod 16]) data)) acc =
  fold_left (λ acc b, acc * 256 + b) data acc.
Proof.
  intros Hdata. revert acc. induction Hdata as [|v data Hv _ IH]; intros acc; [done|].
  cbn [map concat app fold_left]. rewrite IH. f_equal. unfold isByte in Hv. divmod.
Qed.

Lemma BigInt_hexlify data :
  isBytes data → data ≠ [] → BigInt (hexlify data) = Return (fromBigEndian data).
Proof.
  intros Hdata Hne. unfold BigInt, hexlify. cbn [prefix0x app stripPrefix0x].
  cbn [Z.eqb Pos.eqb andb].
  pose proof (mapM_hexPairs data Hdata) as HmapM.
  destruct data as [|v data]; [done|].
  unfold hexPairs in *. cbn [map concat app] in HmapM |- *.
  rewrite HmapM. unfold fromBigEndian. by rewrite <- fold_nibbles.
Qed.

Lemma fromBigEndian_snoc data b :
  fromBigEndian (data ++ [b]) = fromBigEndian data * 256 + b.
Proof. unfold fromBigEndian. by rewrite fold_left_app. Qed.

Lemma fromBigEndian_range data :
  isBytes data → 0 ≤ fromBigEndian data < 2 ^ (8 * Z.of_nat (length data)).
Proof.
  induction data as [|b data IH] using rev_ind; intros Hdata; [done|].
  apply Forall_app in Hdata as [Hdata Hb]. apply Forall_cons in Hb as [Hb _].
  specialize (IH Hdata). unfold isByte in Hb.
  rewrite fromBigEndian_snoc, length_app, Nat2Z.inj_add.
  replace (8 * (Z.of_nat (length data) + Z.of_nat (length [b])))
    with (8 * Z.of_nat (length data) + 8) by (cbn [length]; lia).
  rewrite Z.pow_add_r by lia. change (2 ^ 8) with 256.
  generalize dependent (2 ^ (8 * Z.of_nat (length data))). intros; lia.
Qed.

Lemma bigEndian_S n value :
  bigEndian (S n) value = bigEndian n (value / 256) ++ [value mod 256].
Proof.
  unfold bigEndian. rewrite seq_S, map_app. cbn [map Nat.add]. f_equal.
  - apply map_ext_in. intros i Hi%in_seq.
    replace (value / 256) with (Z.shiftr value 8) by (by rewrite Z.shiftr_div_pow2).
    rewrite Z.shiftr_shiftr by lia.
    do 2 f_equal. lia.
  - replace (S n - 1 - n)%nat with 0%nat by lia.
    by rewrite Z.shiftr_0_r, land_ff.
Qed.

Lemma bigEndian_fromBigEndian data :
  isBytes data → bigEndian (length data) (fromBigEndian data) = data.
Proof.
  induction data as [|b data IH] using rev_ind; intros Hdata; [done|].
  apply Forall_app in Hdata as [Hdata Hb]. apply Forall_cons in Hb as [Hb _].
  unfold isByte in Hb.
  rewrite length_app, Nat.add_1_r, bigEndian_S, fromBigEndian_snoc.
  replace ((fromBigEndian data * 256 + b) / 256) with (fromBigEndian data) by divmod.
  replace ((fromBigEndian data * 256 + b) mod 256) with b by divmod.
  by rewrite IH.
Qed.

Lemma bigEndian_bytes n value : isBytes (bigEndian n value).
Proof.
  unfold bigEndian, isBytes. apply Forall_map, Forall_forall. intros i _.
  unfold isByte. rewrite land_ff. divmod.
Qed.

Lemma bigEndian_length n value : length (bigEndian n value) = n.
Proof. unfold bigEndian. by rewrite length_map, length_seq. Qed.

Lemma hexLength_pos value : (0 < hexLength value)%nat.
Proof.
  unfold hexLength. destruct (value =? 0); [lia|].
  pose proof (Z.log2_nonneg value). apply Nat2Z.inj_lt. rewrite Z2Nat.id; divmod.
Qed.

Lemma hexLength_le value n :
  (0 < n)%nat → 0 ≤ value < 2 ^ (8 * Z.of_nat n) → (hexLength value ≤ n * 2)%nat.
Proof.
  intros Hn Hvalue. unfold hexLength.
  destruct (Z.eqb_spec value 0); [lia|].
  assert (Z.log2 value < 8 * Z.of_nat n) by (apply Z.log2_lt_pow2; lia).
  pose proof (Z.log2_nonneg value).
  apply Nat2Z.inj_le. rewrite Z2Nat.id; divmod.
Qed.

(** Above its leading digit a value has only zeros. *)
Lemma shiftr_above value shift :
  0 ≤ value → 4 * Z.of_nat (hexLength value) ≤ shift → Z.shiftr value shift = 0.
Proof.
  intros Hvalue Hshift. unfold hexLength in Hshift.
  destruct (Z.eqb_spec value 0) as [->|]; [apply Z.shiftr_0_l|].
  pose proof (Z.log2_nonneg value).
  apply Z.shiftr_eq_0; [done|]. rewrite Z2Nat.id in Hshift; divmod.
Qed.

Lemma map_seq_const {A} (f : nat → A) j k y :
  (∀ i, (j ≤ i < j + k)%nat → f i = y) → map f (seq j k) = replicate k y.
Proof.
  induction k as [|k IH]; intros Hf; [done|].
  rewrite seq_S, map_app, IH by (intros; apply Hf; lia).
  cbn [map]. rewrite Hf by lia. by rewrite replicate_S_end.
Qed.

Lemma map_seq_shift {A} (f g : nat → A) j len :
  (∀ i, (i < len)%nat → f (j + i)%nat = g i) → map f (seq j len) = map g (seq 0 len).
Proof.
  induction len as [|len IH]; intros Hfg; [done|].
  rewrite !seq_S, !map_app, IH by (intros; apply Hfg; lia).
  cbn [map Nat.add]. by rewrite Hfg by lia.
Qed.

Lemma map_seq_double {A} (f : nat → A) n :
  map f (seq 0 (n * 2)) =
    concat (map (λ i, [f (2 * i)%nat; f (2 * i + 1)%nat]) (seq 0 n)).
Proof.
  induction n as [|n IH]; [done|].
  replace (S n * 2)%nat with (S (S (n * 2))) by lia.
  rewrite !seq_S, !map_app, concat_app, <- IH. cbn [map concat app Nat.add].
  rewrite <- app_assoc. cbn [app].
  replace (2 * n)%nat with (n * 2)%nat by lia.
  by replace (n * 2 + 1)%nat with (S (n * 2)) by lia.
Qed.

(** [toString(16)] padded with zeros on the left: the digits of the
    value at the padded width. *)
Lemma hexDigits_padded value width :
  0 ≤ value → (hexLength value ≤ width)%nat →
  replicate (width - hexLength value) 0 ++ hexDigits value =
    map (hexDigit value width) (seq 0 width).
Proof.
  intros Hvalue Hlen. pose proof (hexLength_pos value) as Hpos.
  unfold hexDigits.
  remember (width - hexLength value)%nat as pad eqn:Hpad.
  assert (width = (pad + hexLength value)%nat) as -> by lia. clear Hpad Hlen.
  rewrite seq_app, map_app. f_equal.
  - symmetry. apply map_seq_const. intros i Hi.
    unfold hexDigit. rewrite shiftr_above; [done..|]. lia.
  - symmetry. apply map_seq_shift. intros i Hi.
    unfold hexDigit. do 3 f_equal. lia.
Qed.

(** Two digits of a value make one of its bytes. *)
Lemma hexDigit_byte value n i :
  (i < n)%nat →
  let byte := Z.land (Z.shiftr value (8 * Z.of_nat (n - 1 - i))) 0xff in
  hexDigit value (n * 2) (2 * i) = Z.shiftr (Z.land byte 0xf0) 4 ∧
  hexDigit value (n * 2) (2 * i + 1) = Z.land byte 0x0f.
Proof.
  intros Hi byte. unfold byte, hexDigit.
  rewrite <- !Z.land_assoc. change (Z.land 0xff 0xf0) with 0xf0.
  change (Z.land 0xff 0x0f) with 0xf.
  rewrite Z.shiftr_land, Z.shiftr_shiftr by lia. change (Z.shiftr 0xf0 4) with 0xf.
  split; do 2 f_equal; lia.
Qed.

(** [toBeHex(value, n)] writes the [n] big-endian bytes of the value. *)
Lemma toBeHex_bigEndian value n :
  (0 < n)%nat → 0 ≤ value < 2 ^ (8 * Z.of_nat n) →
  toBeHex value n = Return (hexlify (bigEndian n value)).
Proof.
  intros Hn Hvalue. unfold toBeHex.
  destruct (Z.ltb_spec value 0); [lia|].
  pose proof (hexLength_le value n Hn Hvalue) as Hlen.
  assert (length (hexDigits value) = hexLength value) as ->
    by (unfold hexDigits; by rewrite length_map, length_seq).
  destruct (Nat.leb_spec (hexLength value) (n * 2)); [|lia]. cbn [negb].
  rewrite hexDigits_padded by lia.
  unfold hexlify, hexPairs, bigEndian. do 2 f_equal.
  rewrite !map_map, map_seq_double. f_equal.
  apply map_ext_in. intros i Hi%in_seq.
  destruct (hexDigit_byte value n i) as [-> ->]; [lia|done].
Qed.
End Hex.

(** ** bytes32 strings *)

Section Bytes32.
Import JS Ethers.

Lemma nullTermination_padded bytes pad len :
  last bytes ≠ Some 0 →
  (length bytes ≤ len ≤ length bytes + pad)%nat →
  nullTermination (bytes ++ replicate pad 0) len = length bytes.
Proof.
  intros Hlast. induction len as [|len IH]; intros Hlen; cbn [nullTermination].
  - lia.
  - destruct (decide (len < length bytes)%nat) as [Hlt|Hge].
    + assert (length bytes = S len) as Hl by lia.
      rewrite lookup_app_l by done.
      rewrite last_lookup, Hl in Hlast. cbn [pred] in Hlast.
      destruct (bytes !! len) as [b|]; [|done].
      destruct (Z.eqb_spec b 0) as [->|]; done.
    + rewrite lookup_app_r, lookup_replicate_2 by lia.
      cbn. apply IH. lia.
Qed.

Lemma nullTermination_spec data len :
  (len ≤ length data)%nat →
  (nullTermination data len ≤ len)%nat ∧
  (∀ i, (nullTermination data len ≤ i < len)%nat → data !! i = Some 0) ∧
  last (take (nullTermination data len) data) ≠ Some 0.
Proof.
  induction len as [|len IH]; intros Hlen; cbn [nullTermination].
  - split; [lia|]. split; [intros; lia|]. by rewrite take_0.
  - destruct (data !! len) as [b|] eqn:Hb.
    + destruct (Z.eqb_spec b 0) as [->|Hne].
      * destruct IH as (Hle & Hzero & Hlast); [lia|].
        split; [lia|]. split; [|done].
        intros i Hi. destruct (decide (i = len)) as [->|]; [done|]. apply Hzero. lia.
      * split; [lia|]. split; [intros; lia|].
        rewrite last_lookup, length_take, Nat.min_l by lia. cbn [pred].
        rewrite lookup_take_lt by lia. rewrite Hb. congruence.
    + apply lookup_ge_None in Hb. lia.
Qed.

Lemma decodeBytes32String_hexlify data :
  isBytes data → length data = 32%nat →
  decodeBytes32String (hexlify data) =
    if bool_decide (data !! 31%nat = Some 0)
    then toUtf8String (take (nullTermination data 31) data)
    else Throw Bytes32Error.
Proof.
  intros Hdata Hlen. unfold decodeBytes32String.
  rewrite getBytes_hexlify by done. cbn [bind]. rewrite Hlen. cbn [Nat.eqb negb].
  by case_bool_decide.
Qed.

(** The text bytes of 32 bytes that end in a null byte. *)
Lemma bytes32_split data :
  length data = 32%nat → data !! 31%nat = Some 0 →
  let bytes := take (nullTermination data 31) data in
  (length bytes ≤ 31)%nat ∧ last bytes ≠ Some 0 ∧
  data = bytes ++ replicate (32 - length bytes) 0.
Proof.
  intros Hlen H31 bytes.
  destruct (nullTermination_spec data 31) as (Hle & Hzero & Hlast); [lia|].
  assert (length bytes = nullTermination data 31) as Hbytes
    by (unfold bytes; rewrite length_take; lia).
  split; [lia|]. split; [done|].
  rewrite <- (take_drop (nullTermination data 31) data) at 1. fold bytes. f_equal.
  symmetry. apply replicate_as_Forall_2.
  - rewrite length_drop. lia.
  - apply Forall_lookup. intros i b. rewrite lookup_drop. intros Hb.
    assert (nullTermination data 31 + i < 32)%nat
      by (apply lookup_lt_Some in Hb; lia).
    destruct (decide (nullTermination data 31 + i = 31)%nat) as [Heq|].
    + rewrite Heq in Hb. congruence.
    + rewrite Hzero in Hb by lia. congruence.
Qed.

(** [decodeBytes32String] returns a text exactly for the bytes32 string
    of that text. *)
Lemma decodeBytes32String_text data text :
  isBytes data → length data = 32%nat →
  decodeBytes32String (hexlify data) = Return text ↔ isBytes32String data text.
Proof.
  intros Hdata Hlen. rewrite decodeBytes32String_hexlify by done. split.
  - case_bool_decide as H31; [|done]. intros Htext.
    destruct (bytes32_split data Hlen H31) as (Hle & Hlast & Hsplit).
    assert (isBytes (take (nullTermination data 31) data)) as Hbytes
      by by apply Forall_take.
    destruct (toUtf8String_sound _ text Hbytes Htext) as (Hs & Hwf & Henc).
    unfold isBytes32String. rewrite Henc.
    split; [done|]. split; [done|]. split; [|done].
    intros Hnul. apply Hlast. rewrite <- Henc. by apply TextEncoder_last_nul.
  - intros (Hs & Hwf & Hlast & Hle & ->).
    rewrite bool_decide_eq_true_2.
    + rewrite nullTermination_padded, take_app_length; [|by apply TextEncoder_last|lia].
      by apply toUtf8String_encode.
    + rewrite lookup_app_r, lookup_replicate_2 by lia. done.
Qed.
End Bytes32.

(** ** The client's codec *)

Section ClientFacts.
Import JS Ethers Client.

Lemma fromBigEndian_bigEndian n value :
  0 ≤ value < 2 ^ (8 * Z.of_nat n) → fromBigEndian (bigEndian n value) = value.
Proof.
  revert value. induction n as [|n IH]; intros value Hvalue.
  - cbn in *. lia.
  - rewrite bigEndian_S, fromBigEndian_snoc, IH; [divmod|].
    replace (8 * Z.of_nat (S n)) with (8 * Z.of_nat n + 8) in Hvalue by lia.
    rewrite Z.pow_add_r in Hvalue by lia. change (2 ^ 8) with 256 in Hvalue.
    generalize dependent (2 ^ (8 * Z.of_nat n)). intros; divmod.
Qed.

(** What [encodeSecretToUint256] returns for bytes that fit: the value
    of the bytes padded to 32. *)
Lemma encodeSecretToUint256_bytes s bytes :
  1 ≤ Buffer_byteLength s ≤ 31 →
  toUtf8Bytes s = Return bytes → isBytes bytes →
  Z.of_nat (length bytes) = Buffer_byteLength s →
  encodeSecretToUint256 s =
    Return (fromBigEndian (bytes ++ replicate (32 - length bytes) 0)).
Proof.
  intros Hrange Hbytes Hbs Hlen. unfold encodeSecretToUint256, MAX_SECRET_BYTES.
  destruct (Z.eqb_spec (Buffer_byteLength s) 0); [lia|].
  destruct (Z.gtb_spec (Buffer_byteLength s) 31); [lia|].
  unfold encodeBytes32String, zeroPadBytes. rewrite Hbytes. cbn [bind].
  destruct (Nat.ltb_spec 31 (length bytes)); [lia|].
  destruct (Nat.ltb_spec 32 (length bytes)); [lia|]. cbn [bind].
  apply BigInt_hexlify.
  - apply Forall_app. split; [done|]. apply Forall_replicate. unfold isByte. lia.
  - destruct bytes; [cbn in Hlen; lia|done].
Qed.

Lemma padded_bytes bytes :
  isBytes bytes → (length bytes ≤ 32)%nat →
  isBytes (bytes ++ replicate (32 - length bytes) 0) ∧
  length (bytes ++ replicate (32 - length bytes) 0) = 32%nat.
Proof.
  intros Hbs Hlen. split.
  - apply Forall_app. split; [done|]. apply Forall_replicate. unfold isByte. lia.
  - rewrite length_app, length_replicate. lia.
Qed.

(** [toBeHex(value, 32)] of the value of 32 bytes writes those bytes. *)
Lemma toBeHex_fromBigEndian data :
  isBytes data → length data = 32%nat →
  toBeHex (fromBigEndian data) 32 = Return (hexlify data).
Proof.
  intros Hdata Hlen. pose proof (fromBigEndian_range data Hdata) as Hrange.
  rewrite Hlen in Hrange.
  rewrite toBeHex_bigEndian by (done || lia).
  by rewrite <- Hlen, bigEndian_fromBigEndian.
Qed.

Lemma encodeSecretToUint256_empty s :
  Buffer_byteLength s = 0 → encodeSecretToUint256 s = Throw SecretEmpty.
Proof. intros H0. unfold encodeSecretToUint256. by rewrite H0. Qed.

Lemma encodeSecretToUint256_too_long s :
  31 < Buffer_byteLength s → encodeSecretToUint256 s = Throw SecretTooLong.
Proof.
  intros H31. unfold encodeSecretToUint256, MAX_SECRET_BYTES.
  destruct (Z.eqb_spec (Buffer_byteLength s) 0); [lia|].
  by destruct (Z.gtb_spec (Buffer_byteLength s) 31); [|lia].
Qed.

(** Past the two length checks the UI and the task do the same. *)
Lemma encodeSecretToUint256_in_range s :
  1 ≤ Buffer_byteLength s ≤ 31 →
  encodeSecretToUint256 s = bind (encodeBytes32String s) BigInt.
Proof.
  intros Hrange. unfold encodeSecretToUint256, MAX_SECRET_BYTES.
  destruct (Z.eqb_spec (Buffer_byteLength s) 0); [lia|].
  by destruct (Z.gtb_spec (Buffer_byteLength s) 31); [lia|].
Qed.

Lemma encodeBytes32String_unpaired s :
  isString s → leadSurrogatesPaired s = false →
  encodeBytes32String s = Throw InvalidArgument.
Proof. intros Hs Hp. unfold encodeBytes32String. by rewrite toUtf8Bytes_unpaired. Qed.

(** The secrets [encodeSecretToUint256] accepts. *)
Lemma encodeSecretToUint256_accepts s :
  isString s →
  (∃ value, encodeSecretToUint256 s = Return value) ↔
    1 ≤ Buffer_byteLength s ≤ 31 ∧ leadSurrogatesPaired s = true.
Proof.
  intros Hs. pose proof (Buffer_byteLength_nonneg s) as Hnonneg. split.
  - intros [value Hvalue].
    destruct (decide (Buffer_byteLength s = 0)) as [H0|];
      [by rewrite encodeSecretToUint256_empty in Hvalue|].
    destruct (decide (31 < Buffer_byteLength s)) as [H31|];
      [by rewrite encodeSecretToUint256_too_long in Hvalue|].
    split; [lia|].
    destruct (leadSurrogatesPaired s) eqn:Hp; [done|].
    rewrite encodeSecretToUint256_in_range in Hvalue by lia.
    by rewrite encodeBytes32String_unpaired in Hvalue.
  - intros [Hrange Hp].
    destruct (toUtf8Bytes_paired s Hs Hp) as (bytes & Hbytes & Hlen & Hbs & _).
    eexists. by apply (encodeSecretToUint256_bytes s bytes).
Qed.

(** A secret that comes back unchanged is well formed and does not end in
    U+0000: neither condition of the round trip can be dropped. *)
Lemma roundtrip_only_wellformed s value :
  isString s →
  encodeSecretToUint256 s = Return value →
  decodeSecretFromUint256 value = Return s →
  isWellFormed s = true ∧ last s ≠ Some 0.
Proof.
  intros Hs Hvalue Hback.
  destruct (proj1 (encodeSecretToUint256_accepts s Hs)) as [Hrange Hp]; [by eexists|].
  destruct (toUtf8Bytes_paired s Hs Hp) as (bytes & Hbytes & Hlen & Hbs & _).
  rewrite (encodeSecretToUint256_bytes s bytes) in Hvalue by done.
  injection Hvalue as <-.
  destruct (padded_bytes bytes Hbs) as [Hdata Hdlen]; [lia|].
  unfold decodeSecretFromUint256 in Hback.
  rewrite toBeHex_fromBigEndian in Hback by done. cbn [bind] in Hback.
  apply decodeBytes32String_text in Hback; [|done..].
  destruct Hback as (_ & Hwf & Hlast & _). by split.
Qed.

(** C10. For a value below [2^256], [decodeSecretValue] returns without
    throwing. With the 32 big-endian bytes of the value, which are what
    [toBeHex] writes: when they are the bytes32 string of a text (its
    UTF-8 bytes, then null bytes, at least one) it returns that text, and
    when they are the bytes32 string of no text it returns the hex
    string of the 32 bytes. *)
Theorem decodeSecretValue_total value :
  0 ≤ value < 2 ^ 256 →
  ∃ result,
    decodeSecretValue value = Return result ∧
    toBeHex (normalizeBigInt value) 32 = Return (hexlify (bigEndian 32 value)) ∧
    (∀ text, isBytes32String (bigEndian 32 value) text → result = text) ∧
    ((∀ text, ¬ isBytes32String (bigEndian 32 value) text) →
       result = hexlify (bigEndian 32 value)).
Proof.
  intros Hvalue. unfold decodeSecretValue, normalizeBigInt.
  rewrite toBeHex_bigEndian by (done || lia). cbn [bind].
  pose proof (bigEndian_bytes 32 value) as Hdata.
  pose proof (bigEndian_length 32 value) as Hlen.
  pose proof (decodeBytes32String_text (bigEndian 32 value)) as Htext.
  eexists. split; [done|]. split; [done|].
  destruct (decodeBytes32String (hexlify (bigEndian 32 value))) as [text|e];
    cbn [try_catch].
  - split.
    + intros text' Ht'. apply Htext in Ht'; [|done..]. congruence.
    + intros Hnone. exfalso. apply (Hnone text). by apply Htext.
  - split; [|done].
    intros text' Ht'. apply Htext in Ht'; done.
Qed.
End ClientFacts.

(** ** Addresses *)

Section AddressChars.
Import JS Ethers Address.

Lemma toLowerCase_ascii c : ¬ (0 ≤ c < 128) → toLowerCase c = c.
Proof.
  intros Hc. unfold toLowerCase.
  destruct (Z.leb_spec 65 c); [|done]. destruct (Z.leb_spec c 90); [lia|done].
Qed.

Lemma isHexDigit_ascii c : isHexDigit c = true → 0 ≤ c < 128.
Proof.
  unfold isHexDigit. rewrite !orb_true_iff, !andb_true_iff, !Z.leb_le. lia.
Qed.

Lemma hexValue_ascii c : ¬ (0 ≤ c < 128) → hexValue c = None.
Proof.
  intros Hc. unfold hexValue.
  destruct (Z.leb_spec 48 c); cbn [andb].
  - destruct (Z.leb_spec c 57); [lia|]. destruct (Z.leb_spec 97 c); cbn [andb].
    + destruct (Z.leb_spec c 102); [lia|]. destruct (Z.leb_spec 65 c); cbn [andb]; [|done].
      destruct (Z.leb_spec c 70); [lia|done].
    + destruct (Z.leb_spec 65 c); cbn [andb]; [|done].
      destruct (Z.leb_spec c 70); [lia|done].
  - destruct (Z.leb_spec 97 c); [lia|]. destruct (Z.leb_spec 65 c); [lia|done].
Qed.

Lemma toLowerCase_idemp c : toLowerCase (toLowerCase c) = toLowerCase c.
Proof.
  destruct (decide (0 ≤ c < 128)) as [Hc|Hc]; [revert c Hc; by_Zbelow|].
  by rewrite !(toLowerCase_ascii c) by done.
Qed.

Lemma hexValue_toLowerCase c : hexValue (toLowerCase c) = hexValue c.
Proof.
  destruct (decide (0 ≤ c < 128)) as [Hc|Hc]; [revert c Hc; by_Zbelow|].
  by rewrite (toLowerCase_ascii c) by done.
Qed.

Lemma isUpperHex_toLowerCase c : isUpperHex (toLowerCase c) = false.
Proof.
  destruct (decide (0 ≤ c < 128)) as [Hc|Hc]; [revert c Hc; by_Zbelow|].
  rewrite toLowerCase_ascii by done. unfold isUpperHex.
  destruct (Z.leb_spec 65 c); [|done]. destruct (Z.leb_spec c 70); [lia|done].
Qed.

Lemma isHexDigit_toLowerCase c : isHexDigit c = true → isHexDigit (toLowerCase c) = true.
Proof.
  intros Hc. pose proof (isHexDigit_ascii c Hc) as Hr. revert c Hr Hc. by_Zbelow.
Qed.

(** A hexadecimal digit in lower case is the character of its value. *)
Lemma isHexDigit_hexChar c :
  isHexDigit c = true →
  ∃ d, 0 ≤ d < 16 ∧ toLowerCase c = hexChar d.
Proof.
  intros Hc. pose proof (isHexDigit_ascii c Hc) as Hr.
  exists (if c <=? 57 then c - 48 else if c <=? 70 then c - 55 else c - 87).
  revert c Hr Hc. by_Zbelow.
Qed.

(** The case of a letter is the only thing the checksum changes. *)
Lemma toLowerCase_toUpperCase c :
  isHexDigit c = true →
  toLowerCase (toUpperCase (toLowerCase c)) = toLowerCase c ∧
  isHexDigit (toUpperCase (toLowerCase c)) = true.
Proof.
  intros Hc. pose proof (isHexDigit_ascii c Hc) as Hr. revert c Hr Hc. by_Zbelow.
Qed.

Lemma hexChar_nibbles v :
  0 ≤ v < 256 →
  hexChar (Z.shiftr (Z.land v 0xf0) 4) = hexChar (v / 16) ∧
  hexChar (Z.land v 0x0f) = hexChar (v mod 16).
Proof. revert v. by_Zbelow. Qed.

Lemma mapM_hexValue_toLowerCase (digits : string) :
  mapM hexValue (map toLowerCase digits) = mapM hexValue digits.
Proof.
  induction digits as [|c digits IH]; [done|].
  cbn [map mapM]. by rewrite hexValue_toLowerCase, IH.
Qed.

(** [BigInt] reads the digits in either case. *)
Lemma BigInt_toLowerCase (digits : string) :
  BigInt (prefix0x ++ map toLowerCase digits) = BigInt (prefix0x ++ digits).
Proof.
  unfold BigInt. cbn [prefix0x app stripPrefix0x]. cbn [Z.eqb Pos.eqb andb].
  pose proof (mapM_hexValue_toLowerCase digits) as HmapM.
  destruct digits as [|c digits]; [done|]. cbn [map] in *. by rewrite HmapM.
Qed.

(** Hexadecimal digits in lower case, two for each byte, are the digits
    [hexlify] writes for some bytes. *)
Lemma hexPairs_digits n : ∀ digits : string,
  length digits = (2 * n)%nat → forallb isHexDigit digits = true →
  ∃ data, isBytes data ∧ length data = n ∧ hexPairs data = map toLowerCase digits.
Proof.
  induction n as [|n IH]; intros digits Hlen Hhex.
  - destruct digits; [|cbn in Hlen; lia]. exists []. split; [constructor|done].
  - destruct digits as [|hi [|lo digits]]; [cbn in Hlen; lia..|].
    cbn [forallb] in Hhex. apply andb_true_iff in Hhex as [Hhi Hhex].
    apply andb_true_iff in Hhex as [Hlo Hhex].
    destruct (IH digits) as (data & Hdata & Hdlen & Hpairs); [cbn in Hlen; lia|done|].
    destruct (isHexDigit_hexChar hi Hhi) as (h & Hh & Hhc).
    destruct (isHexDigit_hexChar lo Hlo) as (l & Hl & Hlc).
    exists (h * 16 + l :: data).
    split; [constructor; [unfold isByte; lia|done]|]. split; [cbn; lia|].
    unfold hexPairs in *. cbn [map concat app]. rewrite Hpairs, Hhc, Hlc.
    destruct (hexChar_nibbles (h * 16 + l)) as [-> ->]; [lia|].
    do 2 f_equal; [|f_equal]; f_equal; divmod.
Qed.
End AddressChars.

Section AddressFacts.
Import JS Ethers Address.
Variable keccak256 : list Z → list Z.
Variable getIcapAddress : string → completion string.

Lemma stripPrefix0x_Some (s digits : string) :
  stripPrefix0x s = Some digits → s = prefix0x ++ digits.
Proof.
  destruct s as [|a [|b s]]; [done..|]. cbn [stripPrefix0x].
  destruct (Z.eqb_spec a 48) as [->|]; [|done].
  destruct (Z.eqb_spec b 120) as [->|]; [|done]. by intros [= ->].
Qed.

(** What [getAddress] goes on with when the string matches: "0x" and
    the 40 digits. *)
Lemma matchAddress_digits (address digits : string) :
  matchAddress address = Some digits →
  length digits = 40%nat ∧ forallb isHexDigit digits = true ∧
  (if startsWith0x address then address else prefix0x ++ address) = prefix0x ++ digits.
Proof.
  unfold matchAddress, startsWith0x.
  destruct (stripPrefix0x address) as [stripped|] eqn:Hstrip.
  - apply stripPrefix0x_Some in Hstrip as ->.
    destruct (Nat.eqb_spec (length stripped) 40); [|done].
    destruct (forallb isHexDigit stripped) eqn:Hhex; [|done]. by intros [= <-].
  - destruct (Nat.eqb_spec (length address) 40); [|done].
    destruct (forallb isHexDigit address) eqn:Hhex; [|done]. by intros [= <-].
Qed.

Lemma matchAddress_0x (digits : string) :
  length digits = 40%nat → forallb isHexDigit digits = true →
  matchAddress (prefix0x ++ digits) = Some digits.
Proof.
  intros Hlen Hhex. unfold matchAddress.
  change (stripPrefix0x (prefix0x ++ digits)) with (Some digits). cbv beta iota zeta.
  by rewrite Hlen, Hhex.
Qed.

Lemma map_toLowerCase_idemp (digits : string) :
  map toLowerCase (map toLowerCase digits) = map toLowerCase digits.
Proof. rewrite map_map. apply map_ext. intros c. apply toLowerCase_idemp. Qed.

(** The checksum address depends on the digits in lower case only. *)
Lemma getChecksumAddress_lower (digits digits' : string) :
  map toLowerCase digits = map toLowerCase digits' →
  getChecksumAddress keccak256 (prefix0x ++ digits) =
    getChecksumAddress keccak256 (prefix0x ++ digits').
Proof.
  intros Heq. unfold getChecksumAddress. by rewrite !map_app, Heq.
Qed.

Lemma checksum_case (up : nat → bool) (digits : string) :
  forallb isHexDigit digits = true →
  map toLowerCase
    (imap (λ i c, if up i then toUpperCase c else c) (map toLowerCase digits)) =
    map toLowerCase digits ∧
  forallb isHexDigit
    (imap (λ i c, if up i then toUpperCase c else c) (map toLowerCase digits)) = true.
Proof.
  revert up. induction digits as [|c digits IH]; intros up Hhex; [done|].
  cbn [forallb] in Hhex. apply andb_true_iff in Hhex as [Hc Hhex].
  destruct (IH (up ∘ S) Hhex) as [IHlower IHhex].
  destruct (toLowerCase_toUpperCase c Hc) as [Hlower Hupper].
  cbn [map imap forallb]. split.
  - f_equal; [|exact IHlower].
    destruct (up 0%nat); [done|apply toLowerCase_idemp].
  - apply andb_true_iff. split; [|exact IHhex].
    destruct (up 0%nat); [done|by apply isHexDigit_toLowerCase].
Qed.

(** The checksum address of 40 digits: "0x" and the same digits, in
    some case. *)
Lemma getChecksumAddress_digits (digits : string) :
  forallb isHexDigit digits = true →
  ∃ cs, getChecksumAddress keccak256 (prefix0x ++ digits) = prefix0x ++ cs ∧
        map toLowerCase cs = map toLowerCase digits ∧
        forallb isHexDigit cs = true ∧ length cs = length digits.
Proof.
  intros Hhex. unfold getChecksumAddress. rewrite map_app.
  change (drop 2 (map toLowerCase prefix0x ++ map toLowerCase digits))
    with (map toLowerCase digits).
  set (hashed := keccak256 _).
  destruct (checksum_case
              (λ i, (i <? 40)%nat && (checksumNibble hashed i >=? 8)) digits Hhex)
    as [Hlower Hcs].
  eexists. split; [done|]. split; [done|]. split; [done|].
  by rewrite length_imap, length_map.
Qed.

Lemma existsb_isUpperHex_lower (digits : string) :
  existsb isUpperHex (map toLowerCase digits) = false.
Proof.
  induction digits as [|c digits IH]; [done|].
  cbn [map existsb]. by rewrite isUpperHex_toLowerCase, IH.
Qed.

(** [getAddress] of an address it returned, and of the digits in lower
    case that [toBeHex] writes. *)
Lemma getAddress_again (digits cs : string) :
  length digits = 40%nat → forallb isHexDigit digits = true →
  getChecksumAddress keccak256 (prefix0x ++ digits) = prefix0x ++ cs →
  map toLowerCase cs = map toLowerCase digits →
  forallb isHexDigit cs = true → length cs = length digits →
  getAddress keccak256 getIcapAddress (prefix0x ++ cs) = Return (prefix0x ++ cs) ∧
  getAddress keccak256 getIcapAddress (prefix0x ++ map toLowerCase digits) =
    Return (prefix0x ++ cs).
Proof.
  intros Hlen Hhex Hsum Hlower Hcs Hcslen. split.
  - unfold getAddress. rewrite matchAddress_0x by (done || lia).
    change (startsWith0x (prefix0x ++ cs)) with true. cbv iota zeta.
    rewrite (getChecksumAddress_lower cs digits), Hsum by done.
    rewrite bool_decide_eq_true_2 by done. by rewrite orb_true_r.
  - assert (forallb isHexDigit (map toLowerCase digits) = true) as Hlow.
    { rewrite forallb_forall in *. intros c [c' [<- Hc']]%in_map_iff.
      by apply isHexDigit_toLowerCase, Hhex. }
    unfold getAddress. rewrite matchAddress_0x by (by rewrite ?length_map).
    change (startsWith0x (prefix0x ++ map toLowerCase digits)) with true.
    cbv iota zeta.
    rewrite (getChecksumAddress_lower _ digits), Hsum by apply map_toLowerCase_idemp.
    unfold hasMixedCase at 1.
    change (existsb isUpperHex (prefix0x ++ map toLowerCase digits))
      with (existsb isUpperHex (map toLowerCase digits)).
    by rewrite existsb_isUpperHex_lower.
Qed.

(** The address on the two paths: what [getAddress] returns for 40
    digits has a number below [2^160]; [toBeHex] writes that number as
    the digits in lower case, and [getAddress] of them is the address. *)
Lemma address_paths (key digits keyAddress : string) :
  matchAddress key = Some digits →
  getAddress keccak256 getIcapAddress key = Return keyAddress →
  keyAddress ≠ [] ∧
  ∃ value,
    0 ≤ value < 2 ^ 160 ∧
    BigInt (prefix0x ++ digits) = Return value ∧
    BigInt keyAddress = Return value ∧
    getAddress keccak256 getIcapAddress keyAddress = Return keyAddress ∧
    toBeHex value 20 = Return (prefix0x ++ map toLowerCase digits) ∧
    getAddress keccak256 getIcapAddress (prefix0x ++ map toLowerCase digits) =
      Return keyAddress.
Proof.
  intros Hmatch Hkey.
  destruct (matchAddress_digits key digits Hmatch) as (Hlen & Hhex & Hprefixed).
  destruct (getChecksumAddress_digits digits Hhex) as (cs & Hsum & Hlower & Hcs & Hcslen).
  assert (keyAddress = prefix0x ++ cs) as ->.
  { unfold getAddress in Hkey. rewrite Hmatch, Hprefixed, Hsum in Hkey.
    cbv zeta in Hkey. destruct (assertArgument _) in Hkey; [|done].
    cbn [bind] in Hkey. by injection Hkey as <-. }
  destruct (getAddress_again digits cs Hlen Hhex Hsum Hlower Hcs Hcslen) as [Hagain Hback].
  destruct (hexPairs_digits 20 digits) as (data & Hdata & Hdlen & Hpairs); [lia|done|].
  assert (BigInt (prefix0x ++ map toLowerCase digits) = Return (fromBigEndian data))
    as Hvalue.
  { rewrite <- Hpairs. apply (BigInt_hexlify data Hdata). by destruct data. }
  split; [done|]. exists (fromBigEndian data).
  split; [pose proof (fromBigEndian_range data Hdata) as Hr; by rewrite Hdlen in Hr|].
  split; [by rewrite <- BigInt_toLowerCase|].
  split; [by rewrite <- BigInt_toLowerCase, Hlower|].
  split; [done|]. split; [|done].
  pose proof (fromBigEndian_range data Hdata) as Hr. rewrite Hdlen in Hr.
  rewrite toBeHex_bigEndian by (done || lia).
  rewrite <- Hdlen, bigEndian_fromBigEndian by done.
  unfold hexlify. by rewrite Hpairs.
Qed.
End AddressFacts.

(** ** The order of the store action *)


Section ScriptFacts.
Import JS Ethers Client Script.
Variable keccak256 : list Z → list Z.
Variable getIcapAddress : string → completion string.
Variable CONTRACT_ADDRESS : string.






End ScriptFacts.

(** ** The round trip and the validation of the client *)

Section ClientTheorems.
Import JS Ethers Client Script.
Variable keccak256 : list Z → list Z.
Variable getIcapAddress : string → completion string.
Variable CONTRACT_ADDRESS : string.

(** C1, as amended. A secret of 1 to 31 bytes that is well formed (no
    unpaired surrogate) and does not end in U+0000 is returned unchanged
    by [decodeSecretFromUint256] (and by the UI's [decodeSecretValue])
    from what [encodeSecretToUint256] made of it; a 20-byte address
    value is the value of the 20 bytes that [toBeHex(value, 20)] writes;
    and the address is recovered unchanged by the store-then-decrypt
    path: for a key of 40 hexadecimal digits, the address that
    [getAddress] makes of it on the store path (an address [getAddress]
    returned, as that of a wallet, is taken as it is) is encrypted as a
    number below [2^160], the number of the digits, and from that number,
    come back as a [bigint] or as a hexadecimal string, the decrypt path
    ([getAddress(toBeHex(BigInt(clearKey), 20))] in the task,
    [decodeAddressValue] in the UI) returns the same address, letter for
    letter. *)
Theorem secret_roundtrip s address :
  isString s → isWellFormed s = true → last s ≠ Some 0 →
  1 ≤ Buffer_byteLength s ≤ 31 →
  0 ≤ address < 2 ^ 160 →
  (∃ value,
     encodeSecretToUint256 s = Return value ∧
     0 ≤ value < 2 ^ 256 ∧
     decodeSecretFromUint256 value = Return s ∧
     decodeSecretValue value = Return s) ∧
  (∃ addressHex,
     toBeHex (Client.normalizeBigInt address) 20 = Return addressHex ∧
     addressBytes address = Return (bigEndian 20 address) ∧
     BigInt addressHex = Return address) ∧
  (∀ key digits keyAddress,
     Address.matchAddress key = Some digits →
     Address.getAddress keccak256 getIcapAddress key = Return keyAddress →
     ∃ keyValue,
       Address.addAddress keccak256 getIcapAddress keyAddress = Return keyValue ∧
       0 ≤ keyValue < 2 ^ 160 ∧
       BigInt (prefix0x ++ digits) = Return keyValue ∧
       Address.getAddress keccak256 getIcapAddress keyAddress = Return keyAddress ∧
       ∀ clearKey,
         Address.normalizeBigInt clearKey = Return keyValue →
         Address.decryptedAddress keccak256 getIcapAddress clearKey = Return keyAddress ∧
         Address.decodeAddressValue keccak256 getIcapAddress clearKey = Return keyAddress).
Proof.
  intros Hs Hwf Hlast Hrange Haddress. split; [|split].
  - destruct (toUtf8Bytes_paired s Hs (wellFormed_paired s Hwf))
      as (bytes & Hbytes & Hlen & Hbs & Henc).
    specialize (Henc Hwf). subst bytes.
    set (bytes := TextEncoder_encode s) in *.
    set (data := bytes ++ replicate (32 - length bytes) 0).
    destruct (padded_bytes bytes Hbs) as [Hdata Hdlen]; [lia|]. fold data in Hdata, Hdlen.
    exists (fromBigEndian data).
    assert (decodeBytes32String (hexlify data) = Return s) as Hdecode.
    { apply decodeBytes32String_text; [done..|]. unfold isBytes32String. fold bytes.
      split; [done|]. split; [done|]. split; [done|]. split; [lia|done]. }
    split; [by apply encodeSecretToUint256_bytes|].
    split; [pose proof (fromBigEndian_range data Hdata) as Hr; by rewrite Hdlen in Hr|].
    unfold decodeSecretFromUint256, decodeSecretValue, Client.normalizeBigInt.
    rewrite toBeHex_fromBigEndian by done. cbn [bind]. by rewrite Hdecode.
  - unfold addressBytes, Client.normalizeBigInt.
    rewrite toBeHex_bigEndian by (done || lia).
    eexists. split; [done|]. cbn [bind].
    rewrite getBytes_hexlify by apply bigEndian_bytes. split; [done|].
    rewrite BigInt_hexlify; [|apply bigEndian_bytes|done].
    by rewrite fromBigEndian_bigEndian.
  - intros key digits keyAddress Hmatch Hkey.
    destruct (address_paths keccak256 getIcapAddress key digits keyAddress Hmatch Hkey)
      as (Hne & keyValue & Hvalue & Hdigits & Hnumber & Hagain & Hhex & Hback).
    exists keyValue.
    split; [unfold Address.addAddress; by rewrite Hagain|].
    split; [done|]. split; [done|]. split; [done|].
    intros clearKey Hclear.
    unfold Address.decryptedAddress, Address.decodeAddressValue.
    assert (match clearKey with
            | Address.ClearBigInt value => Return value
            | Address.ClearString value => BigInt value
            end = Return keyValue) as ->.
    { destruct clearKey as [value|value]; [done|]. cbn [Address.normalizeBigInt] in Hclear.
      by destruct (Address.startsWith0x value). }
    rewrite Hclear. cbn [bind]. rewrite Hhex. cbn [bind]. by rewrite Hback.
Qed.

End ClientTheorems.

(** ** Instances *)

Section Instances.
Import JS Ethers Client Samples Vault VaultSamples.

Lemma vault_secret_string : isString vault_secret.
Proof. unfold vault_secret. repeat (constructor; [unfold isCodeUnit; lia|]). constructor. Qed.

(** C1 as stated fails on "a" followed by U+0000: a well-formed secret
    of 2 bytes that comes back as "a". *)
Lemma secret_roundtrip_fails_on_trailing_nul :
  isString a_nul ∧
  isWellFormed a_nul = true ∧
  Buffer_byteLength a_nul = 2 ∧
  bind (encodeSecretToUint256 a_nul) decodeSecretFromUint256 = Return [97] ∧
  bind (encodeSecretToUint256 a_nul) decodeSecretFromUint256 ≠ Return a_nul.
Proof.
  assert (bind (encodeSecretToUint256 a_nul) decodeSecretFromUint256 = Return [97])
    as Hdecoded by (vm_compute; reflexivity).
  split; [repeat (constructor; [unfold isCodeUnit; lia|]); constructor|].
  split; [reflexivity|]. split; [reflexivity|]. split; [exact Hdecoded|].
  rewrite Hdecoded. discriminate.
Qed.

(** A secret with a surrogate pair, a two-byte and a three-byte character
    comes back unchanged; a trail surrogate alone is encoded, but what
    comes back for it is the hex string. *)
Example mixed_roundtrip :
  bind (encodeSecretToUint256 mixed) decodeSecretFromUint256 = Return mixed.
Proof. vm_compute. reflexivity. Qed.

Example lone_trail_not_decoded :
  Buffer_byteLength lone_trail = 3 ∧
  bind (encodeSecretToUint256 lone_trail) decodeSecretFromUint256 = Throw InvalidArgument ∧
  bind (encodeSecretToUint256 lone_trail) decodeSecretValue =
    Return (hexlify ([0xed; 0xb8; 0x80] ++ replicate 29 0)).
Proof. by vm_compute. Qed.


Lemma a32_string : isString a32.
Proof. apply Forall_replicate. unfold isCodeUnit. lia. Qed.


(** C10 at the value of "vault secret" and at [2^256 - 1]. *)
Lemma decodeSecretValue_total_witness :
  (∃ result,
     decodeSecretValue vault_secret_value = Return result ∧
     toBeHex (normalizeBigInt vault_secret_value) 32 =
       Return (hexlify (bigEndian 32 vault_secret_value)) ∧
     (∀ text, isBytes32String (bigEndian 32 vault_secret_value) text → result = text) ∧
     ((∀ text, ¬ isBytes32String (bigEndian 32 vault_secret_value) text) →
      result = hexlify (bigEndian 32 vault_secret_value))) ∧
  decodeSecretValue vault_secret_value = Return vault_secret ∧
  decodeSecretValue (2 ^ 256 - 1) = Return (hexlify (replicate 32 255)).
Proof.
  split; [|split; vm_compute; reflexivity].
  apply (decodeSecretValue_total vault_secret_value).
  vm_compute. split; [discriminate|reflexivity].
Defined.

(** C2 at a call without a proof, after one store of [alice]. *)
Lemma storeSecret_all_or_nothing_witness :
  execute vault verifier bob (StoreSecret 3%N 4%N []) afterAlice =
    (Reverted InvalidProof, afterAlice).
Proof.
  apply (storeSecret_all_or_nothing vault verifier bob 3%N 4%N [] afterAlice).
  left. reflexivity.
Defined.

Lemma alice_stored :
  (execute vault verifier alice (StoreSecret 1%N 2%N [7%N]) initial).1 = Stored.
Proof. rewrite execute_store. reflexivity. Qed.

Lemma bob_stored :
  (execute vault verifier bob (StoreSecret 3%N 4%N [9%N]) afterAlice).1 = Stored.
Proof. rewrite execute_store. reflexivity. Qed.

(** C3 at the first store of [alice]. *)
Lemma grants_only_vault_and_owner_witness :
  ∃ key secret,
    verifier vault alice (acl initial) Uint160 1%N [7%N] = Some key ∧
    verifier vault alice (acl initial) Uint256 2%N [7%N] = Some secret ∧
    acl (execute vault verifier alice (StoreSecret 1%N 2%N [7%N]) initial).2 =
      {[ (key, vault); (secret, vault);
         (key, msg_sender alice); (secret, msg_sender alice) ]} ∪ acl initial.
Proof.
  apply (proj1 (grants_only_vault_and_owner vault verifier)). exact alice_stored.
Defined.

(** C4 at a store of [bob] after one of [alice]. *)
Lemma getSecretCount_counts_stores_witness :
  ∃ n,
    execute vault verifier alice (GetSecretCount (msg_sender bob)) afterAlice =
      (Count n, afterAlice) ∧
    (execute vault verifier alice (GetSecretCount (msg_sender bob))
       (execute vault verifier bob (StoreSecret 3%N 4%N [9%N]) afterAlice).2).1 =
      Count (n + 1)%N.
Proof.
  apply (proj1 (getSecretCount_counts_stores vault verifier)). exact bob_stored.
Defined.

(** C7 at the first store of [alice]. *)
Lemma storeSecret_appends_and_emits_witness :
  ∃ index entry st',
    execute vault verifier alice (StoreSecret 1%N 2%N [7%N]) initial = (Stored, st') ∧
    execute vault verifier alice (GetSecretCount (msg_sender alice)) initial =
      (Count index, initial) ∧
    entriesOf st' (msg_sender alice) = entriesOf initial (msg_sender alice) ++ [entry] ∧
    verifier vault alice (acl initial) Uint160 1%N [7%N] = Some (encryptedKey entry) ∧
    verifier vault alice (acl initial) Uint256 2%N [7%N] = Some (encryptedSecret entry) ∧
    execute vault verifier alice (GetSecretEntry (msg_sender alice) index) st' =
      (Entry (encryptedKey entry) (encryptedSecret entry) (createdAt entry), st') ∧
    execute vault verifier alice (GetSecretCount (msg_sender alice)) st' =
      (Count (index + 1)%N, st') ∧
    events st' = events initial ++
      [SecretStored (msg_sender alice) index (createdAt entry)].
Proof.
  apply (storeSecret_appends_and_emits vault verifier alice 1%N 2%N [7%N] initial).
  exact alice_stored.
Defined.

(** C8 at a store of [bob] after one of [alice]. *)
Lemma storeSecret_index_stable_witness :
  (∀ e1 owner count index,
     execute vault verifier e1 (GetSecretCount owner) afterAlice = (Count count, afterAlice) →
     (index < count)%N →
     (execute vault verifier e1 (GetSecretEntry owner index)
        (execute vault verifier bob (StoreSecret 3%N 4%N [9%N]) afterAlice).2).1 =
       (execute vault verifier e1 (GetSecretEntry owner index) afterAlice).1) ∧
  (∀ e1 owner,
     owner ≠ msg_sender bob →
     (execute vault verifier e1 (GetSecretCount owner)
        (execute vault verifier bob (StoreSecret 3%N 4%N [9%N]) afterAlice).2).1 =
       (execute vault verifier e1 (GetSecretCount owner) afterAlice).1).
Proof.
  apply (storeSecret_index_stable vault verifier bob 3%N 4%N [9%N] afterAlice).
  exact bob_stored.
Defined.
End Instances.

(** ** Histories of the contract *)

Section HistoryFacts.
Import Vault VaultHistory.
Variable this : address.
Variable fromExternal :
  address → env → gset (handle * address) → fheType → handle → bytes →
  option handle.

(** What holds at the start and is kept by every call holds after every
    history. *)
Lemma run_invariant (P : state → Prop) txs st :
  (∀ e c st, P st → P (execute this fromExternal e c st).2) →
  P st → P (run this fromExternal txs st).
Proof.
  intros Hstep. revert st.
  induction txs as [|[e c] txs IH]; intros st Hst; cbn; [done|].
  by apply IH, Hstep.
Qed.

Lemma entriesOf_initial owner : entriesOf initial owner = [].
Proof. unfold entriesOf, initial; cbn. by rewrite lookup_total_empty. Qed.

Lemma execute_grows e c st :
  (∀ owner, entriesOf st owner `prefix_of`
              entriesOf (execute this fromExternal e c st).2 owner) ∧
  acl st ⊆ acl (execute this fromExternal e c st).2 ∧
  events st `prefix_of` events (execute this fromExternal e c st).2.
Proof.
  destruct (execute_state this fromExternal e c st) as [->|Hst]; [done|].
  destruct Hst as (k & s & proof & key & secret & _ & _ & _ & ->). cbn [snd].
  split; [|split].
  - intros owner. rewrite entriesOf_stored.
    destruct (decide (msg_sender e = owner)); [by apply prefix_app_r|done].
  - unfold stored; cbn. intros x Hx. rewrite !elem_of_union. tauto.
  - unfold stored; cbn. by apply prefix_app_r.
Qed.

Lemma run_grows txs st :
  (∀ owner, entriesOf st owner `prefix_of`
              entriesOf (run this fromExternal txs st) owner) ∧
  acl st ⊆ acl (run this fromExternal txs st) ∧
  events st `prefix_of` events (run this fromExternal txs st).
Proof.
  revert st. induction txs as [|[e c] txs IH]; intros st; cbn; [done|].
  destruct (execute_grows e c st) as (He & Ha & Hev).
  destruct (IH (execute this fromExternal e c st).2) as (He' & Ha' & Hev').
  split; [|split].
  - intros owner. etrans; [apply He|apply He'].
  - etrans; [apply Ha|apply Ha'].
  - etrans; [apply Hev|apply Hev'].
Qed.

Lemma grantsComplete_execute e c st :
  grantsComplete this st → grantsComplete this (execute this fromExternal e c st).2.
Proof.
  intros Hinv. destruct (execute_state this fromExternal e c st) as [->|Hst]; [done|].
  destruct Hst as (k & s & proof & key & secret & _ & _ & _ & ->). cbn [snd].
  intros owner i entry. rewrite entriesOf_stored.
  assert (∀ x, x ∈ acl st → x ∈ acl (stored this e key secret st)) as Hold
    by (intros x Hx; unfold stored; cbn; rewrite !elem_of_union; tauto).
  assert (entriesOf st owner !! i = Some entry →
          (encryptedKey entry, this) ∈ acl (stored this e key secret st) ∧
          (encryptedSecret entry, this) ∈ acl (stored this e key secret st) ∧
          (encryptedKey entry, owner) ∈ acl (stored this e key secret st) ∧
          (encryptedSecret entry, owner) ∈ acl (stored this e key secret st)) as Hkept.
  { intros Hi. destruct (Hinv owner i entry Hi) as (? & ? & ? & ?). auto. }
  destruct (decide (msg_sender e = owner)) as [<-|]; [|done].
  rewrite lookup_app_Some. intros [Hi|[_ Hnew]]; [auto|].
  apply list_lookup_singleton_Some in Hnew as [_ <-].
  unfold stored; cbn. rewrite !elem_of_union, !elem_of_singleton. tauto.
Qed.

Lemma eventsMatch_execute e c st :
  eventsMatch st → eventsMatch (execute this fromExternal e c st).2.
Proof.
  intros Hinv. destruct (execute_state this fromExternal e c st) as [->|Hst]; [done|].
  destruct Hst as (k & s & proof & key & secret & _ & _ & _ & ->). cbn [snd].
  intros owner index timestamp. rewrite entriesOf_stored.
  unfold stored at 1; cbn [events]. rewrite elem_of_app, list_elem_of_singleton.
  rewrite (Hinv owner index timestamp). split.
  - intros [(entry & Hi & Ht)|[= -> -> ->]].
    + exists entry. split; [|done].
      destruct (decide (msg_sender e = owner)); [by apply lookup_app_l_Some|done].
    + rewrite decide_True, Nat2N.id by done. eexists. split; [apply list_lookup_middle|]; done.
  - intros (entry & Hi & Ht).
    destruct (decide (msg_sender e = owner)) as [<-|]; [|left; by exists entry].
    apply lookup_app_Some in Hi as [Hi|[Hlen Hnew]]; [left; by exists entry|].
    apply list_lookup_singleton_Some in Hnew as [Hidx <-]. right. cbn in Ht.
    f_equal; [lia|done].
Qed.

(** X1. In every state reached from the initial one, the two handles of
    every stored entry are granted to the vault and to the owner of the
    entry: an entry is never left without its grants. *)
Theorem stored_entries_are_granted txs owner (i : nat) entry :
  entriesOf (run this fromExternal txs initial) owner !! i = Some entry →
  (encryptedKey entry, this) ∈ acl (run this fromExternal txs initial) ∧
  (encryptedSecret entry, this) ∈ acl (run this fromExternal txs initial) ∧
  (encryptedKey entry, owner) ∈ acl (run this fromExternal txs initial) ∧
  (encryptedSecret entry, owner) ∈ acl (run this fromExternal txs initial).
Proof.
  revert owner i entry. fold (grantsComplete this (run this fromExternal txs initial)).
  apply (run_invariant (grantsComplete this)).
  - intros e c st. apply grantsComplete_execute.
  - intros owner i entry Hi. by rewrite entriesOf_initial, lookup_nil in Hi.
Qed.

(** X2. Whatever calls follow, an entry that [getSecretEntry] returns
    stays what it is: for an index below the count of now, the call
    returns the same in every later state; the count of an owner never
    goes down, and a grant is never taken back. *)
Theorem history_append_only txs st e owner count index :
  execute this fromExternal e (GetSecretCount owner) st = (Count count, st) →
  (index < count)%N →
  (execute this fromExternal e (GetSecretEntry owner index)
     (run this fromExternal txs st)).1 =
    (execute this fromExternal e (GetSecretEntry owner index) st).1 ∧
  (∃ count', (count ≤ count')%N ∧
     (execute this fromExternal e (GetSecretCount owner)
        (run this fromExternal txs st)).1 = Count count') ∧
  acl st ⊆ acl (run this fromExternal txs st).
Proof.
  intros Hcount Hlt. rewrite execute_count in Hcount. injection Hcount as <-.
  destruct (run_grows txs st) as (Hentries & Hacl & _). specialize (Hentries owner).
  split; [|split; [|done]].
  - rewrite !execute_entry; cbn [fst].
    destruct (entriesOf st owner !! N.to_nat index) as [entry|] eqn:Hi.
    + by rewrite (prefix_lookup_Some _ _ _ _ Hi Hentries).
    + apply lookup_ge_None in Hi. lia.
  - eexists. rewrite execute_count. split; [|done].
    apply prefix_length in Hentries. lia.
Qed.

(** X3. In every state reached from the initial one the events are the
    entries: [SecretStored(owner, index, timestamp)] is in the log exactly
    when [entries[owner][index]] exists and has [createdAt = timestamp]. *)
Theorem events_are_entries txs owner index timestamp :
  SecretStored owner index timestamp ∈ events (run this fromExternal txs initial) ↔
  ∃ entry,
    entriesOf (run this fromExternal txs initial) owner !! N.to_nat index = Some entry ∧
    createdAt entry = timestamp.
Proof.
  revert owner index timestamp. fold (eventsMatch (run this fromExternal txs initial)).
  apply (run_invariant eventsMatch).
  - intros e c st. apply eventsMatch_execute.
  - intros owner index timestamp. unfold initial; cbn. split.
    + by intros ?%elem_of_nil.
    + intros (entry & Hi & _).
      change (entriesOf initial owner !! N.to_nat index = Some entry) in Hi.
      by rewrite entriesOf_initial, lookup_nil in Hi.
Qed.
End HistoryFacts.

(** ** Timestamps and the listing of the front end *)

Section TimeFacts.
Import Vault VaultHistory.
Variable this : address.
Variable fromExternal :
  address → env → gset (handle * address) → fheType → handle → bytes →
  option handle.

Lemma timestampsOrdered_later T T' st :
  (T ≤ T')%N → timestampsOrdered T st → timestampsOrdered T' st.
Proof.
  intros HT Hinv owner i j first second Hi Hj.
  destruct (Hinv owner i j first second Hi Hj). split; [lia|done].
Qed.

Lemma timestampsOrdered_execute T e c st :
  (T ≤ block_timestamp e)%N → timestampsOrdered T st →
  timestampsOrdered (block_timestamp e) (execute this fromExternal e c st).2.
Proof.
  intros HT Hinv.
  destruct (execute_state this fromExternal e c st) as [->|Hst];
    [by apply (timestampsOrdered_later T)|].
  destruct Hst as (k & s & proof & key & secret & _ & _ & _ & ->). cbn [snd].
  intros owner i j first second. rewrite entriesOf_stored.
  destruct (decide (msg_sender e = owner)) as [<-|].
  - rewrite !lookup_app_Some. intros [Hi|[Hleni Hi]] [Hj|[Hlenj Hj]].
    + destruct (Hinv _ _ _ _ _ Hi Hj). split; [lia|done].
    + apply list_lookup_singleton_Some in Hj as [_ <-]. cbn.
      destruct (Hinv _ _ _ _ _ Hi Hi). split; lia.
    + pose proof (lookup_lt_Some _ _ _ Hj) as Hlt.
      apply list_lookup_singleton_Some in Hi as [_ <-]. cbn.
      destruct (Hinv _ _ _ _ _ Hj Hj). split; lia.
    + apply list_lookup_singleton_Some in Hi as [_ <-].
      apply list_lookup_singleton_Some in Hj as [_ <-]. cbn. split; lia.
  - intros Hi Hj. destruct (Hinv _ _ _ _ _ Hi Hj). split; [lia|done].
Qed.

Lemma timestampsOrdered_run txs : ∀ T st,
  timestampsFrom T txs = true → timestampsOrdered T st →
  ∃ T', timestampsOrdered T' (run this fromExternal txs st).
Proof.
  induction txs as [|[e c] txs IH]; intros T st Htime Hinv; cbn; [by exists T|].
  cbn in Htime. apply andb_true_iff in Htime as [HT Htime].
  apply N.leb_le in HT.
  apply (IH (block_timestamp e)); [done|].
  by apply (timestampsOrdered_execute T).
Qed.

(** X4. When the block timestamps of a history never go back, the entries
    of every owner are in the order of their [createdAt]: an entry at a
    lower index was not created later. *)
Theorem createdAt_nondecreasing txs owner (i j : nat) first second :
  timestampsFrom 0 txs = true →
  entriesOf (run this fromExternal txs initial) owner !! i = Some first →
  entriesOf (run this fromExternal txs initial) owner !! j = Some second →
  (i ≤ j)%nat →
  (createdAt first ≤ createdAt second)%N.
Proof.
  intros Htime Hi Hj Hij.
  destruct (timestampsOrdered_run txs 0%N initial Htime) as [T HT].
  - intros o i' j' f s Hf. by rewrite entriesOf_initial, lookup_nil in Hf.
  - by apply (HT owner i j first second Hi Hj).
Qed.
End TimeFacts.

Section ListingFacts.
Import Vault.
Variable this : address.
Variable fromExternal :
  address → env → gset (handle * address) → fheType → handle → bytes →
  option handle.
Variable number : Type.
Variable Number : N → number.

Lemma entries_Some (f : nat → nat) (l : list SecretEntry) :
  omap id (imap (λ index (entry : option (handle * handle * N)),
      match entry with
      | None => None
      | Some (key, secret, timestamp) =>
          Some {| Listing.index := f index; Listing.encryptedKey := key;
                  Listing.encryptedSecret := secret;
                  Listing.createdAt := Number timestamp |}
      end)
    (map (λ entry, Some (encryptedKey entry, encryptedSecret entry, createdAt entry)) l)) =
  imap (λ index entry,
      {| Listing.index := f index; Listing.encryptedKey := encryptedKey entry;
         Listing.encryptedSecret := encryptedSecret entry;
         Listing.createdAt := Number (createdAt entry) |}) l.
Proof.
  revert f. induction l as [|entry l IH]; intros f; [done|].
  cbn. f_equal. apply (IH (f ∘ S)).
Qed.

Lemma entries_None (F : nat → option (handle * handle * N) → option (Listing.entryView number)) k :
  (∀ index, F index None = None) →
  omap id (imap F (replicate k None)) = [].
Proof.
  revert F. induction k as [|k IH]; intros F HF; [done|].
  cbn. rewrite HF. cbn. apply IH. intros index. apply HF.
Qed.

Lemma readContracts_entries e st owner (secretCount : nat) :
  map (λ c, match execute this fromExternal e c st with
            | (Entry key secret timestamp, _) => Some (key, secret, timestamp)
            | _ => None
            end)
      (map (λ index, GetSecretEntry owner (N.of_nat index)) (seq 0 secretCount)) =
  map (λ entry, Some (encryptedKey entry, encryptedSecret entry, createdAt entry))
      (take secretCount (entriesOf st owner)) ++
  replicate (secretCount - length (entriesOf st owner)) None.
Proof.
  apply list_eq. intros i. rewrite !list_lookup_fmap.
  destruct (decide (i < secretCount)%nat) as [Hi|Hi].
  - rewrite lookup_seq_lt by done. cbn -[execute].
    rewrite execute_entry, Nat2N.id.
    destruct (entriesOf st owner !! i) as [entry|] eqn:Hentry.
    + rewrite lookup_app_l by
        (rewrite length_fmap, length_take; apply lookup_lt_Some in Hentry; lia).
      by rewrite list_lookup_fmap, lookup_take_lt, Hentry.
    + apply lookup_ge_None in Hentry.
      rewrite lookup_app_r by (rewrite length_fmap, length_take; lia).
      symmetry. apply lookup_replicate_2.
      rewrite length_fmap, length_take. lia.
  - rewrite lookup_seq_ge by lia. symmetry. apply lookup_ge_None.
    rewrite length_app, length_fmap, length_take, length_replicate. lia.
Qed.

Lemma listing_connected e st owner (secretCount : nat) :
  Listing.listing this fromExternal number Number e st (Some owner) true secretCount =
  imap (λ index entry,
      {| Listing.index := index; Listing.encryptedKey := encryptedKey entry;
         Listing.encryptedSecret := encryptedSecret entry;
         Listing.createdAt := Number (createdAt entry) |})
    (take secretCount (entriesOf st owner)).
Proof.
  unfold Listing.listing, Listing.entryCalls. cbn [negb orb].
  destruct secretCount as [|n]; [done|].
  change (S n =? 0)%nat with false. cbv iota.
  unfold Listing.readContracts. rewrite !length_fmap, length_seq.
  change (0 <? S n)%nat with true. cbv iota.
  rewrite readContracts_entries. unfold Listing.entries.
  rewrite imap_app, omap_app, entries_None by done.
  rewrite app_nil_r. apply (entries_Some id).
Qed.
End ListingFacts.

Section ListingTheorems.
Import Vault.
Variable this : address.
Variable fromExternal :
  address → env → gset (handle * address) → fheType → handle → bytes →
  option handle.
Variable number : Type.
Variable Number : N → number.

(** X5. For a connected account and a configured contract, the list that
    the front end shows for a count [secretCount] is the first
    [secretCount] entries of the account, in their order, each at its index
    in the contract: a call that reverts (the count was too high) leaves
    no row and moves no index. Without an account, or without a configured
    contract, the list is empty. *)
Theorem listing_is_first_entries e st owner address isContractConfigured
    (secretCount : nat) :
  Listing.listing this fromExternal number Number e st (Some owner) true secretCount =
    imap (λ index entry,
        {| Listing.index := index; Listing.encryptedKey := encryptedKey entry;
           Listing.encryptedSecret := encryptedSecret entry;
           Listing.createdAt := Number (createdAt entry) |})
      (take secretCount (entriesOf st owner)) ∧
  Listing.listing this fromExternal number Number e st None isContractConfigured
    secretCount = [] ∧
  Listing.listing this fromExternal number Number e st address false secretCount = [].
Proof.
  split; [apply listing_connected|].
  split; [done|]. by destruct address.
Qed.

(** X6. A count that was read before further calls still lists what was
    there: when [getSecretCount] returned [secretCount] in a state, the
    list built from it in any later state is the entries of that state,
    all of them, each at its index. *)
Theorem listing_of_stale_count e e' txs st owner (secretCount : nat) :
  execute this fromExternal e (GetSecretCount owner) st =
    (Count (N.of_nat secretCount), st) →
  Listing.listing this fromExternal number Number e' (run this fromExternal txs st)
    (Some owner) true secretCount =
  imap (λ index entry,
      {| Listing.index := index; Listing.encryptedKey := encryptedKey entry;
         Listing.encryptedSecret := encryptedSecret entry;
         Listing.createdAt := Number (createdAt entry) |})
    (entriesOf st owner).
Proof.
  rewrite execute_count. intros [= Hcount%Nat2N.inj].
  rewrite listing_connected. f_equal.
  destruct (run_grows this fromExternal txs st) as (Hentries & _).
  destruct (Hentries owner) as [rest ->].
  by rewrite <- Hcount, take_app_length.
Qed.
End ListingTheorems.

(** ** The codec of the client, beyond the round trip *)

Section CodecFacts.
Import JS Ethers Client.

Lemma hexLength_gt value n :
  2 ^ (8 * Z.of_nat n) ≤ value → (n * 2 < hexLength value)%nat.
Proof.
  intros Hvalue. unfold hexLength.
  assert (0 < 2 ^ (8 * Z.of_nat n)) by (apply Z.pow_pos_nonneg; lia).
  destruct (Z.eqb_spec value 0); [lia|].
  assert (8 * Z.of_nat n ≤ Z.log2 value) by (apply Z.log2_le_pow2; lia).
  apply Nat2Z.inj_lt. rewrite Z2Nat.id; divmod.
Qed.

(** [toBeHex] refuses what is negative or does not fit the width. *)
Lemma toBeHex_out_of_range value n :
  ¬ (0 ≤ value < 2 ^ (8 * Z.of_nat n)) → toBeHex value n = Throw NumericFault.
Proof.
  intros Hvalue. unfold toBeHex.
  destruct (Z.ltb_spec value 0); [done|].
  unfold hexDigits. rewrite length_map, length_seq.
  assert (n * 2 < hexLength value)%nat by (apply hexLength_gt; lia).
  by destruct (Nat.leb_spec (hexLength value) (n * 2)); [lia|].
Qed.

Lemma toBeHex_returns value n hex :
  (0 < n)%nat →
  toBeHex value n = Return hex ↔
    0 ≤ value < 2 ^ (8 * Z.of_nat n) ∧ hex = hexlify (bigEndian n value).
Proof.
  intros Hn. split.
  - intros Hhex. destruct (decide (0 ≤ value < 2 ^ (8 * Z.of_nat n))) as [Hvalue|Hvalue].
    + rewrite toBeHex_bigEndian in Hhex by done. injection Hhex as <-. done.
    + by rewrite toBeHex_out_of_range in Hhex.
  - intros [Hvalue ->]. by apply toBeHex_bigEndian.
Qed.

Lemma decodeSecretFromUint256_returns value text :
  decodeSecretFromUint256 value = Return text ↔
    0 ≤ value < 2 ^ 256 ∧ isBytes32String (bigEndian 32 value) text.
Proof.
  unfold decodeSecretFromUint256. split.
  - intros Htext.
    destruct (toBeHex value 32) as [hex|err] eqn:Hhex; [|done].
    apply toBeHex_returns in Hhex as [Hvalue ->]; [|lia]. cbn [bind] in Htext.
    split; [done|].
    apply decodeBytes32String_text in Htext;
      [done|apply bigEndian_bytes|apply bigEndian_length].
  - intros [Hvalue Htext]. rewrite toBeHex_bigEndian by (done || lia). cbn [bind].
    apply decodeBytes32String_text; [apply bigEndian_bytes|apply bigEndian_length|done].
Qed.
End CodecFacts.

Section NulFacts.
Import JS Ethers Client.

Lemma TextEncoder_nuls k : TextEncoder_encode (replicate k 0) = replicate k 0.
Proof. induction k as [|k IH]; [done|]. cbn [replicate]. by rewrite TextEncoder_encode_cons, IH. Qed.

Lemma isWellFormed_nuls k : isWellFormed (replicate k 0) = true.
Proof. induction k as [|k IH]; [done|]. cbn [replicate]. by rewrite isWellFormed_cons. Qed.

(** Null characters at the end do not change whether a string is well
    formed, and are null bytes at the end of its bytes. *)
Lemma wellFormed_app_nuls k (t : string) :
  isWellFormed (t ++ replicate k 0) = isWellFormed t ∧
  (isWellFormed t = true →
   TextEncoder_encode (t ++ replicate k 0) = TextEncoder_encode t ++ replicate k 0).
Proof.
  induction t as [|c|c c2 rest IH IH2] using string_pair_ind.
  - split; [apply isWellFormed_nuls|]. intros _. apply TextEncoder_nuls.
  - cbn [app]. rewrite isWellFormed_cons, TextEncoder_encode_cons.
    rewrite (isWellFormed_cons c []), (TextEncoder_encode_cons c []).
    destruct (isLeadSurrogate c).
    { split; [|done]. destruct k; cbn [replicate]; [done|].
      by change (isTrailSurrogate 0) with false. }
    destruct (isTrailSurrogate c); [done|].
    split; [apply isWellFormed_nuls|].
    intros _. rewrite TextEncoder_nuls. cbn [TextEncoder_encode].
    by rewrite app_nil_r.
  - change ((c :: c2 :: rest) ++ replicate k 0) with (c :: c2 :: (rest ++ replicate k 0)).
    rewrite !(isWellFormed_cons c), !(TextEncoder_encode_cons c).
    destruct IH as [IHwf IHenc], IH2 as [IH2wf IH2enc].
    destruct (isLeadSurrogate c).
    + destruct (isTrailSurrogate c2); [|done]. cbn [andb].
      split; [done|]. intros Hwf. by rewrite IHenc, app_assoc.
    + destruct (isTrailSurrogate c); [done|].
      change (c2 :: rest ++ replicate k 0) with ((c2 :: rest) ++ replicate k 0).
      split; [done|]. intros Hwf. by rewrite IH2enc, app_assoc.
Qed.

Lemma isString_app_nuls t k : isString t → isString (t ++ replicate k 0).
Proof.
  intros Ht. apply Forall_app. split; [done|].
  apply Forall_replicate. unfold isCodeUnit. lia.
Qed.

(** The value of a well-formed secret: the bytes of the secret without
    the null characters at its end, padded to 32. *)
Lemma encodeSecretToUint256_nuls t k value :
  isString t → isWellFormed (t ++ replicate k 0) = true →
  encodeSecretToUint256 (t ++ replicate k 0) = Return value →
  (length (TextEncoder_encode t) ≤ 31)%nat ∧
  value = fromBigEndian (TextEncoder_encode t ++
            replicate (32 - length (TextEncoder_encode t)) 0).
Proof.
  intros Ht Hwf Hvalue.
  pose proof (isString_app_nuls t k Ht) as Hs.
  destruct (proj1 (encodeSecretToUint256_accepts _ Hs)) as [Hrange Hp]; [by eexists|].
  destruct (toUtf8Bytes_paired _ Hs Hp) as (bytes & Hbytes & Hlen & Hbs & Henc).
  specialize (Henc Hwf).
  rewrite (encodeSecretToUint256_bytes _ bytes) in Hvalue by done.
  injection Hvalue as <-.
  destruct (wellFormed_app_nuls k t) as [Hwt Happ].
  rewrite Hwt in Hwf. rewrite Happ in Henc by done. subst bytes. rewrite length_app, length_replicate in Hlen |- *.
  split; [lia|]. rewrite <- app_assoc, <- replicate_add. do 3 f_equal. lia.
Qed.

(** The text that the decoders return for the value of a bytes32 string. *)
Lemma decode_padded t :
  isString t → isWellFormed t = true → last t ≠ Some 0 →
  (length (TextEncoder_encode t) ≤ 31)%nat →
  let value := fromBigEndian (TextEncoder_encode t ++
                 replicate (32 - length (TextEncoder_encode t)) 0) in
  decodeSecretFromUint256 value = Return t ∧ decodeSecretValue value = Return t.
Proof.
  intros Ht Hwf Hlast Hlen value.
  assert (isBytes (TextEncoder_encode t)) as Hbs.
  { destruct (toUtf8Bytes_paired t Ht (wellFormed_paired t Hwf))
      as (bytes & _ & _ & Hbs & Henc). by rewrite <- (Henc Hwf). }
  destruct (padded_bytes _ Hbs) as [Hdata Hdlen]; [lia|].
  assert (decodeBytes32String (hexlify (TextEncoder_encode t ++
            replicate (32 - length (TextEncoder_encode t)) 0)) = Return t) as Hdecode.
  { apply decodeBytes32String_text; [done..|]. unfold isBytes32String.
    split; [done|]. split; [done|]. split; [done|]. split; [lia|done]. }
  unfold decodeSecretFromUint256, decodeSecretValue, normalizeBigInt, value.
  rewrite toBeHex_fromBigEndian by done. cbn [bind]. by rewrite Hdecode.
Qed.
End NulFacts.

Section LengthFacts.
Import JS Ethers Client.

Lemma Buffer_byteLength_cons c rest :
  Buffer_byteLength (c :: rest) =
    if c <? 0x80 then 1 + Buffer_byteLength rest
    else if c <? 0x800 then 2 + Buffer_byteLength rest
    else if isLeadSurrogate c then
      match rest with
      | c2 :: rest' =>
          if isTrailSurrogate c2 then 4 + Buffer_byteLength rest'
          else 3 + Buffer_byteLength rest
      | [] => 3
      end
    else 3 + Buffer_byteLength rest.
Proof. reflexivity. Qed.

(** A code unit takes one to three bytes. *)
Lemma Buffer_byteLength_bounds (s : string) :
  Z.of_nat (length s) ≤ Buffer_byteLength s ≤ 3 * Z.of_nat (length s).
Proof.
  induction s as [|c|c c2 rest IH1 IH2] using string_pair_ind.
  - cbn. lia.
  - cbn. destruct (c <? 0x80), (c <? 0x800), (isLeadSurrogate c); lia.
  - rewrite (Buffer_byteLength_cons c). cbn [length] in *.
    destruct (c <? 0x80), (c <? 0x800), (isLeadSurrogate c), (isTrailSurrogate c2); lia.
Qed.

Lemma Buffer_byteLength_zero (s : string) : Buffer_byteLength s = 0 ↔ s = [].
Proof.
  split; [|by intros ->].
  pose proof (Buffer_byteLength_bounds s). destruct s; [done|]. cbn [length] in *. lia.
Qed.

Lemma isSecretValid_range s :
  isString s → isSecretValid s = true ↔ 1 ≤ Buffer_byteLength s ≤ 31.
Proof.
  intros Hs. unfold isSecretValid, getUtf8ByteLength, MAX_SECRET_BYTES.
  rewrite TextEncoder_length by done.
  rewrite andb_true_iff, Z.gtb_lt, Z.leb_le. lia.
Qed.

(** The three ways [encodeSecretToUint256] ends. *)
Lemma encodeSecretToUint256_cases s :
  isString s →
  (Buffer_byteLength s = 0 ∧ encodeSecretToUint256 s = Throw SecretEmpty) ∨
  (31 < Buffer_byteLength s ∧ encodeSecretToUint256 s = Throw SecretTooLong) ∨
  (1 ≤ Buffer_byteLength s ≤ 31 ∧ leadSurrogatesPaired s = false ∧
     encodeSecretToUint256 s = Throw InvalidArgument) ∨
  (1 ≤ Buffer_byteLength s ≤ 31 ∧ leadSurrogatesPaired s = true ∧
     ∃ bytes, toUtf8Bytes s = Return bytes ∧ isBytes bytes ∧
       Z.of_nat (length bytes) = Buffer_byteLength s ∧
       encodeSecretToUint256 s =
         Return (fromBigEndian (bytes ++ replicate (32 - length bytes) 0))).
Proof.
  intros Hs. pose proof (Buffer_byteLength_nonneg s).
  destruct (decide (Buffer_byteLength s = 0)) as [H0|];
    [left; split; [done|by apply encodeSecretToUint256_empty]|].
  destruct (decide (31 < Buffer_byteLength s)) as [H31|];
    [right; left; split; [done|by apply encodeSecretToUint256_too_long]|].
  right; right. assert (1 ≤ Buffer_byteLength s ≤ 31) as Hrange by lia.
  destruct (leadSurrogatesPaired s) eqn:Hp.
  - right. split; [done|]. split; [done|].
    destruct (toUtf8Bytes_paired s Hs Hp) as (bytes & Hbytes & Hlen & Hbs & _).
    exists bytes. split; [done|]. split; [done|]. split; [done|].
    by apply encodeSecretToUint256_bytes.
  - left. split; [done|]. split; [done|].
    rewrite encodeSecretToUint256_in_range by done.
    by rewrite encodeBytes32String_unpaired.
Qed.

Lemma fromBigEndian_padded_mod bytes :
  (length bytes ≤ 31)%nat →
  fromBigEndian (bytes ++ replicate (32 - length bytes) 0) mod 256 = 0.
Proof.
  intros Hlen. replace (32 - length bytes)%nat with (S (31 - length bytes)) by lia.
  rewrite replicate_S_end, app_assoc, fromBigEndian_snoc. divmod.
Qed.
End LengthFacts.

Section IllFormedFacts.
Import JS Ethers Client.

(** The three bytes that [toUtf8Bytes] writes for a surrogate are refused
    by the decoder (UTF16_SURROGATE). *)
Lemma readMultibyte_surrogate cp rest :
  0xd800 ≤ cp ≤ 0xdfff →
  readMultibyte (0xe0 + cp / 4096)
    (0x80 + (cp / 64) mod 64 :: 0x80 + cp mod 64 :: rest) = Throw InvalidArgument.
Proof.
  intros Hrange. unfold readMultibyte, utf8Prefix.
  bits_to_arith. decide_eqb.
  cbn -[Z.add Z.div Z.modulo Z.land Z.lor Z.shiftl Z.gtb Z.geb Z.leb].
  bits_to_arith. decide_eqb. cbn [negb].
  rewrite !lor_shiftl_6 by divmod.
  replace (_ + _) with cp by divmod.
  cbn [bind].
  destruct (Z.gtb_spec cp 0x10ffff); [done|].
  destruct (Z.geb_spec cp 0xd800); [|lia].
  destruct (Z.leb_spec cp 0xdfff); [done|lia].
Qed.

Lemma getUtf8CodePoints_surrogate c rest :
  0xd800 ≤ c ≤ 0xdfff →
  getUtf8CodePoints (utf8_of_scalar c ++ rest) = Throw InvalidArgument.
Proof.
  intros Hc. unfold getUtf8CodePoints, utf8_of_scalar.
  destruct (Z.ltb_spec c 0x80); [lia|]. destruct (Z.ltb_spec c 0x800); [lia|].
  destruct (Z.ltb_spec c 0x10000); [|lia].
  cbn [app length]. rewrite getUtf8CodePoints_loop_cons. bits_to_arith. decide_eqb.
  by rewrite readMultibyte_surrogate.
Qed.

(** The bytes that [toUtf8Bytes] returns for a string that is not well
    formed are not decoded. *)
Lemma getUtf8CodePoints_illFormed (s : string) : ∀ bytes,
  isString s → isWellFormed s = false →
  toUtf8Bytes s = Return bytes →
  getUtf8CodePoints bytes = Throw InvalidArgument.
Proof.
  induction s as [|c|c c2 rest IH1 IH2] using string_pair_ind; intros bytes Hs Hwf Hbytes.
  - done.
  - apply Forall_cons in Hs as [Hc _].
    destruct (isLeadSurrogate c) eqn:Hlead;
      [by rewrite toUtf8Bytes_lone in Hbytes|].
    rewrite toUtf8Bytes_single in Hbytes by done. cbn in Hbytes.
    injection Hbytes as <-.
    rewrite isWellFormed_cons, Hlead in Hwf.
    destruct (isTrailSurrogate c) eqn:Htrail; [|done].
    rewrite isTrailSurrogate_range in Htrail by done.
    apply bool_decide_eq_true in Htrail.
    apply getUtf8CodePoints_surrogate. lia.
  - apply Forall_cons in Hs as [Hc Hs]. pose proof Hs as Hs2.
    apply Forall_cons in Hs as [Hc2 Hs].
    rewrite isWellFormed_cons in Hwf.
    destruct (isLeadSurrogate c) eqn:Hlead.
    + destruct (isTrailSurrogate c2) eqn:Htrail;
        [|by rewrite toUtf8Bytes_lone in Hbytes].
      cbn [andb] in Hwf.
      rewrite toUtf8Bytes_pair in Hbytes by done.
      destruct (toUtf8Bytes rest) as [bytes'|] eqn:Hrest; [|done].
      cbn [bind] in Hbytes. injection Hbytes as <-.
      rewrite isLeadSurrogate_range in Hlead by done.
      rewrite isTrailSurrogate_range in Htrail by done.
      apply bool_decide_eq_true in Hlead. apply bool_decide_eq_true in Htrail.
      rewrite getUtf8CodePoints_scalar by (by apply scalar_of_pair).
      by rewrite (IH1 bytes').
    + rewrite toUtf8Bytes_single in Hbytes by done.
      destruct (toUtf8Bytes (c2 :: rest)) as [bytes'|] eqn:Hrest; [|done].
      cbn [bind] in Hbytes. injection Hbytes as <-.
      destruct (isTrailSurrogate c) eqn:Htrail.
      * rewrite isTrailSurrogate_range in Htrail by done.
        apply bool_decide_eq_true in Htrail.
        apply getUtf8CodePoints_surrogate. lia.
      * rewrite getUtf8CodePoints_scalar by (by apply scalar_of_unit).
        by rewrite (IH2 bytes').
Qed.

(** Two ways to write the same bytes as a part and null bytes after it:
    the part that does not end in a null byte is the shorter one. *)
Lemma app_nuls_inv (a b : list Z) m m' :
  a ++ replicate m 0 = b ++ replicate m' 0 → last b ≠ Some 0 →
  ∃ j, a = b ++ replicate j 0.
Proof.
  intros Heq Hlast.
  assert (length a + m = length b + m')%nat as Hlen
    by (apply (f_equal length) in Heq; by rewrite !length_app, !length_replicate in Heq).
  destruct (decide (length b ≤ length a)%nat) as [Hle|Hgt].
  - exists (length a - length b)%nat. apply list_eq. intros i.
    destruct (decide (i < length a)%nat) as [Hi|Hi].
    + rewrite <- (lookup_app_l a (replicate m 0)) by done. rewrite Heq.
      destruct (decide (i < length b)%nat).
      * by rewrite !lookup_app_l by done.
      * rewrite !lookup_app_r by lia.
        rewrite !(lookup_replicate_2 _ 0) by lia. done.
    + rewrite !lookup_ge_None_2; [done|..]; [|lia].
      rewrite length_app, length_replicate. lia.
  - exfalso. apply Hlast. rewrite last_lookup.
    rewrite <- (lookup_app_l b (replicate m' 0)) by lia.
    rewrite <- Heq, lookup_app_r by lia.
    apply lookup_replicate_2. lia.
Qed.

(** The value of a secret that is not well formed holds no text. *)
Lemma illFormed_not_bytes32 s bytes text :
  isString s → isWellFormed s = false →
  toUtf8Bytes s = Return bytes → (length bytes ≤ 31)%nat →
  ¬ isBytes32String (bytes ++ replicate (32 - length bytes) 0) text.
Proof.
  intros Hs Hwf Hbytes Hlen (Ht & Hwt & Hlast & Htlen & Hdata).
  apply app_nuls_inv in Hdata as [j ->]; [|by apply TextEncoder_last].
  destruct (wellFormed_app_nuls j text) as [Hwj Hencj].
  rewrite <- Hencj in Hbytes by done.
  pose proof (getUtf8CodePoints_illFormed s _ Hs Hwf Hbytes) as Hthrow.
  pose proof (toUtf8String_encode (text ++ replicate j 0)) as Hback.
  unfold toUtf8String in Hback. rewrite Hthrow in Hback.
  by discriminate Hback; [apply isString_app_nuls|rewrite Hwj].
Qed.
End IllFormedFacts.

Section CodecTheorems.
Import JS Ethers Client.

(** X7. [decodeSecretFromUint256] returns a text exactly for a value of
    [0] to [2^256 - 1] whose 32 big-endian bytes are the bytes32 string of
    that text; for every other value it throws. Whenever it returns a
    text, the UI's [decodeSecretValue] returns the same text. *)
Theorem decodeSecretFromUint256_exact value text :
  (decodeSecretFromUint256 value = Return text ↔
     0 ≤ value < 2 ^ 256 ∧ isBytes32String (bigEndian 32 value) text) ∧
  (decodeSecretFromUint256 value = Return text →
     decodeSecretValue value = Return text).
Proof.
  split; [apply decodeSecretFromUint256_returns|].
  unfold decodeSecretFromUint256, decodeSecretValue, normalizeBigInt.
  destruct (toBeHex value 32) as [hex|err]; [|done]. cbn [bind].
  by intros ->.
Qed.

(** X8. A value that is negative or does not fit is not decoded: for a
    value outside [0, 2^256) the task's [decodeSecretFromUint256] and the
    UI's [decodeSecretValue] both throw the numeric fault of [toBeHex]
    (in the UI [toBeHex] is called before the [try], so its [catch] does
    not apply), and for a value outside [0, 2^160) so does the conversion
    of the key to an address. *)
Theorem decode_out_of_range value :
  (¬ (0 ≤ value < 2 ^ 256) →
     decodeSecretFromUint256 value = Throw NumericFault ∧
     decodeSecretValue value = Throw NumericFault) ∧
  (¬ (0 ≤ value < 2 ^ 160) → addressBytes value = Throw NumericFault).
Proof.
  split.
  - intros Hvalue. unfold decodeSecretFromUint256, decodeSecretValue, normalizeBigInt.
    by rewrite (toBeHex_out_of_range value 32).
  - intros Hvalue. unfold addressBytes, normalizeBigInt.
    by rewrite (toBeHex_out_of_range value 20).
Qed.

(** X9. The key comes back as its 20 bytes exactly when it is an address
    value: [toBeHex(value, 20)] yields bytes if and only if
    [0 ≤ value < 2^160], and they are then the 20 big-endian bytes of the
    value, from which the value can be read again. *)
Theorem addressBytes_exact value bytes :
  addressBytes value = Return bytes ↔
    0 ≤ value < 2 ^ 160 ∧ bytes = bigEndian 20 value ∧ fromBigEndian bytes = value.
Proof.
  unfold addressBytes, normalizeBigInt. split.
  - intros Hbytes. destruct (toBeHex value 20) as [hex|err] eqn:Hhex; [|done].
    apply toBeHex_returns in Hhex as [Hvalue ->]; [|lia]. cbn [bind] in Hbytes.
    rewrite getBytes_hexlify in Hbytes by apply bigEndian_bytes.
    injection Hbytes as <-. split; [done|]. split; [done|].
    by apply fromBigEndian_bigEndian.
  - intros (Hvalue & -> & _). rewrite toBeHex_bigEndian by (done || lia). cbn [bind].
    apply getBytes_hexlify, bigEndian_bytes.
Qed.
End CodecTheorems.

Section NulTheorems.
Import JS Ethers Client.

(** X10. What comes back from a well-formed secret in general: the
    secret without the null characters at its end. For a string [t] that
    does not end in U+0000 and any number [k] of U+0000 after it, the
    value of [t] followed by the [k] null characters decodes to [t], in
    the task and in the UI. *)
Theorem secret_roundtrip_strips_nuls t k value :
  isString t → last t ≠ Some 0 →
  isWellFormed (t ++ replicate k 0) = true →
  encodeSecretToUint256 (t ++ replicate k 0) = Return value →
  decodeSecretFromUint256 value = Return t ∧ decodeSecretValue value = Return t.
Proof.
  intros Ht Hlast Hwf Hvalue.
  destruct (encodeSecretToUint256_nuls t k value Ht Hwf Hvalue) as [Hlen ->].
  rewrite (proj1 (wellFormed_app_nuls k t)) in Hwf.
  by apply decode_padded.
Qed.

(** X11. Two well-formed secrets have the same value exactly when they
    differ only in null characters at the end: with [t1] and [t2] not
    ending in U+0000, the values of [t1] followed by [k1] null characters
    and of [t2] followed by [k2] are equal if and only if [t1 = t2]. In
    particular the encoding is injective on the secrets that do not end
    in U+0000. *)
Theorem secret_values_equal_iff t1 k1 t2 k2 value1 value2 :
  isString t1 → last t1 ≠ Some 0 → isWellFormed (t1 ++ replicate k1 0) = true →
  isString t2 → last t2 ≠ Some 0 → isWellFormed (t2 ++ replicate k2 0) = true →
  encodeSecretToUint256 (t1 ++ replicate k1 0) = Return value1 →
  encodeSecretToUint256 (t2 ++ replicate k2 0) = Return value2 →
  value1 = value2 ↔ t1 = t2.
Proof.
  intros Ht1 Hlast1 Hwf1 Ht2 Hlast2 Hwf2 Hvalue1 Hvalue2.
  destruct (encodeSecretToUint256_nuls t1 k1 value1 Ht1 Hwf1 Hvalue1) as [Hlen1 ->].
  destruct (encodeSecretToUint256_nuls t2 k2 value2 Ht2 Hwf2 Hvalue2) as [Hlen2 ->].
  rewrite (proj1 (wellFormed_app_nuls k1 t1)) in Hwf1.
  rewrite (proj1 (wellFormed_app_nuls k2 t2)) in Hwf2.
  split; [|by intros ->].
  intros Heq.
  destruct (decode_padded t1 Ht1 Hwf1 Hlast1 Hlen1) as [Hd1 _].
  destruct (decode_padded t2 Ht2 Hwf2 Hlast2 Hlen2) as [Hd2 _].
  cbv zeta in Hd1, Hd2. rewrite Heq in Hd1. congruence.
Qed.
End NulTheorems.

Section LengthTheorems.
Import JS Ethers Client.

(** X12. A text that [decodeSecretFromUint256] returns encodes back to
    the value it came from, unless it is empty: the empty text comes from
    the value 0 and from no other, and [encodeSecretToUint256] accepts
    every other decoded text and returns the value. *)
Theorem decoded_text_encodes_back value text :
  decodeSecretFromUint256 value = Return text →
  (text = [] ↔ value = 0) ∧
  (text ≠ [] → encodeSecretToUint256 text = Return value).
Proof.
  intros Htext. apply decodeSecretFromUint256_returns in Htext as [Hvalue Htext].
  destruct Htext as (Hs & Hwf & Hlast & Hlen & Hdata).
  assert (value = fromBigEndian (TextEncoder_encode text ++
            replicate (32 - length (TextEncoder_encode text)) 0)) as Hv.
  { rewrite <- Hdata. symmetry. by apply fromBigEndian_bigEndian. }
  split; [split|].
  - intros ->. by rewrite Hv.
  - intros ->. change (bigEndian 32 0) with (replicate 32 0) in Hdata.
    apply TextEncoder_nil.
    pose proof (TextEncoder_last text Hs Hwf Hlast) as Hl.
    destruct (TextEncoder_encode text) as [|b bs _] using rev_ind; [done|].
    rewrite last_snoc in Hl. rewrite length_app in Hlen. cbn in Hlen.
    assert (replicate 32 0 !! length bs = Some b) as Hb
      by (rewrite Hdata, <- app_assoc; apply list_lookup_middle; done).
    apply lookup_replicate in Hb as [-> _]. done.
  - intros Hne.
    destruct (toUtf8Bytes_paired text Hs (wellFormed_paired text Hwf))
      as (bytes & Hbytes & Hblen & Hbs & Henc).
    specialize (Henc Hwf). subst bytes. rewrite Hv.
    apply encodeSecretToUint256_bytes; [|done..].
    assert (Buffer_byteLength text ≠ 0) by (by rewrite Buffer_byteLength_zero). lia.
Qed.

(** X13. A secret takes one to three bytes for each of its code units.
    So [encodeSecretToUint256] refuses as empty the empty string and no
    other, refuses as too long every secret of more than 31 code units,
    and accepts every secret of 1 to 10 code units in which the lead
    surrogates are paired. *)
Theorem byteLength_bounds s :
  isString s →
  Z.of_nat (length s) ≤ Buffer_byteLength s ≤ 3 * Z.of_nat (length s) ∧
  (encodeSecretToUint256 s = Throw SecretEmpty ↔ s = []) ∧
  ((31 < length s)%nat → encodeSecretToUint256 s = Throw SecretTooLong) ∧
  (s ≠ [] → (length s ≤ 10)%nat → leadSurrogatesPaired s = true →
     ∃ value, encodeSecretToUint256 s = Return value).
Proof.
  intros Hs. pose proof (Buffer_byteLength_bounds s) as Hbounds.
  split; [done|]. split; [|split].
  - split; [|by intros ->].
    intros Hthrow. apply Buffer_byteLength_zero.
    destruct (encodeSecretToUint256_cases s Hs)
      as [[H0 _]|[[_ He]|[(_ & _ & He)|(_ & _ & bytes & _ & _ & _ & He)]]];
      [done|congruence..].
  - intros Hlen. apply encodeSecretToUint256_too_long. lia.
  - intros Hne Hlen Hp. apply encodeSecretToUint256_accepts; [done|].
    split; [|done]. destruct s; [done|]. cbn [length] in *. lia.
Qed.

(** X14. The front end sends what the task would: for every text of the
    input field, [handleStoreSecret] gets to a value to encrypt exactly
    when [encodeSecretToUint256] returns one, and it is the same value. *)
Theorem ui_sends_task_value s value :
  isString s →
  secretValueToSend s = Some value ↔ encodeSecretToUint256 s = Return value.
Proof.
  intros Hs. pose proof (isSecretValid_range s Hs) as Hvalid.
  pose proof (Buffer_byteLength_nonneg s) as Hnonneg.
  unfold secretValueToSend.
  destruct (isSecretValid s); cbn [negb].
  - rewrite encodeSecretToUint256_in_range by (by apply Hvalid).
    destruct (bind (encodeBytes32String s) BigInt) as [v|err]; [|done].
    split; congruence.
  - assert (¬ (1 ≤ Buffer_byteLength s ≤ 31)) as Hout by (intros H; by apply Hvalid in H).
    destruct (decide (Buffer_byteLength s = 0)) as [H0|].
    + by rewrite encodeSecretToUint256_empty.
    + by rewrite encodeSecretToUint256_too_long by lia.
Qed.

(** X15. What a value of [encodeSecretToUint256] is: a number below
    [2^256] whose 32 big-endian bytes are the bytes [toUtf8Bytes] wrote
    for the secret, as many as [Buffer.byteLength] counted, followed by
    null bytes; its last byte is always null. *)
Theorem encoded_value_shape s value :
  isString s →
  encodeSecretToUint256 s = Return value →
  0 ≤ value < 2 ^ 256 ∧ value mod 256 = 0 ∧
  ∃ bytes,
    toUtf8Bytes s = Return bytes ∧
    Z.of_nat (length bytes) = Buffer_byteLength s ∧
    bigEndian 32 value = bytes ++ replicate (32 - length bytes) 0.
Proof.
  intros Hs Hvalue.
  destruct (encodeSecretToUint256_cases s Hs)
    as [[_ He]|[[_ He]|[(_ & _ & He)|(Hrange & _ & bytes & Hbytes & Hbs & Hlen & He)]]];
    [congruence..|].
  rewrite He in Hvalue. injection Hvalue as <-.
  destruct (padded_bytes bytes Hbs) as [Hdata Hdlen]; [lia|].
  pose proof (fromBigEndian_range _ Hdata) as Hr. rewrite Hdlen in Hr.
  split; [done|]. split; [apply fromBigEndian_padded_mod; lia|].
  exists bytes. split; [done|]. split; [done|].
  rewrite <- Hdlen at 1. by apply bigEndian_fromBigEndian.
Qed.
End LengthTheorems.

Section IllFormedTheorems.
Import JS Ethers Client.

(** X16. A secret that is accepted but not well formed (it has a trail
    surrogate that follows no lead surrogate) is stored as a value that
    holds no text: [decodeSecretFromUint256] throws on the value, and the
    UI's [decodeSecretValue] returns the hex string of its 32 bytes. *)
Theorem illformed_secret_not_decoded s value :
  isString s → isWellFormed s = false →
  encodeSecretToUint256 s = Return value →
  (∃ err, decodeSecretFromUint256 value = Throw err) ∧
  decodeSecretValue value = Return (hexlify (bigEndian 32 value)).
Proof.
  intros Hs Hwf Hvalue.
  destruct (encodeSecretToUint256_cases s Hs)
    as [[_ He]|[[_ He]|[(_ & _ & He)|(Hrange & _ & bytes & Hbytes & Hbs & Hlen & He)]]];
    [congruence..|].
  rewrite He in Hvalue. injection Hvalue as <-.
  destruct (padded_bytes bytes Hbs) as [Hdata Hdlen]; [lia|].
  assert (∃ err, decodeBytes32String
            (hexlify (bytes ++ replicate (32 - length bytes) 0)) = Throw err) as [err Herr].
  { destruct (decodeBytes32String _) as [text|err] eqn:Hdecode; [|by eexists].
    apply decodeBytes32String_text in Hdecode; [|done..].
    exfalso. apply (illFormed_not_bytes32 s bytes text Hs Hwf Hbytes); [lia|done]. }
  unfold decodeSecretFromUint256, decodeSecretValue, normalizeBigInt.
  rewrite toBeHex_fromBigEndian by done. cbn [bind]. rewrite Herr. cbn [try_catch].
  split; [by eexists|].
  rewrite <- Hdlen at 2. by rewrite bigEndian_fromBigEndian.
Qed.
End IllFormedTheorems.

Section EventFacts.
Import Vault VaultHistory.
Variable this : address.
Variable fromExternal :
  address → env → gset (handle * address) → fheType → handle → bytes →
  option handle.

Lemma eventsOf_execute e c st owner :
  eventsOf st owner =
    imap (λ i entry, (N.of_nat i, createdAt entry)) (entriesOf st owner) →
  eventsOf (execute this fromExternal e c st).2 owner =
    imap (λ i entry, (N.of_nat i, createdAt entry))
      (entriesOf (execute this fromExternal e c st).2 owner).
Proof.
  intros Hinv. destruct (execute_state this fromExternal e c st) as [->|Hst]; [done|].
  destruct Hst as (k & s & proof & key & secret & _ & _ & _ & ->). cbn [snd].
  rewrite entriesOf_stored. unfold eventsOf, stored at 1. cbn [events].
  rewrite omap_app. fold (eventsOf st owner). rewrite Hinv. cbn.
  destruct (decide (msg_sender e = owner)) as [<-|]; [|by rewrite app_nil_r].
  rewrite imap_app. cbn. by rewrite Nat.add_0_r.
Qed.

(** X17. The log replays the entries: in every state reached from the
    initial one, the [SecretStored] events of an owner, in the order of
    the log, carry the indices 0, 1, 2, ... and the [createdAt] of the
    owner's entries, one event for each entry. *)
Theorem events_replay_entries txs owner :
  eventsOf (run this fromExternal txs initial) owner =
    imap (λ i entry, (N.of_nat i, createdAt entry))
      (entriesOf (run this fromExternal txs initial) owner).
Proof.
  apply (run_invariant this fromExternal (λ st, eventsOf st owner =
    imap (λ i entry, (N.of_nat i, createdAt entry)) (entriesOf st owner))).
  - intros e c st. apply eventsOf_execute.
  - by rewrite entriesOf_initial.
Qed.
End EventFacts.

(** ** Instances of the further properties *)

Section FurtherInstances.
Import JS Ethers Client Samples Vault VaultSamples HistorySamples.

Lemma history_bob :
  entriesOf (run vault verifier history initial) (msg_sender bob) = [bobFirst; bobSecond].
Proof. vm_compute. reflexivity. Qed.

(** X1 at the first entry of [bob] in the history of the examples. *)
Lemma stored_entries_are_granted_witness :
  (encryptedKey bobFirst, vault) ∈ acl (run vault verifier history initial) ∧
  (encryptedSecret bobFirst, vault) ∈ acl (run vault verifier history initial) ∧
  (encryptedKey bobFirst, msg_sender bob) ∈ acl (run vault verifier history initial) ∧
  (encryptedSecret bobFirst, msg_sender bob) ∈ acl (run vault verifier history initial).
Proof.
  apply (stored_entries_are_granted vault verifier history (msg_sender bob) 0 bobFirst).
  rewrite history_bob. reflexivity.
Defined.

(** X2 at the entry of [alice], over the rest of the history. *)
Lemma history_append_only_witness :
  (execute vault verifier bob (GetSecretEntry (msg_sender alice) 0)
     (run vault verifier (tail history) afterAlice)).1 =
    (execute vault verifier bob (GetSecretEntry (msg_sender alice) 0) afterAlice).1 ∧
  (∃ count', (1 ≤ count')%N ∧
     (execute vault verifier bob (GetSecretCount (msg_sender alice))
        (run vault verifier (tail history) afterAlice)).1 = Count count') ∧
  acl afterAlice ⊆ acl (run vault verifier (tail history) afterAlice).
Proof.
  apply (history_append_only vault verifier (tail history) afterAlice bob
           (msg_sender alice) 1 0).
  - reflexivity.
  - reflexivity.
Defined.

(** X4 at the two entries of [bob]. *)
Lemma createdAt_nondecreasing_witness :
  (createdAt bobFirst ≤ createdAt bobSecond)%N.
Proof.
  apply (createdAt_nondecreasing vault verifier history (msg_sender bob) 0 1
           bobFirst bobSecond).
  - reflexivity.
  - rewrite history_bob. reflexivity.
  - rewrite history_bob. reflexivity.
  - lia.
Defined.

(** X6 at the count of [alice] read before the rest of the history. *)
Lemma listing_of_stale_count_witness :
  Listing.listing vault verifier N id bob (run vault verifier (tail history) afterAlice)
    (Some (msg_sender alice)) true 1 =
  imap (λ index entry,
      {| Listing.index := index; Listing.encryptedKey := encryptedKey entry;
         Listing.encryptedSecret := encryptedSecret entry;
         Listing.createdAt := id (createdAt entry) |})
    (entriesOf afterAlice (msg_sender alice)).
Proof.
  apply (listing_of_stale_count vault verifier N id alice bob (tail history) afterAlice
           (msg_sender alice) 1).
  reflexivity.
Defined.

(** X8 at [2^256] and at [-1]. *)
Lemma decode_out_of_range_witness :
  (decodeSecretFromUint256 (2 ^ 256) = Throw NumericFault ∧
   decodeSecretValue (2 ^ 256) = Throw NumericFault) ∧
  addressBytes (-1) = Throw NumericFault.
Proof.
  split.
  - apply (proj1 (decode_out_of_range (2 ^ 256))). lia.
  - apply (proj2 (decode_out_of_range (-1))). lia.
Defined.

Lemma a_string : isString [97].
Proof. repeat constructor; unfold isCodeUnit; lia. Qed.

Lemma b_string : isString [98].
Proof. repeat constructor; unfold isCodeUnit; lia. Qed.

(** X10 at "a" followed by U+0000. *)
Lemma secret_roundtrip_strips_nuls_witness :
  encodeSecretToUint256 a_nul = Return (97 * 2 ^ 248) ∧
  decodeSecretFromUint256 (97 * 2 ^ 248) = Return [97] ∧
  decodeSecretValue (97 * 2 ^ 248) = Return [97].
Proof.
  split; [vm_compute; reflexivity|].
  apply (secret_roundtrip_strips_nuls [97] 1 (97 * 2 ^ 248)).
  - exact a_string.
  - discriminate.
  - reflexivity.
  - vm_compute. reflexivity.
Defined.

(** X11 at "a" followed by U+0000, and "b". *)
Lemma secret_values_equal_iff_witness :
  97 * 2 ^ 248 = 98 * 2 ^ 248 ↔ [97] = [98].
Proof.
  apply (secret_values_equal_iff [97] 1 [98] 0 (97 * 2 ^ 248) (98 * 2 ^ 248)).
  - exact a_string.
  - discriminate.
  - reflexivity.
  - exact b_string.
  - discriminate.
  - reflexivity.
  - vm_compute. reflexivity.
  - vm_compute. reflexivity.
Defined.

(** X12 at the value of "vault secret". *)
Lemma decoded_text_encodes_back_witness :
  (vault_secret = [] ↔ vault_secret_value = 0) ∧
  (vault_secret ≠ [] → encodeSecretToUint256 vault_secret = Return vault_secret_value).
Proof.
  apply (decoded_text_encodes_back vault_secret_value vault_secret).
  vm_compute. reflexivity.
Defined.

(** X14 at "vault secret". *)
Lemma ui_sends_task_value_witness :
  secretValueToSend vault_secret = Some vault_secret_value ↔
  encodeSecretToUint256 vault_secret = Return vault_secret_value.
Proof. apply (ui_sends_task_value vault_secret). exact vault_secret_string. Defined.

(** X15 at "vault secret". *)
Lemma encoded_value_shape_witness :
  0 ≤ vault_secret_value < 2 ^ 256 ∧ vault_secret_value mod 256 = 0 ∧
  ∃ bytes,
    toUtf8Bytes vault_secret = Return bytes ∧
    Z.of_nat (length bytes) = Buffer_byteLength vault_secret ∧
    bigEndian 32 vault_secret_value = bytes ++ replicate (32 - length bytes) 0.
Proof.
  apply (encoded_value_shape vault_secret vault_secret_value).
  - exact vault_secret_string.
  - vm_compute. reflexivity.
Defined.

Lemma lone_trail_string : isString lone_trail.
Proof. repeat constructor; unfold isCodeUnit, lone_trail; lia. Qed.

(** X16 at a trail surrogate alone. *)
Lemma illformed_secret_not_decoded_witness :
  encodeSecretToUint256 lone_trail = Return (0xedb880 * 2 ^ 232) ∧
  (∃ err, decodeSecretFromUint256 (0xedb880 * 2 ^ 232) = Throw err) ∧
  decodeSecretValue (0xedb880 * 2 ^ 232) =
    Return (hexlify (bigEndian 32 (0xedb880 * 2 ^ 232))).
Proof.
  split; [vm_compute; reflexivity|].
  apply (illformed_secret_not_decoded lone_trail (0xedb880 * 2 ^ 232)).
  - exact lone_trail_string.
  - reflexivity.
  - vm_compute. reflexivity.
Defined.
End FurtherInstances.

(** ** Instances of the round trip and of the validation *)

Section ClientInstances.
Import JS Ethers Client Samples Script ClientSamples.

(** C1 at "vault secret", an address value, and the key of the examples
    on the two paths: the address with its checksum comes back from the
    number as a [bigint] and from the address as a string. *)
Lemma secret_roundtrip_witness :
  (∃ value,
     encodeSecretToUint256 vault_secret = Return value ∧
     0 ≤ value < 2 ^ 256 ∧
     decodeSecretFromUint256 value = Return vault_secret ∧
     decodeSecretValue value = Return vault_secret) ∧
  (∃ addressHex,
     toBeHex (Client.normalizeBigInt keyAddress) 20 = Return addressHex ∧
     addressBytes keyAddress = Return (bigEndian 20 keyAddress) ∧
     BigInt addressHex = Return keyAddress) ∧
  (∃ checksummed,
     Address.getAddress sampleHash noIcap keyString = Return checksummed ∧
     checksummed ≠ keyString ∧
     Address.addAddress sampleHash noIcap checksummed = Return keyAddress ∧
     Address.decryptedAddress sampleHash noIcap (Address.ClearBigInt keyAddress) =
       Return checksummed ∧
     Address.decodeAddressValue sampleHash noIcap (Address.ClearString checksummed) =
       Return checksummed).
Proof.
  destruct (secret_roundtrip sampleHash noIcap vault_secret keyAddress)
    as (Hsecret & Haddress & Hkey).
  - exact vault_secret_string.
  - reflexivity.
  - discriminate.
  - vm_compute. split; discriminate.
  - vm_compute. split; [discriminate|reflexivity].
  - split; [exact Hsecret|]. split; [exact Haddress|].
    destruct (Hkey keyString (drop 2 keyString)
                (Address.getChecksumAddress sampleHash keyString))
      as (keyValue & Hadd & _ & Hdigits & _ & Hclear).
    + vm_compute. reflexivity.
    + vm_compute. reflexivity.
    + assert (keyValue = keyAddress) as ->.
      { assert (BigInt (prefix0x ++ drop 2 keyString) = Return keyAddress) as Hvalue
          by (vm_compute; reflexivity).
        rewrite Hvalue in Hdigits. by injection Hdigits. }
      exists (Address.getChecksumAddress sampleHash keyString).
      split; [vm_compute; reflexivity|].
      split; [vm_compute; discriminate|].
      split; [exact Hadd|].
      split.
      * apply (Hclear (Address.ClearBigInt keyAddress)). reflexivity.
      * apply (Hclear (Address.ClearString
                         (Address.getChecksumAddress sampleHash keyString))).
        vm_compute. reflexivity.
Defined.


Lemma mixed_string : isString mixed.
Proof. repeat constructor; unfold isCodeUnit; lia. Qed.

(** X13 at three secrets: a surrogate pair and three more characters (5
    code units, 10 bytes) are within the bounds and accepted, 32 times
    "a" is too long, and the empty secret is the one refused as empty. *)
Lemma byteLength_bounds_witness :
  Z.of_nat (length mixed) ≤ Buffer_byteLength mixed ≤ 3 * Z.of_nat (length mixed) ∧
  (∃ value, encodeSecretToUint256 mixed = Return value) ∧
  encodeSecretToUint256 a32 = Throw SecretTooLong ∧
  (encodeSecretToUint256 [] = Throw SecretEmpty ↔ [] = ([] : string)).
Proof.
  destruct (byteLength_bounds mixed mixed_string) as (Hbounds & _ & _ & Hshort).
  destruct (byteLength_bounds a32 a32_string) as (_ & _ & Hlong & _).
  destruct (byteLength_bounds [] (Forall_nil_2 _)) as (_ & Hempty & _).
  split; [exact Hbounds|].
  split; [apply Hshort; [discriminate|cbn; lia|reflexivity]|].
  split; [apply Hlong; cbn; lia|exact Hempty].
Defined.
End ClientInstances.
